(** * Mython: a shallow embedding of the interpreter's lexer, runtime and AST

    The development follows the C++ sources file by file:
    - [runtime.h] / [runtime.cpp]: the object model ([ObjectHolder], [Class],
      [ClassInstance]), truthiness and the comparison primitives;
    - [statement.h] / [statement.cpp]: the executable AST nodes;
    - [lexer.h] / [lexer.cpp]: the tokenizer working on a [std::istream].

    Finite maps ([std::unordered_map]) are stdpp's [gmap]; a 32-bit [int] is a
    [Z]; text is [string]; a [ClassInstance] lives in a store indexed by its
    address, so that aliasing through [ObjectHolder::Share] is visible. *)

From Stdlib Require Import ZArith Ascii String HexString.
From stdpp Require Import base numbers list strings gmap pretty.

Set Warnings "-register-all,-clear-no-such-hyp".

Local Open Scope string_scope.
Local Open Scope Z_scope.

(** ** runtime.h: methods, classes and executable nodes *)

(** Address of an object: of a [runtime::ClassInstance], or of an
    [ObjectHolder] that is a member of a node. *)
Definition loc : Type := nat.

(** The functions a [Comparison] node is given as its [Comparator]. *)
Inductive Comparator : Type :=
  | CmpEqual | CmpLess | CmpNotEqual | CmpGreater | CmpLessOrEqual | CmpGreaterOrEqual.

(** [ast::Statement] (an alias of [runtime::Executable]) with the node classes of
    [statement.h]; [runtime::Method] and [runtime::Class] are part of the same
    block because a method owns its body.
    A [unique_ptr] operand that the code tests against null before use is an
    [option]; [NewInstance] owns a [ClassInstance] member, here its address,
    and [ClassDefinition] an [ObjectHolder] member, here its address too. *)
Inductive Statement : Type :=
  | NumericConst (value_ : Z)
  | StringConst (value_ : string)
  | BoolConst (value_ : bool)
  | None_
  | VariableValue (dotted_ids_ : list string)
  | Assignment (var_ : string) (rv_ : Statement)
  | ClassDefinition (cls_ : loc)
  | Compound (statements_ : list Statement)
  | FieldAssignment (object_ : list string) (field_name_ : string) (rv_ : Statement)
  | IfElse (condition_ if_body_ : Statement) (else_body_ : option Statement)
  | MethodBody (body_ : Statement)
  | MethodCall (object_ : Statement) (method_name_ : string) (args_ : list Statement)
  | NewInstance (class_inst_ : loc) (args_ : list Statement)
  | Print (args_ : list Statement)
  | Return (statement_ : Statement)
  | Not (argument_ : option Statement)
  | Stringify (argument_ : Statement)
  | Add (lhs_ rhs_ : option Statement)
  | Sub (lhs_ rhs_ : option Statement)
  | Mult (lhs_ rhs_ : option Statement)
  | Div (lhs_ rhs_ : option Statement)
  | And (lhs_ rhs_ : option Statement)
  | Or (lhs_ rhs_ : option Statement)
  | Comparison (cmp_ : Comparator) (lhs_ rhs_ : option Statement)
with Method : Type :=
  | mkMethod (name : string) (formal_params : list string) (body : Statement)
with Class : Type :=
  | mkClass (parent_ : option Class) (name_ : string) (methods_ : list Method).

Definition name (m : Method) : string := let 'mkMethod n _ _ := m in n.
Definition formal_params (m : Method) : list string := let 'mkMethod _ p _ := m in p.
Definition body (m : Method) : Statement := let 'mkMethod _ _ b := m in b.

Definition parent_ (c : Class) : option Class := let 'mkClass p _ _ := c in p.
Definition name_ (c : Class) : string := let 'mkClass _ n _ := c in n.
Definition methods_ (c : Class) : list Method := let 'mkClass _ _ ms := c in ms.

(** The two loops of the constructor [Class::Class]: each visited method is
    stored under its name, [name_to_method_[method.name] = &method]. *)
Definition store_methods (ms : list Method) (table : gmap string Method) : gmap string Method :=
  foldl (fun acc method => <[name method := method]> acc) table ms.

(** [Class::name_to_method_] as the constructor leaves it: first the methods in
    [parent->methods_] (when [parent != nullptr]), then the class's own. *)
Definition name_to_method_ (c : Class) : gmap string Method :=
  let inherited :=
    match parent_ c with
    | Some parent => store_methods (methods_ parent) ∅
    | None => ∅
    end in
  store_methods (methods_ c) inherited.

(** [Class::GetMethod]: the entry of [name_to_method_], or [nullptr]. *)
Definition GetMethod (c : Class) (name : string) : option Method :=
  name_to_method_ c !! name.

Definition GetName (c : Class) : string := name_ c.

(** ** runtime.h: object holders *)

(** [runtime::ObjectHolder]: empty ([None]), or pointing to a [Number],
    [String], [Bool], [Class] or [ClassInstance].  Value objects are immutable,
    so the holder carries the value; an instance is held by address. *)
Inductive ObjectHolder : Type :=
  | HNone
  | HNumber (v : Z)
  | HString (v : string)
  | HBool (v : bool)
  | HClass (c : Class)
  | HInstance (l : loc).

Definition TryAs_Number (o : ObjectHolder) : option Z :=
  match o with HNumber v => Some v | _ => None end.
Definition TryAs_String (o : ObjectHolder) : option string :=
  match o with HString v => Some v | _ => None end.
Definition TryAs_Bool (o : ObjectHolder) : option bool :=
  match o with HBool v => Some v | _ => None end.
Definition TryAs_Class (o : ObjectHolder) : option Class :=
  match o with HClass c => Some c | _ => None end.
Definition TryAs_ClassInstance (o : ObjectHolder) : option loc :=
  match o with HInstance l => Some l | _ => None end.

(** [ObjectHolder::operator bool]. *)
Definition holds (o : ObjectHolder) : bool :=
  match o with HNone => false | _ => true end.

(** [runtime::Closure]. *)
Abbreviation Closure := (gmap string ObjectHolder).

(** [runtime::ClassInstance]: the class it refers to and its fields. *)
Record ClassInstance : Type := mkInstance { cls_ : Class; fields_ : Closure }.

(** [runtime::IsTrue]. *)
Definition IsTrue (object : ObjectHolder) : bool :=
  match TryAs_Bool object with
  | Some b => b
  | None =>
    match TryAs_Number object with
    | Some n => negb (n =? 0)
    | None =>
      match TryAs_String object with
      | Some s => negb (String.eqb s "")
      | None => false
      end
    end
  end.

(** ** Effects: exceptions, the object store and the output stream *)

(** What a C++ call can end with besides a value: a [std::runtime_error], the
    [ast::ReturnException] of a [Return] node, or a fault (a null or dangling
    pointer is dereferenced, or [ObjectHolder::AssertIsValid] fails). *)
Inductive Exn : Type :=
  | runtime_error (what : string)
  | ReturnException (obj_ : ObjectHolder)
  | fault (why : string).

Inductive Outcome (A : Type) : Type :=
  | Returns (a : A)
  | Throws (e : Exn).
Arguments Returns {A} a.
Arguments Throws {A} e.

(** A computation over a state [S]; [None] means the recursion budget of the
    model ran out before the C++ call finished. *)
Definition M (S A : Type) : Type := S -> option (Outcome A * S).

Definition ret {S A} (a : A) : M S A := fun s => Some (Returns a, s).
Definition throw {S A} (e : Exn) : M S A := fun s => Some (Throws e, s).
Definition bind {S A B} (m : M S A) (k : A -> M S B) : M S B :=
  fun s =>
    match m s with
    | None => None
    | Some (Returns a, s') => k a s'
    | Some (Throws e, s') => Some (Throws e, s')
    end.
Definition modify {S} (f : S -> S) : M S unit := fun s => Some (Returns tt, f s).
Definition out_of_fuel {S A} : M S A := fun _ => None.

Notation "'let!' x ':=' m 'in' k" := (bind m (fun x => k))
  (at level 10, x name, m at level 100, k at level 200, only parsing).
Notation "'do!' m 'in' k" := (bind m (fun _ => k))
  (at level 10, m at level 100, k at level 200, only parsing).

(** The objects reachable through [Share] (every [ClassInstance] is a member of
    a [NewInstance] node), the text written to the [Context]'s stream, and
    what the holders that are members of nodes hold ([ClassDefinition::cls_]):
    a holder that has been moved from is empty. *)
Record World : Type :=
  mkWorld { objects : gmap loc ClassInstance; output : string; holders : gmap loc ObjectHolder }.

(** What [Execute(closure, context)] works on: the closure it was given by
    reference, and the world. *)
Record Env : Type := mkEnv { closure : Closure; world : World }.

Definition write (text : string) : M World unit :=
  modify (fun w => mkWorld (objects w) (output w ++ text) (holders w)).

(** Runs a computation on the world inside an [Env], leaving the closure. *)
Definition in_world {A} (m : M World A) : M Env A :=
  fun e =>
    match m (world e) with
    | None => None
    | Some (r, w') => Some (r, mkEnv (closure e) w')
    end.

(** Runs [m] with [c] as its closure; that closure is a local of the caller and
    is gone when the call ends, whatever the outcome. *)
Definition with_closure {A} (c : Closure) (m : M Env A) : M World A :=
  fun w =>
    match m (mkEnv c w) with
    | None => None
    | Some (r, e') => Some (r, world e')
    end.

(** Dereferences the address of an instance; every address handed out by a
    [NewInstance] node of the program is in the world. *)
Definition instance_at (l : loc) : M World ClassInstance :=
  fun w =>
    match objects w !! l with
    | Some inst => Some (Returns inst, w)
    | None => Some (Throws (fault "dangling ClassInstance"), w)
    end.

(** ** runtime.cpp: class instances *)

(** [ClassInstance::HasMethod]. *)
Definition HasMethod (inst : ClassInstance) (method : string) (argument_count : nat) : bool :=
  match GetMethod (cls_ inst) method with
  | Some method_ptr => Nat.eqb (length (formal_params method_ptr)) argument_count
  | None => false
  end.

(** The loop [closure[method_ptr->formal_params[i]] = actual_args[i]] of
    [ClassInstance::Call], for [i] below [actual_args.size()]. *)
Definition bind_params (formals : list string) (actual_args : list ObjectHolder)
    (closure : Closure) : Closure :=
  foldl (fun acc fa => <[fa.1 := fa.2]> acc) closure (zip formals actual_args).

(** The closure [ClassInstance::Call] builds for the body: [self] first, then
    the formal parameters in order. *)
Definition call_closure (this : loc) (method_ptr : Method) (actual_args : list ObjectHolder)
    : Closure :=
  bind_params (formal_params method_ptr) actual_args (<["self" := HInstance this]> ∅).

(** [os << this]: the address [l], as [operator<<(const void* )] prints it. *)
Definition show_pointer (l : loc) : string := HexString.of_nat l.

(** The text ["\n"s]. *)
Definition endl : string := String "010"%char "".

(** The result of [int] arithmetic.  Within the range of [int] it is the
    mathematical result; beyond it C++ leaves the behaviour undefined, and the
    model wraps around as two's-complement hardware does. *)
Definition wrap_int (z : Z) : Z := (z + 2147483648) mod 4294967296 - 2147483648.

(** The least [int]; its quotient by [-1] is the one quotient of two [int]s
    that no [int] holds, and the hardware traps on it as on a zero divisor. *)
Definition INT_MIN : Z := -2147483648.

(** Where [closure_ptr] of [VariableValue::Execute] points: at the closure the
    node was given, or at the fields of an instance. *)
Inductive closure_ref : Type :=
  | the_closure
  | fields_of (l : loc).

Definition deref_closure (closure : Closure) (objs : gmap loc ClassInstance)
    (closure_ptr : closure_ref) : option Closure :=
  match closure_ptr with
  | the_closure => Some closure
  | fields_of l => fields_ <$> objs !! l
  end.

(** The [for] loop of [VariableValue::Execute] and the [return] after it;
    [current_obj_it] is [None] while the iterator is not yet assigned. *)
Fixpoint VariableValue_loop (closure : Closure) (objs : gmap loc ClassInstance)
    (closure_ptr : closure_ref) (current_obj_it : option ObjectHolder)
    (dotted_ids : list string) : Outcome ObjectHolder :=
  match dotted_ids with
  | [] =>
      match current_obj_it with
      | Some second => Returns second
      | None => Throws (fault "uninitialised iterator")
      end
  | var :: rest =>
      match deref_closure closure objs closure_ptr with
      | None => Throws (fault "dangling ClassInstance")
      | Some c =>
          match c !! var with
          | None => Throws (runtime_error "var is not found")
          | Some second =>
              match TryAs_ClassInstance second with
              | None => Returns second
              | Some l => VariableValue_loop closure objs (fields_of l) (Some second) rest
              end
          end
      end
  end.

(** [VariableValue::Execute]. *)
Definition VariableValue_Execute (dotted_ids_ : list string) : M Env ObjectHolder :=
  fun e =>
    Some (VariableValue_loop (closure e) (objects (world e)) the_closure None dotted_ids_, e).

(** Assignment to a variable of the closure: [closure[var] = value]. *)
Definition set_var (var : string) (value : ObjectHolder) : M Env unit :=
  modify (fun e => mkEnv (<[var := value]> (closure e)) (world e)).

(** [instance->Fields()[field] = value]. *)
Definition set_field (l : loc) (field : string) (value : ObjectHolder) : M World unit :=
  let! inst := instance_at l in
  modify (fun w =>
    mkWorld (<[l := mkInstance (cls_ inst) (<[field := value]> (fields_ inst))]> (objects w))
            (output w) (holders w)).

(** Reads the holder at address [l], a member of a node. *)
Definition holder_at (l : loc) : M World ObjectHolder :=
  fun w =>
    match holders w !! l with
    | Some holder => Some (Returns holder, w)
    | None => Some (Throws (fault "dangling ObjectHolder"), w)
    end.

(** What [std::move] leaves of the holder at [l] once its value has been
    taken: the empty holder. *)
Definition move_from (l : loc) : M World unit :=
  modify (fun w => mkWorld (objects w) (output w) (<[l := HNone]> (holders w))).

(** Runs [m] against a fresh [DummyContext] and hands back what was written to
    it; the caller's stream is untouched. *)
Definition capture {A} (m : M World A) : M World string :=
  fun w =>
    match m (mkWorld (objects w) "" (holders w)) with
    | None => None
    | Some (Returns _, w') =>
        Some (Returns (output w'), mkWorld (objects w') (output w) (holders w'))
    | Some (Throws e, w') => Some (Throws e, mkWorld (objects w') (output w) (holders w'))
    end.

(** [try { m } catch (ReturnException& obj) { return obj.GetValue(); }]
    followed by [return {}]. *)
Definition catch_return (m : M Env ObjectHolder) : M Env ObjectHolder :=
  fun e =>
    match m e with
    | None => None
    | Some (Returns _, e') => Some (Returns HNone, e')
    | Some (Throws (ReturnException obj), e') => Some (Returns obj, e')
    | Some (Throws ex, e') => Some (Throws ex, e')
    end.

Section Open_recursion.
(** The virtual calls made from a node or an object: [Execute] of another
    node and [Print] of another object. *)
Variable Execute' : Statement -> M Env ObjectHolder.
Variable Print' : ObjectHolder -> M World unit.

(** [ClassInstance::Call]. *)
Definition Call_ (this : loc) (method : string) (actual_args : list ObjectHolder)
    : M World ObjectHolder :=
  let! inst := instance_at this in
  if negb (HasMethod inst method (length actual_args)) then
    throw (runtime_error "Not implemented")
  else
    match GetMethod (cls_ inst) method with
    | Some method_ptr =>
        with_closure (call_closure this method_ptr actual_args) (Execute' (body method_ptr))
    | None => throw (fault "null method_ptr")
    end.

(** [Object::Print] by dynamic type: [ValueObject<T>::Print], [Bool::Print],
    [Class::Print] and [ClassInstance::Print].  [obj->Print] asserts that
    the holder is not empty. *)
Definition Print_ (obj : ObjectHolder) : M World unit :=
  match obj with
  | HNone => throw (fault "AssertIsValid")
  | HNumber v => write (pretty v)
  | HString v => write v
  | HBool v => write (if v then "True" else "False")
  | HClass c => do! write "Class " in write (GetName c)
  | HInstance this =>
      let! inst := instance_at this in
      match GetMethod (cls_ inst) "__str__" with
      | Some method_ptr =>
          let! res := Call_ this (name method_ptr) [] in
          Print' res
      | None => write (show_pointer this)
      end
  end.

(** The shared tail of [Equal] and [Less]: [lhs] is an instance with the
    special method of one parameter, else the comparison fails. *)
Definition compare_by_method (method what : string) (lhs rhs : ObjectHolder) : M World bool :=
  match TryAs_ClassInstance lhs with
  | Some l =>
      let! inst := instance_at l in
      if HasMethod inst method 1 then
        let! res := Call_ l method [rhs] in
        match TryAs_Bool res with
        | Some b => ret b
        | None => throw (fault "null Bool")
        end
      else throw (runtime_error what)
  | None => throw (runtime_error what)
  end.

(** [runtime::Equal]. *)
Definition Equal_ (lhs rhs : ObjectHolder) : M World bool :=
  if negb (holds lhs) && negb (holds rhs) then ret true
  else if negb (holds lhs) then throw (runtime_error "Cannot compare objects for equality")
  else
    match TryAs_Number lhs, TryAs_Number rhs with
    | Some l, Some r => ret (l =? r)
    | _, _ =>
      match TryAs_String lhs, TryAs_String rhs with
      | Some l, Some r => ret (String.eqb l r)
      | _, _ =>
        match TryAs_Bool lhs, TryAs_Bool rhs with
        | Some l, Some r => ret (Bool.eqb l r)
        | _, _ => compare_by_method "__eq__" "Cannot compare objects for equality" lhs rhs
        end
      end
    end.

(** [runtime::Less]. *)
Definition Less_ (lhs rhs : ObjectHolder) : M World bool :=
  if negb (holds lhs) then throw (runtime_error "Cannot compare objects for equality")
  else
    match TryAs_Number lhs, TryAs_Number rhs with
    | Some l, Some r => ret (l <? r)
    | _, _ =>
      match TryAs_String lhs, TryAs_String rhs with
      | Some l, Some r => ret (String.ltb l r)
      | _, _ =>
        match TryAs_Bool lhs, TryAs_Bool rhs with
        | Some l, Some r => ret (negb l && r)
        | _, _ => compare_by_method "__lt__" "Cannot compare objects for less" lhs rhs
        end
      end
    end.

(** [runtime::NotEqual]. *)
Definition NotEqual_ (lhs rhs : ObjectHolder) : M World bool :=
  let! eq := Equal_ lhs rhs in ret (negb eq).

(** [runtime::Greater]: [!Less(...) && !Equal(...)], the right operand of
    [&&] being evaluated only when the left one is true. *)
Definition Greater_ (lhs rhs : ObjectHolder) : M World bool :=
  let! lt := Less_ lhs rhs in
  if negb lt then let! eq := Equal_ lhs rhs in ret (negb eq) else ret false.

(** [runtime::LessOrEqual]: [Less(...) || Equal(...)]. *)
Definition LessOrEqual_ (lhs rhs : ObjectHolder) : M World bool :=
  let! lt := Less_ lhs rhs in
  if lt then ret true else Equal_ lhs rhs.

(** [runtime::GreaterOrEqual]. *)
Definition GreaterOrEqual_ (lhs rhs : ObjectHolder) : M World bool :=
  let! lt := Less_ lhs rhs in ret (negb lt).

Definition apply_comparator (cmp : Comparator) : ObjectHolder -> ObjectHolder -> M World bool :=
  match cmp with
  | CmpEqual => Equal_
  | CmpLess => Less_
  | CmpNotEqual => NotEqual_
  | CmpGreater => Greater_
  | CmpLessOrEqual => LessOrEqual_
  | CmpGreaterOrEqual => GreaterOrEqual_
  end.
End Open_recursion.

(** ** statement.cpp: the nodes *)

Section Nodes.
Variable Execute' : Statement -> M Env ObjectHolder.
Variable Print' : ObjectHolder -> M World unit.

(** [for (const auto& arg : args_) actual_args.push_back(arg->Execute(...))]. *)
Fixpoint execute_args (args : list Statement) : M Env (list ObjectHolder) :=
  match args with
  | [] => ret []
  | arg :: rest =>
      let! v := Execute' arg in
      let! vs := execute_args rest in
      ret (v :: vs)
  end.

(** The loop of [Compound::Execute]; every result is dropped. *)
Fixpoint Compound_loop (statements : list Statement) : M Env unit :=
  match statements with
  | [] => ret tt
  | statement :: rest => do! Execute' statement in Compound_loop rest
  end.

(** The loop of [Print::Execute]. *)
Fixpoint Print_loop (is_first : bool) (obj : ObjectHolder) (args : list Statement)
    : M Env ObjectHolder :=
  match args with
  | [] => ret obj
  | arg :: rest =>
      do! (if is_first then ret tt else in_world (write " ")) in
      let! obj := Execute' arg in
      do! in_world (if holds obj then Print' obj else write "None") in
      Print_loop false obj rest
  end.

(** Both operands of a [BinaryOperation], after the null test every
    [Execute] of the family starts with: [lhs_] is executed, then [rhs_]. *)
Definition execute_operands (lhs_ rhs_ : option Statement)
    : M Env (ObjectHolder * ObjectHolder) :=
  match rhs_, lhs_ with
  | Some rhs, Some lhs =>
      let! obj_lhs := Execute' lhs in
      let! obj_rhs := Execute' rhs in
      ret (obj_lhs, obj_rhs)
  | _, _ => throw (runtime_error "null operands are not supported")
  end.

(** [Sub::Execute], [Mult::Execute]: numbers only. *)
Definition arith (op : Z -> Z -> Z) (what : string) (lhs_ rhs_ : option Statement)
    : M Env ObjectHolder :=
  let! ops := execute_operands lhs_ rhs_ in
  match TryAs_Number ops.1, TryAs_Number ops.2 with
  | Some l_num, Some r_num => ret (HNumber (wrap_int (op l_num r_num)))
  | _, _ => throw (runtime_error what)
  end.

(** [Execute] of one node, by its class. *)
Definition Execute_ (stmt : Statement) : M Env ObjectHolder :=
  match stmt with
  | NumericConst value_ => ret (HNumber value_)
  | StringConst value_ => ret (HString value_)
  | BoolConst value_ => ret (HBool value_)
  | None_ => ret HNone
  | VariableValue dotted_ids_ => VariableValue_Execute dotted_ids_
  | Assignment var_ rv_ =>
      let! v := Execute' rv_ in
      do! set_var var_ v in
      ret v
  | ClassDefinition cls_ =>
      let! holder := in_world (holder_at cls_) in
      match TryAs_Class holder with
      | Some obj =>
          (* [closure[obj->GetName()] = std::move(cls_)] *)
          do! set_var (GetName obj) holder in
          do! in_world (move_from cls_) in
          ret HNone
      | None => throw (fault "null Class")
      end
  | Compound statements_ =>
      do! Compound_loop statements_ in
      ret HNone
  | FieldAssignment object_ field_name_ rv_ =>
      let! obj := VariableValue_Execute object_ in
      let! v := Execute' rv_ in
      match TryAs_ClassInstance obj with
      | Some l => do! in_world (set_field l field_name_ v) in ret v
      | None => throw (fault "null ClassInstance")
      end
  | IfElse condition_ if_body_ else_body_ =>
      let! bool_condition := Execute' condition_ in
      if IsTrue bool_condition then Execute' if_body_
      else
        match else_body_ with
        | Some else_body => Execute' else_body
        | None => ret HNone
        end
  | MethodBody body_ => catch_return (Execute' body_)
  | MethodCall object_ method_name_ args_ =>
      let! obj := Execute' object_ in
      let! actual_args := execute_args args_ in
      match TryAs_ClassInstance obj with
      | Some l => in_world (Call_ Execute' l method_name_ actual_args)
      | None => throw (fault "null ClassInstance")
      end
  | NewInstance class_inst_ args_ =>
      let! actual_args := execute_args args_ in
      let! inst := in_world (instance_at class_inst_) in
      do! (if HasMethod inst "__init__" (length args_)
           then do! in_world (Call_ Execute' class_inst_ "__init__" actual_args) in ret tt
           else ret tt) in
      ret (HInstance class_inst_)
  | Print args_ =>
      let! obj := Print_loop true HNone args_ in
      do! in_world (write endl) in
      ret obj
  | Return statement_ =>
      let! v := Execute' statement_ in
      throw (ReturnException v)
  | Not argument_ =>
      match argument_ with
      | None => throw (runtime_error "null operands are not supported")
      | Some argument =>
          let! v := Execute' argument in
          ret (HBool (negb (IsTrue v)))
      end
  | Stringify argument_ =>
      let! obj := Execute' argument_ in
      if negb (holds obj) then ret (HString "None")
      else
        let! text := in_world (capture (Print' obj)) in
        ret (HString text)
  | Add lhs_ rhs_ =>
      let! ops := execute_operands lhs_ rhs_ in
      let obj_lhs := ops.1 in
      let obj_rhs := ops.2 in
      match TryAs_Number obj_lhs, TryAs_Number obj_rhs with
      | Some l_num, Some r_num => ret (HNumber (wrap_int (l_num + r_num)))
      | _, _ =>
        match TryAs_String obj_lhs, TryAs_String obj_rhs with
        | Some l_str, Some r_str => ret (HString (l_str ++ r_str))
        | _, _ =>
          match TryAs_ClassInstance obj_lhs with
          | Some l =>
              let! inst := in_world (instance_at l) in
              if HasMethod inst "__add__" 1
              then in_world (Call_ Execute' l "__add__" [obj_rhs])
              else throw (runtime_error "incorrect add operands")
          | None => throw (runtime_error "incorrect add operands")
          end
        end
      end
  | Sub lhs_ rhs_ => arith Z.sub "incorrect sub operands" lhs_ rhs_
  | Mult lhs_ rhs_ => arith Z.mul "incorrect mult operands" lhs_ rhs_
  | Div lhs_ rhs_ =>
      let! ops := execute_operands lhs_ rhs_ in
      match TryAs_Number ops.1, TryAs_Number ops.2 with
      | Some l_num, Some r_num =>
          if r_num =? 0 then throw (runtime_error "division by zero")
          else if (l_num =? INT_MIN) && (r_num =? -1) then
            (* the quotient is no [int]: the division traps *)
            throw (fault "integer division overflow")
          else ret (HNumber (wrap_int (Z.quot l_num r_num)))
      | _, _ => throw (runtime_error "incorrect div operands")
      end
  | And lhs_ rhs_ =>
      let! ops := execute_operands lhs_ rhs_ in
      if IsTrue ops.1 && IsTrue ops.2 then ret (HBool true) else ret (HBool false)
  | Or lhs_ rhs_ =>
      let! ops := execute_operands lhs_ rhs_ in
      if IsTrue ops.1 then ret (HBool true)
      else if IsTrue ops.2 then ret (HBool true)
      else ret (HBool false)
  | Comparison cmp_ lhs_ rhs_ =>
      let! ops := execute_operands lhs_ rhs_ in
      let! res := in_world (apply_comparator Execute' cmp_ ops.1 ops.2) in
      ret (HBool res)
  end.
End Nodes.

(** The recursion between [Execute] and [Print], cut off after [fuel] nested
    virtual calls. *)
Fixpoint Execute (fuel : nat) (stmt : Statement) : M Env ObjectHolder :=
  match fuel with
  | O => out_of_fuel
  | S n => Execute_ (Execute n) (Object_Print n) stmt
  end
with Object_Print (fuel : nat) (obj : ObjectHolder) : M World unit :=
  match fuel with
  | O => out_of_fuel
  | S n => Print_ (Execute n) (Object_Print n) obj
  end.

(** [ClassInstance::Call] and the comparison primitives of [runtime.cpp], the
    method bodies they reach running with [fuel]. *)
Definition ClassInstance_Call (fuel : nat) := Call_ (Execute fuel).
Definition Equal (fuel : nat) := Equal_ (Execute fuel).
Definition Less (fuel : nat) := Less_ (Execute fuel).
Definition NotEqual (fuel : nat) := NotEqual_ (Execute fuel).
Definition Greater (fuel : nat) := Greater_ (Execute fuel).
Definition LessOrEqual (fuel : nat) := LessOrEqual_ (Execute fuel).
Definition GreaterOrEqual (fuel : nat) := GreaterOrEqual_ (Execute fuel).

(** [ClassInstance::Print]. *)
Definition ClassInstance_Print (fuel : nat) (this : loc) : M World unit :=
  Print_ (Execute fuel) (Object_Print fuel) (HInstance this).

(** The constructor [NewInstance::NewInstance]: the member [class_inst_] is
    constructed from [class_], with no fields, at an address of its own. *)
Definition NewInstance_new (class_ : Class) (args : list Statement) (w : World)
    : Statement * World :=
  let l := fresh ({[O]} ∪ dom (objects w)) in
  (NewInstance l args,
   mkWorld (<[l := mkInstance class_ ∅]> (objects w)) (output w) (holders w)).

(** The constructor [ClassDefinition::ClassDefinition]: the member [cls_] is
    constructed from [cls], at an address of its own. *)
Definition ClassDefinition_new (cls : ObjectHolder) (w : World) : Statement * World :=
  let l := fresh ({[O]} ∪ dom (holders w)) in
  (ClassDefinition l, mkWorld (objects w) (output w) (<[l := cls]> (holders w))).

(** * lexer.h, lexer.cpp *)

Module parse.

(** ** Tokens *)

Module token_type.
(** The alternatives of [parse::TokenBase], in the order of the variant. *)
Inductive Token : Type :=
  | Number (value : Z)
  | Id (value : string)
  | Char (value : ascii)
  | String (value : string)
  | Class | Return | If | Else | Def | Newline | Print | Indent | Dedent
  | And | Or | Not | Eq | NotEq | LessOrEq | GreaterOrEq | None | True | False | Eof.
End token_type.

Abbreviation Token := token_type.Token.

(** [std::variant::index]. *)
Definition index (t : Token) : nat :=
  match t with
  | token_type.Number _ => 0 | token_type.Id _ => 1 | token_type.Char _ => 2
  | token_type.String _ => 3 | token_type.Class => 4 | token_type.Return => 5
  | token_type.If => 6 | token_type.Else => 7 | token_type.Def => 8
  | token_type.Newline => 9 | token_type.Print => 10 | token_type.Indent => 11
  | token_type.Dedent => 12 | token_type.And => 13 | token_type.Or => 14
  | token_type.Not => 15 | token_type.Eq => 16 | token_type.NotEq => 17
  | token_type.LessOrEq => 18 | token_type.GreaterOrEq => 19 | token_type.None => 20
  | token_type.True => 21 | token_type.False => 22 | token_type.Eof => 23
  end%nat.

(** [operator==(const Token&, const Token&)]. *)
Definition Token_eq (lhs rhs : Token) : bool :=
  if negb (index lhs =? index rhs)%nat then false
  else
    match lhs, rhs with
    | token_type.Char a, token_type.Char b => Ascii.eqb a b
    | token_type.Number a, token_type.Number b => (a =? b)%Z
    | token_type.String a, token_type.String b => String.eqb a b
    | token_type.Id a, token_type.Id b => String.eqb a b
    | _, _ => true
    end.

(** [operator!=(const Token&, const Token&)]. *)
Definition Token_ne (lhs rhs : Token) : bool := negb (Token_eq lhs rhs).

(** The table [InitKeywordsDict] fills, read by [Lexer::ParseKeyword]. *)
Definition ParseKeyword (str : string) : option Token :=
  if String.eqb str "class" then Some token_type.Class
  else if String.eqb str "return" then Some token_type.Return
  else if String.eqb str "if" then Some token_type.If
  else if String.eqb str "else" then Some token_type.Else
  else if String.eqb str "def" then Some token_type.Def
  else if String.eqb str "print" then Some token_type.Print
  else if String.eqb str "or" then Some token_type.Or
  else if String.eqb str "None" then Some token_type.None
  else if String.eqb str "and" then Some token_type.And
  else if String.eqb str "not" then Some token_type.Not
  else if String.eqb str "True" then Some token_type.True
  else if String.eqb str "False" then Some token_type.False
  else None.

(** [container.emplace_back(t)]. *)
Definition emplace_back (container : list Token) (t : Token) : list Token :=
  (container ++ [t])%list.

(** ** Characters *)

Definition LF : ascii := "010"%char.
Definition CR : ascii := "013"%char.
Definition TAB : ascii := "009"%char.
Definition space : ascii := " "%char.
Definition hash : ascii := "#"%char.
Definition apostrophe : ascii := "039"%char.
Definition double_quote : ascii := "034"%char.
Definition backslash : ascii := "\"%char.

Definition between (lo hi : nat) (c : ascii) : bool :=
  let n := nat_of_ascii c in (lo <=? n)%nat && (n <=? hi)%nat.

(** [std::isdigit], [std::isalpha], [std::isalnum] and [std::ispunct] in the
    "C" locale; a byte above 127, and the byte [EOF] becomes when it is stored
    in a [char], belong to no class. *)
Definition isdigit (c : ascii) : bool := between 48 57 c.
Definition isalpha (c : ascii) : bool := between 65 90 c || between 97 122 c.
Definition isalnum (c : ascii) : bool := isalpha c || isdigit c.
Definition ispunct (c : ascii) : bool :=
  between 33 47 c || between 58 64 c || between 91 96 c || between 123 126 c.

(** ** The input stream *)

(** A [std::istream]: the characters its buffer still holds, and the state
    bits the lexer can set ([badbit] is never set by what it calls). *)
Record istream : Type := mkStream { rdbuf : list ascii; eofbit : bool; failbit : bool }.

Definition good (s : istream) : bool := negb (eofbit s) && negb (failbit s).

(** [operator bool] of a stream: [!fail()]. *)
Definition ok (s : istream) : bool := negb (failbit s).

(** [rdstate() == std::ios_base::eofbit]. *)
Definition rdstate_is_eofbit (s : istream) : bool := eofbit s && negb (failbit s).

Definition setstate_failbit (s : istream) : istream := mkStream (rdbuf s) (eofbit s) true.

(** [input.get(c)]: [c] keeps its value [c0] when nothing is extracted. *)
Definition get (c0 : ascii) (s : istream) : ascii * istream :=
  if good s then
    match rdbuf s with
    | c :: rest => (c, mkStream rest false false)
    | [] => (c0, mkStream [] true true)
    end
  else (c0, setstate_failbit s).

(** [input.get()], the character dropped. *)
Definition get_ (s : istream) : istream := (get LF s).2.

(** [input.peek()]: [None] is [Traits::eof()]. *)
Definition peek (s : istream) : option ascii * istream :=
  if good s then
    match rdbuf s with
    | c :: _ => (Some c, s)
    | [] => (None, mkStream [] true false)
    end
  else (None, setstate_failbit s).

(** The [int] that [peek] returns, stored in a [char]. *)
Definition to_char (i : option ascii) : ascii := default "255"%char i.

(** [input.putback(c)]: [eofbit] is cleared first; with [failbit] set the
    sentry fails and nothing is put back, otherwise [c] is the next character
    again. *)
Definition putback (c : ascii) (s : istream) : istream :=
  if failbit s then mkStream (rdbuf s) false true
  else mkStream (c :: rdbuf s) false false.

(** What follows the first [LF] of the buffer, when there is one. *)
Fixpoint after_newline (buf : list ascii) : option (list ascii) :=
  match buf with
  | [] => None
  | c :: rest => if Ascii.eqb c LF then Some rest else after_newline rest
  end.

(** [getline(input, comment, '\n')], the line dropped: the delimiter is
    extracted with the line; at the end of the input [eofbit] is set, and
    [failbit] too when nothing at all was extracted. *)
Definition getline (s : istream) : istream :=
  if good s then
    match after_newline (rdbuf s) with
    | Some rest => mkStream rest false false
    | None => mkStream [] true (match rdbuf s with [] => true | _ => false end)
    end
  else setstate_failbit s.

(** [while (input.get(c)) { if (p(c)) text.push_back(c); else { input.putback(c); break; } }]
    on a good stream holding [buf]. *)
Fixpoint read_while (p : ascii -> bool) (buf : list ascii) : string * istream :=
  match buf with
  | [] => ("", mkStream [] true true)
  | c :: rest =>
      if p c then let '(text, s) := read_while p rest in (String c text, s)
      else ("", mkStream (c :: rest) false false)
  end.

Definition get_while (p : ascii -> bool) (s : istream) : string * istream :=
  if good s then read_while p (rdbuf s) else ("", setstate_failbit s).

(** ** Exceptions *)

Inductive exception : Type :=
  | logic_error (what : string)
  | invalid_argument (what : string)
  | out_of_range (what : string).

(** ** The sub-parsers of [Lexer::ParseTokens] *)

Definition digit_value (c : ascii) : Z := Z.of_nat (nat_of_ascii c) - 48.

(** The decimal value of a run of digits. *)
Fixpoint decimal (acc : Z) (digits : string) : Z :=
  match digits with
  | EmptyString => acc
  | String d rest => decimal (10 * acc + digit_value d) rest
  end.

(** [std::stoi] on a run of digits: the value, when an [int] can hold it. *)
Definition stoi (digits : string) : exception + Z :=
  match digits with
  | EmptyString => inl (invalid_argument "stoi")
  | _ =>
      let value := decimal 0 digits in
      if (value <=? 2147483647)%Z then inr value else inl (out_of_range "stoi")
  end.

(** [Lexer::ParseNumbers]. *)
Definition ParseNumbers (input : istream) (container : list Token)
    : exception + (istream * list Token) :=
  let '(next, input) := peek input in
  let current_char := to_char next in
  if isdigit current_char then
    let '(parsed_num, input) := get_while isdigit input in
    match stoi parsed_num with
    | inr num => inr (input, emplace_back container (token_type.Number num))
    | inl e => inl e
    end
  else inr (input, container).

(** [Lexer::ParseId]. *)
Definition ParseId (input : istream) (container : list Token) : istream * list Token :=
  let '(next, input) := peek input in
  let current_char := to_char next in
  if isalpha current_char || Ascii.eqb current_char "_" then
    let '(parsed_id, input) := get_while (fun c => isalnum c || Ascii.eqb c "_") input in
    match ParseKeyword parsed_id with
    | Some keyword => (input, emplace_back container keyword)
    | None => (input, emplace_back container (token_type.Id parsed_id))
    end
  else (input, container).

(** [Lexer::SkipComment]; [indet] is what the uninitialised [current_char]
    holds should [get] extract nothing. *)
Definition SkipComment (indet : ascii) (input : istream) : istream :=
  let '(current_char, input) := get indet input in
  if Ascii.eqb current_char hash then
    let input := getline input in
    if negb (rdstate_is_eofbit input) then putback LF input else input
  else putback current_char input.

(** [Lexer::ParseChars]. *)
Definition ParseChars (indet : ascii) (input : istream) (container : list Token)
    : istream * list Token :=
  let '(next, input) := peek input in
  let current_char := to_char next in
  if ispunct current_char then
    if Ascii.eqb current_char hash then (SkipComment indet input, container)
    else
      let '(current_char, input) := get current_char input in
      (input, emplace_back container (token_type.Char current_char))
  else (input, container).

(** The escape sequences of a string literal. *)
Definition escaped (escaped_char : ascii) : option ascii :=
  if Ascii.eqb escaped_char "n" then Some LF
  else if Ascii.eqb escaped_char "t" then Some TAB
  else if Ascii.eqb escaped_char "r" then Some CR
  else if Ascii.eqb escaped_char double_quote then Some double_quote
  else if Ascii.eqb escaped_char apostrophe then Some apostrophe
  else if Ascii.eqb escaped_char backslash then Some backslash
  else None.

(** The [while (it != end)] loop of [ParseStrings] over the stream buffer:
    the literal read so far and what the buffer holds afterwards. *)
Fixpoint read_string (quote_type : ascii) (buf : list ascii) (str : string)
    : exception + (string * list ascii) :=
  match buf with
  | [] => inr (str, [])
  | current_char :: rest =>
      if Ascii.eqb current_char quote_type then inr (str, rest)
      else if Ascii.eqb current_char backslash then
        match rest with
        | [] => inl (logic_error "String parsing error")
        | escaped_char :: rest' =>
            match escaped escaped_char with
            | Some c => read_string quote_type rest' (str ++ String c "")
            | None =>
                inl (logic_error ("Unrecognized escape sequence \" ++ String escaped_char ""))
            end
        end
      else if Ascii.eqb current_char LF || Ascii.eqb current_char CR then
        inl (logic_error "Unexpected end of line")
      else read_string quote_type rest (str ++ String current_char "")
  end.

(** [Lexer::ParseStrings]; the [istreambuf_iterator] works on the buffer and
    leaves the state bits alone. *)
Definition ParseStrings (indet : ascii) (input : istream) (container : list Token)
    : exception + (istream * list Token) :=
  let '(quote_type, input) := get indet input in
  if Ascii.eqb quote_type apostrophe || Ascii.eqb quote_type double_quote then
    match read_string quote_type (rdbuf input) "" with
    | inl e => inl e
    | inr (str, rest) =>
        inr (mkStream rest (eofbit input) (failbit input),
             emplace_back container (token_type.String str))
    end
  else inr (putback quote_type input, container).

(** [Lexer::ParseDoubleChars]. *)
Definition ParseDoubleChars (indet : ascii) (input : istream) (container : list Token)
    : istream * list Token :=
  let '(current_char, input) := get indet input in
  let '(next, input) := peek input in
  let next_char := to_char next in
  if Ascii.eqb current_char "=" && Ascii.eqb next_char "=" then
    (get_ input, emplace_back container (token_type.Eq))
  else if Ascii.eqb current_char "!" && Ascii.eqb next_char "=" then
    (get_ input, emplace_back container (token_type.NotEq))
  else if Ascii.eqb current_char ">" && Ascii.eqb next_char "=" then
    (get_ input, emplace_back container (token_type.GreaterOrEq))
  else if Ascii.eqb current_char "<" && Ascii.eqb next_char "=" then
    (get_ input, emplace_back container (token_type.LessOrEq))
  else (putback current_char input, container).

(** [while (input.get(current_char) && current_char == ' ') ++spaces_counts]
    on a good stream holding [buf]; [spaces_counts] is an [int], and is what
    is computed here for any line of fewer than 2^31 spaces. *)
Fixpoint count_spaces (buf : list ascii) (spaces_counts : Z) (current_char : ascii)
    : Z * ascii * istream :=
  match buf with
  | [] => (spaces_counts, current_char, mkStream [] true true)
  | c :: rest =>
      if Ascii.eqb c space then count_spaces rest (spaces_counts + 1) c
      else (spaces_counts, c, mkStream rest false false)
  end.

Definition INDENT_SPACES_COUNT : Z := 2.

(** What the lexer keeps between sub-parsers: the stream, [tokens_] and
    [begin_spaces_count_]. *)
Record Lexer : Type :=
  mkLexer { input : istream; tokens_ : list Token; begin_spaces_count_ : Z }.

(** [Lexer::ParseIndent]. *)
Definition ParseIndent (indet : ascii) (lx : Lexer) : Lexer :=
  let '(spaces_counts, current_char, input) :=
    if good (input lx) then count_spaces (rdbuf (input lx)) 0 indet
    else (0, indet, setstate_failbit (input lx)) in
  let input := if negb (rdstate_is_eofbit input) then putback current_char input else input in
  let '(next, input) := peek input in
  let next_char := to_char next in
  if Ascii.eqb next_char LF || Ascii.eqb next_char hash then
    mkLexer input (tokens_ lx) (begin_spaces_count_ lx)
  else
    let indents_count := Z.quot (spaces_counts - begin_spaces_count_ lx) INDENT_SPACES_COUNT in
    let indent_type :=
      if 0 <? indents_count then token_type.Indent
      else if indents_count <? 0 then token_type.Dedent
      else token_type.Number 0 in
    mkLexer input
            (tokens_ lx ++ replicate (Z.to_nat (Z.abs indents_count)) indent_type)%list
            spaces_counts.

(** [container.back() != t], for a container known not to be empty. *)
Definition back_ne (container : list Token) (t : Token) : bool :=
  match last container with
  | Some b => Token_ne b t
  | None => false
  end.

Definition empty (container : list Token) : bool :=
  match container with [] => true | _ => false end.

(** [Lexer::ParseNewLine]. *)
Definition ParseNewLine (indet : ascii) (lx : Lexer) : Lexer :=
  let '(current_char, input) := get indet (input lx) in
  if Ascii.eqb current_char LF then
    let container :=
      if negb (empty (tokens_ lx)) && back_ne (tokens_ lx) token_type.Newline
      then emplace_back (tokens_ lx) token_type.Newline
      else tokens_ lx in
    ParseIndent indet (mkLexer input container (begin_spaces_count_ lx))
  else mkLexer (putback current_char input) (tokens_ lx) (begin_spaces_count_ lx).

(** [while (input.peek() == ' ') input.get();] on a good stream holding [buf]. *)
Fixpoint skip_spaces (buf : list ascii) : istream :=
  match buf with
  | [] => mkStream [] true false
  | c :: rest => if Ascii.eqb c space then skip_spaces rest else mkStream (c :: rest) false false
  end.

(** [Lexer::SkipSpaces]. *)
Definition SkipSpaces (input : istream) : istream :=
  if good input then skip_spaces (rdbuf input) else setstate_failbit input.

(** The body of the loop of [ParseTokens], after the character that [get]
    extracted has been put back. *)
Definition ParseTokens_body (indet : ascii) (lx : Lexer) : exception + Lexer :=
  let lx := ParseNewLine indet lx in
  match ParseStrings indet (input lx) (tokens_ lx) with
  | inl e => inl e
  | inr (input, container) =>
      let '(input, container) := ParseId input container in
      let '(input, container) := ParseDoubleChars indet input container in
      let '(input, container) := ParseChars indet input container in
      match ParseNumbers input container with
      | inl e => inl e
      | inr (input, container) =>
          inr (mkLexer (SkipSpaces input) container (begin_spaces_count_ lx))
      end
  end.

(** [while (input.get(current_char)) { input.putback(current_char); ... }],
    at most [fuel] times round. *)
Fixpoint ParseTokens_loop (fuel : nat) (indet : ascii) (lx : Lexer)
    : option (exception + Lexer) :=
  match fuel with
  | O => None
  | S fuel' =>
      let '(current_char, input) := get indet (input lx) in
      if ok input then
        let lx :=
          mkLexer (putback current_char input) (tokens_ lx) (begin_spaces_count_ lx) in
        match ParseTokens_body indet lx with
        | inl e => Some (inl e)
        | inr lx => ParseTokens_loop fuel' indet lx
        end
      else Some (inr (mkLexer input (tokens_ lx) (begin_spaces_count_ lx)))
  end.

(** The end of [ParseTokens]: the closing [Newline] and [Eof]. *)
Definition close_tokens (tokens : list Token) : list Token :=
  let tokens :=
    if negb (empty tokens) && back_ne tokens token_type.Newline
       && back_ne tokens token_type.Dedent
    then emplace_back tokens token_type.Newline
    else tokens in
  emplace_back tokens token_type.Eof.

(** [Lexer::ParseTokens] on a fresh lexer: the tokens left in [tokens_]. *)
Definition ParseTokens (fuel : nat) (indet : ascii) (text : list ascii)
    : option (exception + list Token) :=
  match ParseTokens_loop fuel indet (mkLexer (mkStream text false false) [] 0) with
  | None => None
  | Some (inl e) => Some (inl e)
  | Some (inr lx) => Some (inr (close_tokens (tokens_ lx)))
  end.

End parse.

(** ** Vocabulary for the lexer's properties *)

Module lexer_spec.
Import parse.

(** A token other than [Indent] and [Dedent]. *)
Definition plain (t : Token) : Prop := t <> token_type.Indent /\ t <> token_type.Dedent.

Definition is_indent (t : Token) : bool :=
  match t with token_type.Indent => true | _ => false end.
Definition is_dedent (t : Token) : bool :=
  match t with token_type.Dedent => true | _ => false end.

(** The number of [Indent]s, and of [Dedent]s, in a run of tokens. *)
Fixpoint indents (tokens : list Token) : nat :=
  match tokens with
  | [] => O
  | t :: rest => ((if is_indent t then 1 else 0) + indents rest)%nat
  end.
Fixpoint dedents (tokens : list Token) : nat :=
  match tokens with
  | [] => O
  | t :: rest => ((if is_dedent t then 1 else 0) + dedents rest)%nat
  end.

(** In no prefix of [tokens] do the [Dedent]s outnumber the [Indent]s. *)
Definition balanced (tokens : list Token) : Prop :=
  forall before : list Token, before `prefix_of` tokens -> (dedents before <= indents before)%nat.

(** The spaces a line starts with, and what follows them. *)
Fixpoint leading_spaces (line : list ascii) : nat :=
  match line with
  | c :: rest => if Ascii.eqb c space then S (leading_spaces rest) else O
  | [] => O
  end.
Fixpoint after_spaces (line : list ascii) : list ascii :=
  match line with
  | c :: rest => if Ascii.eqb c space then after_spaces rest else line
  | [] => []
  end.

(** A blank line or a comment line: after its leading spaces comes a
    newline or a [#]. *)
Definition blank_or_comment (line : list ascii) : bool :=
  match after_spaces line with
  | c :: _ => Ascii.eqb c LF || Ascii.eqb c hash
  | [] => false
  end.

(** Every line of [text] after the first that is neither blank nor a comment
    starts with an even number of spaces, the last line included when the
    text ends in spaces. *)
Fixpoint even_indentation (text : list ascii) : bool :=
  match text with
  | [] => true
  | c :: rest =>
      (if Ascii.eqb c LF
       then blank_or_comment rest || Nat.even (leading_spaces rest)
       else true)
      && even_indentation rest
  end.

(** The characters some sub-parser of the lexer takes when it meets them
    outside a string literal or a comment: newline, space, letters, digits
    and punctuation. *)
Definition lexable (c : ascii) : bool :=
  Ascii.eqb c LF || Ascii.eqb c space || isalnum c || ispunct c.

(** A step from stream [s] and tokens [toks] to [s'] and [toks'] that only
    consumes input and only appends plain tokens. *)
Definition advances (s : istream) (toks : list Token) (s' : istream) (toks' : list Token)
    : Prop :=
  rdbuf s' `suffix_of` rdbuf s /\
  exists extra, toks' = (toks ++ extra)%list /\ Forall plain extra.

(** What the loop of the lexer maintains on well-indented input: no prefix
    of the tokens closes more levels than it opened, the tracked level is
    twice the number of levels open, and what remains of the input is
    indented by even amounts. *)
Definition level_invariant (lx : Lexer) : Prop :=
  balanced (tokens_ lx) /\
  begin_spaces_count_ lx
  = (2 * (Z.of_nat (indents (tokens_ lx)) - Z.of_nat (dedents (tokens_ lx))))%Z /\
  even_indentation (rdbuf (input lx)) = true.
End lexer_spec.

(** ** The walk of a dotted path, after the specification *)

(** The walk of a dotted path as the specification words it: look the first
    name up in the scope; while the value found is a [ClassInstance] and names
    remain, look the next name up in that instance's fields; a name that is not
    found raises [RuntimeError]; a value that is not an instance ends the walk
    and is the result, whatever remains of the path. *)
Fixpoint walk_spec (objs : gmap loc ClassInstance) (scope : Closure)
    (first : string) (remaining : list string) : Outcome ObjectHolder :=
  match scope !! first with
  | None => Throws (runtime_error "var is not found")
  | Some value =>
      match value, remaining with
      | HInstance l, next :: remaining' =>
          match objs !! l with
          | Some inst => walk_spec objs (fields_ inst) next remaining'
          | None => Throws (fault "dangling ClassInstance")
          end
      | _, _ => Returns value
      end
  end.

(** ** The cursor over the tokens *)

Module cursor.
Import parse.

(** The members [tokens_] and [tokens_iterator_] of a constructed [Lexer]:
    the iterator is its distance from [tokens_.begin()]. *)
Record Lexer : Type := mkLexer { tokens_ : list Token; tokens_iterator_ : nat }.

(** [Lexer::Lexer], once [ParseTokens] has returned [tokens]: the iterator is
    [tokens_.begin()]. *)
Definition Lexer_new (tokens : list Token) : Lexer := mkLexer tokens O.

(** [Lexer::CurrentToken]: the token under the iterator; [None] is a
    dereference past the end. *)
Definition CurrentToken (lx : Lexer) : option Token := tokens_ lx !! tokens_iterator_ lx.

(** [Lexer::NextToken]. *)
Definition NextToken (lx : Lexer) : option Token * Lexer :=
  if Nat.eqb (S (tokens_iterator_ lx)) (length (tokens_ lx)) then (Some token_type.Eof, lx)
  else
    let lx' := mkLexer (tokens_ lx) (S (tokens_iterator_ lx)) in
    (CurrentToken lx', lx').

(** [n] calls of [NextToken]: the tokens they returned, and the lexer
    afterwards. *)
Fixpoint NextTokens (n : nat) (lx : Lexer) : list (option Token) * Lexer :=
  match n with
  | O => ([], lx)
  | S n' =>
      let '(t, lx1) := NextToken lx in
      let '(ts, lx2) := NextTokens n' lx1 in
      (t :: ts, lx2)
  end.
End cursor.

(** ** The shape of the tokens *)

Module token_spec.
Import parse.

(** [[A-Za-z_][A-Za-z0-9_]*]. *)
Definition identifier (s : string) : bool :=
  match s with
  | EmptyString => false
  | String c rest =>
      (isalpha c || Ascii.eqb c "_")
      && forallb (fun c => isalnum c || Ascii.eqb c "_") (list_ascii_of_string rest)
  end.

(** A run of decimal digits. *)
Definition digits (s : string) : bool :=
  forallb isdigit (list_ascii_of_string s).

(** No two [Newline]s follow each other. *)
Fixpoint no_adjacent_newlines (tokens : list Token) : Prop :=
  match tokens with
  | t1 :: ((t2 :: _) as rest) =>
      ~ (t1 = token_type.Newline /\ t2 = token_type.Newline) /\ no_adjacent_newlines rest
  | _ => True
  end.

(** What a token of the lexer's result can be: a number an [int] holds, an
    identifier that is no keyword, a punctuation character other than [#],
    or any of the tokens without a restriction on their payload. *)
Definition well_formed (t : Token) : Prop :=
  match t with
  | token_type.Number n => 0 <= n <= 2147483647
  | token_type.Id s => identifier s = true /\ ParseKeyword s = None
  | token_type.Char c => ispunct c = true /\ c <> hash
  | _ => True
  end.

(** A token that stands for a lexeme of the text: anything but [Newline],
    [Indent], [Dedent] and [Eof]. *)
Definition lexeme (t : Token) : Prop :=
  well_formed t /\
  t <> token_type.Newline /\ t <> token_type.Indent /\ t <> token_type.Dedent /\
  t <> token_type.Eof.

(** The step from [toks] to [toks'] appends lexemes only. *)
Definition emits (toks toks' : list Token) : Prop :=
  exists extra, toks' = (toks ++ extra)%list /\ Forall lexeme extra.

(** [Newline], [Indent] or [Dedent]. *)
Definition structural (t : Token) : Prop :=
  t = token_type.Newline \/ t = token_type.Indent \/ t = token_type.Dedent.

(** The tokens in [tokens_] while the loop runs: lexemes and structural
    tokens, no [Newline] first and no [Newline] next to another. *)
Definition raw_tokens (toks : list Token) : Prop :=
  Forall (fun t => lexeme t \/ structural t) toks /\
  no_adjacent_newlines toks /\
  head toks <> Some token_type.Newline.

(** The characters [ParseDoubleChars] may start an operator with. *)
Definition operator_start (c : ascii) : bool :=
  Ascii.eqb c "=" || Ascii.eqb c "!" || Ascii.eqb c ">" || Ascii.eqb c "<".
End token_spec.

(** ** Writing a string as a literal *)

Module string_literal.
Import parse.

(** The two quotes a literal may be put between. *)
Definition quote (c : ascii) : bool := Ascii.eqb c apostrophe || Ascii.eqb c double_quote.

(** The character after the backslash that stands for [c] in a literal
    quoted with [q], when [c] cannot stand for itself there. *)
Definition escape_code (q c : ascii) : option ascii :=
  if Ascii.eqb c LF then Some "n"%char
  else if Ascii.eqb c CR then Some "r"%char
  else if Ascii.eqb c backslash then Some backslash
  else if Ascii.eqb c q then Some q
  else None.

Definition escape_char (q c : ascii) : list ascii :=
  match escape_code q c with
  | Some e => [backslash; e]
  | None => [c]
  end.

(** The text between the quotes of a literal for [content]. *)
Fixpoint escape (q : ascii) (content : string) : list ascii :=
  match content with
  | EmptyString => []
  | String c rest => (escape_char q c ++ escape q rest)%list
  end.
End string_literal.

(** ** A line as it is written *)

Module line_spec.
Import parse token_spec string_literal.

(** What stands between the spaces of a line: a word (a name or a keyword),
    a run of digits, a punctuation character, one of the operators [==],
    [!=], [>=] and [<=] given by its first character, or a string between
    quotes. *)
Inductive lexeme_text : Type :=
  | word (s : string)
  | number (ds : string)
  | punctuation (c : ascii)
  | operator (c : ascii)
  | quoted (q : ascii) (content : string).

Definition operator_token (c : ascii) : Token :=
  if Ascii.eqb c "=" then token_type.Eq
  else if Ascii.eqb c "!" then token_type.NotEq
  else if Ascii.eqb c ">" then token_type.GreaterOrEq
  else token_type.LessOrEq.

(** The token a lexeme stands for. *)
Definition token_of (x : lexeme_text) : Token :=
  match x with
  | word s => default (token_type.Id s) (ParseKeyword s)
  | number ds => token_type.Number (decimal 0 ds)
  | punctuation c => token_type.Char c
  | operator c => operator_token c
  | quoted q content => token_type.String content
  end.

(** Its characters. *)
Definition source_of (x : lexeme_text) : list ascii :=
  match x with
  | word s => list_ascii_of_string s
  | number ds => list_ascii_of_string ds
  | punctuation c => [c]
  | operator c => [c; "="%char]
  | quoted q content => (q :: escape q content ++ [q])%list
  end.

(** The lexemes that can be written: a word is an identifier, a number has
    digits and a value an [int] holds, a punctuation character is none of
    [#], the quotes and [_], which start a comment, a string and a word. *)
Definition writable (x : lexeme_text) : bool :=
  match x with
  | word s => identifier s
  | number ds => negb (String.eqb ds "") && digits ds && (decimal 0 ds <=? 2147483647)
  | punctuation c =>
      ispunct c && negb (Ascii.eqb c hash) && negb (quote c) && negb (Ascii.eqb c "_")
  | operator c => operator_start c
  | quoted q content => quote q
  end.

(** The line: its lexemes, one space between each two. *)
Fixpoint render (line : list lexeme_text) : list ascii :=
  match line with
  | [] => []
  | [x] => source_of x
  | x :: rest => (source_of x ++ space :: render rest)%list
  end.

(** A line that is not empty and has writable lexemes only. *)
Definition written (line : list lexeme_text) : bool :=
  match line with
  | [] => false
  | _ => forallb writable line
  end.

(** The lines after the first, each with the number of levels it is indented
    by: a newline, two spaces a level, and the line. *)
Fixpoint render_lines (lines : list (nat * list lexeme_text)) : list ascii :=
  match lines with
  | [] => []
  | (level, line) :: rest =>
      (LF :: replicate (2 * level) space ++ render line ++ render_lines rest)%list
  end.

(** The tokens of a step from one level to another. *)
Definition step_tokens (from to : nat) : list Token :=
  if (from <? to)%nat then replicate (to - from) token_type.Indent
  else replicate (from - to) token_type.Dedent.

(** The tokens of the lines after the first: the [Newline] that ends the line
    before, the step to the level of the line, and its lexemes. *)
Fixpoint tokens_of_lines (level : nat) (lines : list (nat * list lexeme_text)) : list Token :=
  match lines with
  | [] => []
  | (to, line) :: rest =>
      (token_type.Newline :: step_tokens level to ++ map token_of line
         ++ tokens_of_lines to rest)%list
  end.

(** The level of the last of the lines, [level] when there is none. *)
Fixpoint final_level (level : nat) (lines : list (nat * list lexeme_text)) : nat :=
  match lines with
  | [] => level
  | (to, _) :: rest => final_level to rest
  end.

(** The number of lexemes of the lines. *)
Fixpoint lexemes (lines : list (nat * list lexeme_text)) : nat :=
  match lines with
  | [] => O
  | (_, line) :: rest => (length line + lexemes rest)%nat
  end.

(** Where a stream stands when what followed the lexeme it has read is
    [after]: at the end of the input, or in front of [after]. *)
Definition stands_at (after : list ascii) (s : istream) : Prop :=
  match after with
  | [] => rdbuf s = []
  | _ => s = mkStream after false false
  end.

(** What follows a lexeme: nothing, a space and the next lexeme, or the
    newline that ends the line. *)
Definition gap (after : list ascii) : Prop :=
  after = [] \/
  (exists (c : ascii) (r : list ascii), after = space :: c :: r /\ Ascii.eqb c space = false) \/
  (exists r : list ascii, after = LF :: r).

(** What may follow a line: nothing, or a newline. *)
Definition line_end (cont : list ascii) : Prop := cont = [] \/ exists r, cont = LF :: r.

(** What follows the gap: [SkipSpaces] takes the space, and leaves the
    newline. *)
Definition past_gap (after : list ascii) : list ascii :=
  match after with
  | c :: r => if Ascii.eqb c space then r else after
  | [] => []
  end.
End line_spec.

(** ** The lexical structure of a text *)

Module lexical.
Import parse token_spec string_literal.









(** A stream between two sub-parsers of the lexer: in good state, or with
    nothing left to read. *)
Definition steady (s : istream) : Prop :=
  rdbuf s = [] \/ (eofbit s = false /\ failbit s = false).


End lexical.

(** ** Vocabulary for the properties of the nodes *)

Module node_spec.

(** The world [w] with [before] written to the stream ahead of its output. *)
Definition shift (before : string) (w : World) : World :=
  mkWorld (objects w) (before ++ output w) (holders w).

Definition shift_env (before : string) (e : Env) : Env :=
  mkEnv (closure e) (shift before (world e)).

(** [m] cannot tell the state [s] from [f s], and leaves [f] of what it
    leaves on [s]. *)
Definition commutes {S A} (f : S -> S) (m : M S A) : Prop :=
  forall s : S,
    m (f s) = match m s with
              | Some (r, s') => Some (r, f s')
              | None => None
              end.

(** The instances of [w'] are those of [w], each of the class it had. *)
Definition same_classes (w w' : World) : Prop :=
  forall l : loc, cls_ <$> objects w' !! l = cls_ <$> objects w !! l.

(** Whenever [m] ends, the states before and after are related by [R]. *)
Definition preserves {S A} (R : S -> S -> Prop) (m : M S A) : Prop :=
  forall (s : S) (r : Outcome A) (s' : S), m s = Some (r, s') -> R s s'.

Definition same_classes_env (e e' : Env) : Prop := same_classes (world e) (world e').

(** The integer relation a [Comparator] stands for. *)
Definition compare_int (cmp : Comparator) (a b : Z) : bool :=
  match cmp with
  | CmpEqual => a =? b
  | CmpLess => a <? b
  | CmpNotEqual => negb (a =? b)
  | CmpGreater => b <? a
  | CmpLessOrEqual => a <=? b
  | CmpGreaterOrEqual => b <=? a
  end.

(** The range of [int]. *)
Definition is_int (z : Z) : Prop := -2147483648 <= z <= 2147483647.

(** The kind of value an operator returns. *)
Definition result_kind (stmt : Statement) (v : ObjectHolder) : Prop :=
  match stmt with
  | Comparison _ _ _ | Not _ | And _ _ | Or _ _ => exists b : bool, v = HBool b
  | Stringify _ => exists s : string, v = HString s
  | Sub _ _ | Mult _ _ | Div _ _ => exists n : Z, v = HNumber n /\ is_int n
  | _ => True
  end.

(** The nodes of the literals, and the text [print] writes for each. *)
Definition literal (stmt : Statement) : option (ObjectHolder * string) :=
  match stmt with
  | NumericConst v => Some (HNumber v, pretty v)
  | StringConst v => Some (HString v, v)
  | BoolConst v => Some (HBool v, if v then "True" else "False")
  | None_ => Some (HNone, "None")
  | _ => None
  end.

(** The printed form of a value that is neither nothing nor an instance: the
    digits of a [Number], the characters of a [String], [True] or [False]
    for a [Bool], and [Class] and its name for a [Class]. *)
Definition printed (obj : ObjectHolder) : option string :=
  match obj with
  | HNumber v => Some (pretty v)
  | HString v => Some v
  | HBool v => Some (if v then "True" else "False")
  | HClass c => Some ("Class " ++ GetName c)
  | HNone | HInstance _ => None
  end.

(** The texts, a space between each two. *)
Fixpoint join (texts : list string) : string :=
  match texts with
  | [] => ""
  | [text] => text
  | text :: rest => text ++ " " ++ join rest
  end.

End node_spec.

(** * Example programs *)

Module examples.
(** [class A] with the method [f], [class B(A)] and [class C(B)] with no
    method of their own. *)
Definition f : Method := mkMethod "f" [] (MethodBody (Return (NumericConst 1))).
Definition grandparent_class : Class := mkClass None "A" [f].
Definition parent_class : Class := mkClass (Some grandparent_class) "B" [].
Definition child_class : Class := mkClass (Some parent_class) "C" [].

(** A counter whose [bump] counts its calls and returns [True]. *)
Definition init : Method :=
  mkMethod "__init__" []
    (MethodBody (Compound [FieldAssignment ["self"] "value" (NumericConst 0)])).
Definition bump : Method :=
  mkMethod "bump" []
    (MethodBody (Compound
       [ FieldAssignment ["self"] "value"
           (Add (Some (VariableValue ["self"; "value"])) (Some (NumericConst 1)));
         Return (BoolConst true) ])).
Definition Counter : Class := mkClass None "Counter" [init; bump].

(** The node of [Counter()] and the world in which its instance exists. *)
Definition new_Counter : Statement * World := NewInstance_new Counter [] (mkWorld ∅ "" ∅).

(** The node of [class Counter], and the world in which its holder exists
    too. *)
Definition class_Counter : Statement * World :=
  ClassDefinition_new (HClass Counter) new_Counter.2.

(** The program
<<
    c = Counter()
    x = False and c.bump()
    y = True or c.bump()
    print c.value, x, y
>>  after the class definition, as the parser builds it. *)
Definition short_circuit_program : Statement :=
  Compound
    [ class_Counter.1;
      Assignment "c" new_Counter.1;
      Assignment "x"
        (And (Some (BoolConst false)) (Some (MethodCall (VariableValue ["c"]) "bump" [])));
      Assignment "y"
        (Or (Some (BoolConst true)) (Some (MethodCall (VariableValue ["c"]) "bump" [])));
      Print [VariableValue ["c"; "value"]; VariableValue ["x"]; VariableValue ["y"]] ].
Definition short_circuit_env : Env := mkEnv ∅ class_Counter.2.

(** [class Thing] without methods and a factory whose [make] is
    [return Thing()]: one [NewInstance] node, executed at every call. *)
Definition Thing : Class := mkClass None "Thing" [].
Definition new_Thing : Statement * World := NewInstance_new Thing [] (mkWorld ∅ "" ∅).
Definition Factory : Class :=
  mkClass None "Factory" [mkMethod "make" [] (MethodBody (Compound [Return new_Thing.1]))].
Definition new_Factory : Statement * World := NewInstance_new Factory [] new_Thing.2.
Definition class_Thing : Statement * World := ClassDefinition_new (HClass Thing) new_Factory.2.
Definition class_Factory : Statement * World :=
  ClassDefinition_new (HClass Factory) class_Thing.2.

(** The program
<<
    f = Factory()
    x = f.make()
    x.tag = 1
    y = f.make()
    print y.tag
>>  after the class definitions. *)
Definition factory_program : Statement :=
  Compound
    [ class_Thing.1; class_Factory.1;
      Assignment "f" new_Factory.1;
      Assignment "x" (MethodCall (VariableValue ["f"]) "make" []);
      FieldAssignment ["x"] "tag" (NumericConst 1);
      Assignment "y" (MethodCall (VariableValue ["f"]) "make" []);
      Print [VariableValue ["y"; "tag"]] ].
Definition factory_env : Env := mkEnv ∅ class_Factory.2.

(** A method that names its only formal parameter [self] and returns it. *)
Definition echo : Method :=
  mkMethod "echo" ["self"] (MethodBody (Return (VariableValue ["self"]))).
(** A method whose two formal parameters have one name. *)
Definition pair : Method :=
  mkMethod "pair" ["a"; "a"] (MethodBody (Return (VariableValue ["a"]))).
Definition Echo : Class := mkClass None "Echo" [echo; pair].
Definition echo_world : World := (NewInstance_new Echo [] (mkWorld ∅ "" ∅)).2.

(** A class whose [__str__] takes a parameter. *)
Definition str_of : Method := mkMethod "__str__" ["x"] (MethodBody (Return (StringConst "loud"))).
Definition Loud : Class := mkClass None "Loud" [str_of].
Definition loud_world : World := (NewInstance_new Loud [] (mkWorld ∅ "" ∅)).2.

(** The lines of a source text, a newline between them. *)
Fixpoint text_of_lines (lines : list string) : list ascii :=
  match lines with
  | [] => []
  | [line] => list_ascii_of_string line
  | line :: rest => (list_ascii_of_string line ++ parse.LF :: text_of_lines rest)%list
  end.

(** Three lines indented by zero, one and two spaces, then one by none. *)
Definition odd_indentation : list ascii := text_of_lines ["x"; " y"; "  z"; "w"].

(** An [if] with a body one level in. *)
Definition if_block : list ascii := text_of_lines ["if x:"; "  y = 1"; "z = 2"].

End examples.

(** ** More example programs *)

Module samples.
(** The tokens of [examples.if_block]. *)
Definition if_block_tokens : list parse.Token :=
  [ parse.token_type.If; parse.token_type.Id "x"; parse.token_type.Char ":";
    parse.token_type.Newline; parse.token_type.Indent;
    parse.token_type.Id "y"; parse.token_type.Char "=";
    parse.token_type.Number 1; parse.token_type.Newline;
    parse.token_type.Dedent; parse.token_type.Id "z";
    parse.token_type.Char "="; parse.token_type.Number 2;
    parse.token_type.Newline; parse.token_type.Eof ].

(** The line [if x >= 10 :], its body [print 'hi'] one level in, and the
    line [y = 2] after the block. *)
Definition guard : list line_spec.lexeme_text :=
  [ line_spec.word "if"; line_spec.word "x"; line_spec.operator ">";
    line_spec.number "10"; line_spec.punctuation ":" ].
Definition body : list (nat * list line_spec.lexeme_text) :=
  [ (1%nat, [line_spec.word "print"; line_spec.quoted parse.apostrophe "hi"]) ].
Definition guarded : list (nat * list line_spec.lexeme_text) :=
  (body ++ [ (0%nat, [line_spec.word "y"; line_spec.punctuation "="; line_spec.number "2"]) ])%list.

(** An empty closure over a world without instances. *)
Definition empty_env : Env := mkEnv ∅ (mkWorld ∅ "" ∅).

(** The environment after [x = 1]. *)
Definition x_is_1 : Env := mkEnv (<["x" := HNumber 1]> ∅) (mkWorld ∅ "" ∅).

(** [x = 1], the statement that starts the bodies below. *)
Definition assign_x : Statement := Assignment "x" (NumericConst 1).

(** [print 'unreachable']. *)
Definition unreachable : Statement := Print [StringConst "unreachable"].

(** [x / 0]. *)
Definition x_by_zero : Statement :=
  Div (Some (VariableValue ["x"])) (Some (NumericConst 0)).

(** Two variables that hold the instance of [examples.new_Thing]. *)
Definition two_names : Env :=
  mkEnv (<["x" := HInstance 1%nat]> (<["y" := HInstance 1%nat]> ∅)) examples.new_Thing.2.

(** The same after [y.tag = 7]. *)
Definition two_names_tagged : Env :=
  mkEnv (<["x" := HInstance 1%nat]> (<["y" := HInstance 1%nat]> ∅))
        (mkWorld (<[1%nat := mkInstance examples.Thing (<["tag" := HNumber 7]> ∅)]>
                    (objects examples.new_Thing.2)) "" ∅).

(** [Counter(5)]: one argument, where [__init__] takes none. *)
Definition Counter_of_5 : Statement := NewInstance 1%nat [NumericConst 5].

(** The arguments of [print 1, None, 'a', True]. *)
Definition four_literals : list Statement :=
  [NumericConst 1; None_; StringConst "a"; BoolConst true].




(** A class that is less than anything it is compared with, and has no
    [__eq__]. *)
Definition less_than : Method :=
  mkMethod "__lt__" ["other"] (MethodBody (Return (BoolConst true))).
Definition Small : Class := mkClass None "Small" [less_than].
Definition small_world : World := (NewInstance_new Small [] (mkWorld ∅ "" ∅)).2.

(** A class whose [__str__] says that it was asked, and gives a name. *)
Definition str : Method :=
  mkMethod "__str__" []
    (MethodBody (Compound [Print [StringConst "asked"]; Return (StringConst "a name")])).
Definition Named : Class := mkClass None "Named" [str].
Definition named_world : World := (NewInstance_new Named [] (mkWorld ∅ "said " ∅)).2.
End samples.

(** * Properties of the runtime and of the nodes *)

(** ** Appending strings *)

Lemma string_app_nil_r (s : string) : (s ++ "")%string = s.
Proof.
  induction s as [|a s IH]; [done|].
  change (String a (s ++ "")%string = String a s). by rewrite IH.
Qed.

Lemma string_app_assoc (a b c : string) : ((a ++ b) ++ c)%string = (a ++ (b ++ c))%string.
Proof.
  induction a as [|x a IH]; [done|].
  change (String x ((a ++ b) ++ c)%string = String x (a ++ (b ++ c))%string). by rewrite IH.
Qed.

Lemma string_app_snoc (x : string) (c : ascii) (s : string) :
  (x ++ String c s = (x ++ String c "") ++ s)%string.
Proof.
  induction x as [|a x IH]; [done|].
  change (String a (x ++ String c s)%string = String a ((x ++ String c "") ++ s)%string).
  by rewrite IH.
Qed.

(** ** Truthiness *)

(** C7: [IsTrue] of a [Bool] is its value, of a [Number] that it is not zero,
    of a [String] that it is not empty, and of anything else (the empty
    holder, a [Class], a [ClassInstance]) it is false. *)
Theorem IsTrue_by_kind :
  (forall b : bool, IsTrue (HBool b) = b) /\
  (forall n : Z, IsTrue (HNumber n) = true <-> n <> 0) /\
  (forall s : string, IsTrue (HString s) = true <-> s <> "") /\
  IsTrue HNone = false /\
  (forall c : Class, IsTrue (HClass c) = false) /\
  (forall l : loc, IsTrue (HInstance l) = false).
Proof.
  repeat split; try reflexivity; unfold IsTrue; simpl.
  - intros H ->. discriminate H.
  - intros H. destruct (Z.eqb_spec n 0); [contradiction | reflexivity].
  - intros H ->. discriminate H.
  - intros H. destruct (String.eqb_spec s ""); [contradiction | reflexivity].
Qed.

(** ** The method table of a class *)

Lemma store_methods_snoc (ms : list Method) (m : Method) (table : gmap string Method) :
  store_methods (ms ++ [m]) table = <[name m := m]> (store_methods ms table).
Proof. unfold store_methods. by rewrite foldl_app. Qed.

(** A name that no visited method has keeps its entry. *)
Lemma store_methods_other (ms : list Method) (table : gmap string Method) (n : string) :
  Forall (fun m => name m <> n) ms -> store_methods ms table !! n = table !! n.
Proof.
  induction ms as [|m ms IH] using rev_ind; [done|].
  rewrite Forall_app, Forall_singleton. intros [Hms Hm].
  rewrite store_methods_snoc, lookup_insert_ne by done. by apply IH.
Qed.

Lemma store_methods_app (ms1 ms2 : list Method) (table : gmap string Method) :
  store_methods (ms1 ++ ms2) table = store_methods ms2 (store_methods ms1 table).
Proof. apply foldl_app. Qed.

(** Of the visited methods called alike, the last one is the entry. *)
Lemma store_methods_last (before after : list Method) (m : Method)
    (table : gmap string Method) :
  Forall (fun m' => name m' <> name m) after ->
  store_methods (before ++ m :: after) table !! name m = Some m.
Proof.
  intros Hafter. rewrite store_methods_app.
  change (store_methods (m :: after) (store_methods before table))
    with (store_methods after (<[name m := m]> (store_methods before table))).
  rewrite store_methods_other by done. apply lookup_insert_eq.
Qed.

(** Every entry is filed under the name of its method. *)
Lemma store_methods_names (ms : list Method) (table : gmap string Method) :
  map_Forall (fun n m => name m = n) table ->
  map_Forall (fun n m => name m = n) (store_methods ms table).
Proof.
  induction ms as [|m ms IH] using rev_ind; [done|].
  intros Htable. rewrite store_methods_snoc.
  apply map_Forall_insert_2; [done | by apply IH].
Qed.

Lemma GetMethod_name (c : Class) (n : string) (m : Method) :
  GetMethod c n = Some m -> name m = n.
Proof.
  unfold GetMethod, name_to_method_. intros H.
  eapply (store_methods_names (methods_ c)); [|exact H].
  destruct (parent_ c); [|apply map_Forall_empty].
  apply store_methods_names, map_Forall_empty.
Qed.

(** C3, where the code departs from it: [B] inherits [f] from its parent [A]
    and resolves it, yet [C], derived from [B], does not: the constructor reads
    [parent->methods_], the parent's own methods, not the parent's table. *)
Theorem GetMethod_misses_grandparent :
  GetMethod examples.parent_class "f" = Some examples.f /\
  GetMethod examples.child_class "f" = None.
Proof. split; vm_compute; reflexivity. Qed.

(** ** Dotted paths *)

Lemma VariableValue_loop_walk (closure : Closure) (objs : gmap loc ClassInstance)
    (remaining : list string) :
  forall (closure_ptr : closure_ref) (scope : Closure) (cur : option ObjectHolder)
         (first : string),
    deref_closure closure objs closure_ptr = Some scope ->
    VariableValue_loop closure objs closure_ptr cur (first :: remaining)
    = walk_spec objs scope first remaining.
Proof.
  induction remaining as [|next remaining IH]; intros closure_ptr scope cur first Hptr.
  - simpl. rewrite Hptr. destruct (scope !! first) as [[]|]; reflexivity.
  - cbn [VariableValue_loop walk_spec]. rewrite Hptr.
    destruct (scope !! first) as [value|]; [|reflexivity].
    destruct value as [| | | | |l]; try reflexivity.
    cbn [TryAs_ClassInstance].
    destruct (objs !! l) as [inst|] eqn:Hl.
    + rewrite <- (IH (fields_of l) (fields_ inst) (Some (HInstance l)) next);
        [reflexivity | simpl; by rewrite Hl].
    + simpl. by rewrite Hl.
Qed.

(** C8: on a path [first.remaining...] the execution of a [VariableValue]
    node changes nothing and yields what the walk of the specification yields:
    the first name is looked up in the closure, each further name in the fields
    of the instance found before it, a name that is missing raises
    [runtime_error], and the first value that is not an instance is returned
    even when names remain. *)
Theorem VariableValue_Execute_walks_path (fuel : nat) (first : string)
    (remaining : list string) (e : Env) :
  Execute (S fuel) (VariableValue (first :: remaining)) e
  = Some (walk_spec (objects (world e)) (closure e) first remaining, e).
Proof.
  cbn [Execute Execute_]. unfold VariableValue_Execute. f_equal. f_equal.
  by apply VariableValue_loop_walk.
Qed.

(** ** Derived comparisons *)

(** C6: [NotEqual] is the negation of [Equal], and [GreaterOrEqual] that of
    [Less], whenever the one call they make returns.  [Greater] is
    [!Less && !Equal] and [LessOrEqual] is [Less || Equal]: [Less] is called
    first; when it returns true the result is settled and [Equal] is not
    called, so it cannot raise; when it returns false [Equal] is called on the
    world [Less] left, and decides.  What the one call or the other raises is
    raised by the comparison built on it. *)
Theorem derived_comparisons (fuel : nat) (a b : ObjectHolder) (w : World) :
  (forall (eq : bool) (w0 : World),
     Equal fuel a b w = Some (Returns eq, w0) ->
     NotEqual fuel a b w = Some (Returns (negb eq), w0)) /\
  (forall (lt : bool) (w1 : World),
     Less fuel a b w = Some (Returns lt, w1) ->
     GreaterOrEqual fuel a b w = Some (Returns (negb lt), w1) /\
     (lt = true ->
      Greater fuel a b w = Some (Returns false, w1) /\
      LessOrEqual fuel a b w = Some (Returns true, w1)) /\
     (lt = false ->
      (forall (eq : bool) (w2 : World),
         Equal fuel a b w1 = Some (Returns eq, w2) ->
         Greater fuel a b w = Some (Returns (negb eq), w2) /\
         LessOrEqual fuel a b w = Some (Returns eq, w2)) /\
      (forall (ex : Exn) (w2 : World),
         Equal fuel a b w1 = Some (Throws ex, w2) ->
         Greater fuel a b w = Some (Throws ex, w2) /\
         LessOrEqual fuel a b w = Some (Throws ex, w2)))) /\
  (forall (ex : Exn) (w0 : World),
     Equal fuel a b w = Some (Throws ex, w0) ->
     NotEqual fuel a b w = Some (Throws ex, w0)) /\
  (forall (ex : Exn) (w1 : World),
     Less fuel a b w = Some (Throws ex, w1) ->
     GreaterOrEqual fuel a b w = Some (Throws ex, w1) /\
     Greater fuel a b w = Some (Throws ex, w1) /\
     LessOrEqual fuel a b w = Some (Throws ex, w1)).
Proof.
  unfold Equal, Less, NotEqual, Greater, LessOrEqual, GreaterOrEqual.
  unfold NotEqual_, Greater_, LessOrEqual_, GreaterOrEqual_, bind.
  split_and!.
  - by intros eq w0 ->.
  - intros lt w1 ->. split_and!; [done| |].
    + by intros ->.
    + intros ->. cbn. split; [intros eq w2 ->|intros ex w2 ->]; done.
  - by intros ex w0 ->.
  - by intros ex w1 ->.
Qed.

(** ** Method calls *)

Lemma bind_params_cons (formal : string) (formals : list string) (actual : ObjectHolder)
    (actuals : list ObjectHolder) (c : Closure) :
  bind_params (formal :: formals) (actual :: actuals) c
  = bind_params formals actuals (<[formal := actual]> c).
Proof. reflexivity. Qed.

(** A name that is not a formal parameter keeps its binding. *)
Lemma bind_params_other (formals : list string) (x : string) :
  forall (actuals : list ObjectHolder) (c : Closure),
    x ∉ formals -> bind_params formals actuals c !! x = c !! x.
Proof.
  induction formals as [|formal formals IH]; intros actuals c Hx; [done|].
  destruct actuals as [|actual actuals]; [done|].
  apply not_elem_of_cons in Hx as [Hne Hx].
  rewrite bind_params_cons, IH, lookup_insert_ne by done. done.
Qed.

(** Distinct formal parameters are bound to the actual arguments by position. *)
Lemma bind_params_lookup (formals : list string) :
  forall (actuals : list ObjectHolder) (c : Closure) (i : nat) (formal : string)
         (actual : ObjectHolder),
    NoDup formals ->
    formals !! i = Some formal -> actuals !! i = Some actual ->
    bind_params formals actuals c !! formal = Some actual.
Proof.
  induction formals as [|f formals IH]; intros actuals c i formal actual Hnd Hf Ha; [done|].
  destruct actuals as [|a actuals]; [by destruct i|].
  apply NoDup_cons in Hnd as [Hf_fresh Hnd].
  rewrite bind_params_cons. destruct i as [|i]; simpl in Hf, Ha.
  - injection Hf as ->. injection Ha as ->.
    rewrite bind_params_other by done. apply lookup_insert_eq.
  - by eapply IH.
Qed.

Lemma bind_params_dom (formals : list string) :
  forall (actuals : list ObjectHolder) (c : Closure),
    length formals = length actuals ->
    dom (bind_params formals actuals c) = list_to_set formals ∪ dom c.
Proof.
  induction formals as [|f formals IH]; intros actuals c Hlen.
  - simpl. set_solver.
  - destruct actuals as [|a actuals]; [discriminate|].
    rewrite bind_params_cons, IH by (simpl in Hlen; lia).
    rewrite dom_insert_L. set_solver.
Qed.

Lemma HasMethod_spec (inst : ClassInstance) (method : string) (argument_count : nat) :
  HasMethod inst method argument_count = true <->
  exists m, GetMethod (cls_ inst) method = Some m /\
            length (formal_params m) = argument_count.
Proof.
  unfold HasMethod. destruct (GetMethod (cls_ inst) method) as [m|].
  - rewrite Nat.eqb_eq. split; [eauto|]. by intros (m' & [= <-] & ?).
  - split; [done|]. by intros (m' & ? & ?).
Qed.

(** C9, as the code has it: a call on a name that does not resolve, or that
    resolves to a method whose number of formal parameters is not the number
    of arguments, raises [runtime_error("Not implemented")] and changes
    nothing; any other call is the execution of the body in a closure of its
    own, made by binding [self] to the instance and then every formal
    parameter, in order, to its argument.  When the formal parameters are
    pairwise distinct and none of them is called [self], that closure binds
    [self] to the instance, every formal parameter to the argument at its
    position, and nothing else. *)
Theorem Call_arity_then_scope (fuel : nat) (this : loc) (method : string)
    (actual_args : list ObjectHolder) (w : World) (inst : ClassInstance) :
  objects w !! this = Some inst ->
  ((GetMethod (cls_ inst) method = None \/
    exists m, GetMethod (cls_ inst) method = Some m /\
              length (formal_params m) <> length actual_args) ->
   ClassInstance_Call fuel this method actual_args w
   = Some (Throws (runtime_error "Not implemented"), w)) /\
  (forall m : Method,
     GetMethod (cls_ inst) method = Some m ->
     length (formal_params m) = length actual_args ->
     ClassInstance_Call fuel this method actual_args w
     = with_closure (call_closure this m actual_args) (Execute fuel (body m)) w /\
     (NoDup ("self" :: formal_params m) ->
      call_closure this m actual_args !! "self" = Some (HInstance this) /\
      (forall (i : nat) (formal : string) (actual : ObjectHolder),
         formal_params m !! i = Some formal -> actual_args !! i = Some actual ->
         call_closure this m actual_args !! formal = Some actual) /\
      dom (call_closure this m actual_args) = {["self"]} ∪ list_to_set (formal_params m))).
Proof.
  intros Hthis. unfold ClassInstance_Call, Call_, bind, instance_at. rewrite Hthis.
  split.
  - intros Hbad.
    destruct (HasMethod inst method (length actual_args)) eqn:Hhas; [|reflexivity].
    apply HasMethod_spec in Hhas as (m & Hm & Hlen).
    destruct Hbad as [Hnone|(m' & Hm' & Hne)]; congruence.
  - intros m Hm Hlen.
    assert (HasMethod inst method (length actual_args) = true) as ->
      by (apply HasMethod_spec; eauto).
    simpl. rewrite Hm. split; [reflexivity|].
    intros [Hself Hnd]%NoDup_cons. unfold call_closure. repeat split.
    + rewrite bind_params_other by done. apply lookup_insert_eq.
    + intros i formal actual Hf Ha. by eapply bind_params_lookup.
    + rewrite bind_params_dom by done. rewrite dom_insert_L. set_solver.
Qed.

(** C10: when the class of an instance resolves [__str__], printing the
    instance calls it with no argument: a [__str__] that has formal
    parameters makes the print raise [runtime_error("Not implemented")]
    with nothing written, the address form being for classes without
    [__str__]; one that has none is run, its body in a closure that binds
    [self] to the instance and nothing else, and what the body returns is
    printed on the world the body left: the digits of a number, the
    characters of a string, [True] or [False], [Class] and the name of a
    class are appended to the stream, an instance is printed in its turn, and
    nothing at all is a fault.  What the body raises is raised by the
    print. *)
Theorem ClassInstance_Print_calls_str (fuel : nat) (this : loc) (w : World)
    (inst : ClassInstance) (m : Method) :
  objects w !! this = Some inst ->
  GetMethod (cls_ inst) "__str__" = Some m ->
  (formal_params m <> [] ->
   ClassInstance_Print fuel this w = Some (Throws (runtime_error "Not implemented"), w)) /\
  (formal_params m = [] ->
   (forall (res : ObjectHolder) (e1 : Env),
      Execute fuel (body m) (mkEnv (<["self" := HInstance this]> ∅) w)
      = Some (Returns res, e1) ->
      (forall text : string,
         node_spec.printed res = Some text ->
         ClassInstance_Print fuel this w
         = Some (Returns tt,
                 mkWorld (objects (world e1)) (output (world e1) ++ text)
                         (holders (world e1)))) /\
      (forall l : loc,
         res = HInstance l ->
         ClassInstance_Print fuel this w = Object_Print fuel (HInstance l) (world e1)) /\
      (res = HNone ->
       ClassInstance_Print fuel this w = Some (Throws (fault "AssertIsValid"), world e1))) /\
   (forall (ex : Exn) (e1 : Env),
      Execute fuel (body m) (mkEnv (<["self" := HInstance this]> ∅) w)
      = Some (Throws ex, e1) ->
      ClassInstance_Print fuel this w = Some (Throws ex, world e1)) /\
   (Execute fuel (body m) (mkEnv (<["self" := HInstance this]> ∅) w) = None ->
    ClassInstance_Print fuel this w = None)).
Proof.
  intros Hthis Hm.
  assert (ClassInstance_Print fuel this w
          = bind (Call_ (Execute fuel) this "__str__" []) (Object_Print fuel) w) as ->.
  { unfold ClassInstance_Print, Print_. unfold bind at 1. unfold instance_at at 1.
    rewrite Hthis, Hm, (GetMethod_name _ _ _ Hm). reflexivity. }
  unfold Call_, bind, instance_at. rewrite Hthis. unfold HasMethod. rewrite Hm.
  split.
  - intros Hparams. destruct (formal_params m); [done | reflexivity].
  - intros Hparams. unfold call_closure. rewrite Hparams.
    cbn [length Nat.eqb negb bind_params zip zip_with foldl with_closure].
    unfold with_closure. split_and!.
    + intros res e1 Hbody. destruct fuel as [|n]; [done|].
      rewrite Hbody. cbn [world]. split_and!.
      * intros text Htext.
        destruct res; try done; injection Htext as <-; try reflexivity.
        cbn. unfold bind, write, modify. cbn. by rewrite string_app_assoc.
      * by intros l ->.
      * by intros ->.
    + by intros ex e1 ->.
    + by intros ->.
Qed.

(** A method whose formal parameter is called [self]: the closure of the call
    binds [self] to the argument, and that is what the body sees; the
    instance is not reachable from it.  A method with two formal parameters
    of one name: the name is bound to the second argument. *)
Lemma Call_formal_named_self_hides_instance :
  objects examples.echo_world !! 1%nat = Some (mkInstance examples.Echo ∅) /\
  call_closure 1%nat examples.echo [HNumber 5] !! "self" = Some (HNumber 5) /\
  ClassInstance_Call 3 1%nat "echo" [HNumber 5] examples.echo_world
  = Some (Returns (HNumber 5), examples.echo_world) /\
  call_closure 1%nat examples.pair [HNumber 1; HNumber 2] !! "a" = Some (HNumber 2) /\
  ClassInstance_Call 3 1%nat "pair" [HNumber 1; HNumber 2] examples.echo_world
  = Some (Returns (HNumber 2), examples.echo_world).
Proof. repeat split; vm_compute; reflexivity. Qed.

(** ** Short circuit *)

(** [And::Execute] executes [lhs_], then [rhs_] whatever [lhs_] gave, and
    returns the [Bool] that both results are true. *)
Lemma And_Execute_both (fuel : nat) (lhs rhs : Statement) (e : Env) :
  Execute (S fuel) (And (Some lhs) (Some rhs)) e
  = bind (Execute fuel lhs) (fun l =>
      bind (Execute fuel rhs) (fun r => ret (HBool (IsTrue l && IsTrue r)))) e.
Proof.
  cbn [Execute Execute_ execute_operands]. unfold bind.
  destruct (Execute fuel lhs e) as [[[l|ex] e1]|]; try reflexivity.
  destruct (Execute fuel rhs e1) as [[[r|ex] e2]|]; try reflexivity.
  cbn. by destruct (IsTrue l && IsTrue r).
Qed.

(** [Or::Execute] executes [lhs_], then [rhs_] whatever [lhs_] gave, and
    returns the [Bool] that one of the results is true. *)
Lemma Or_Execute_both (fuel : nat) (lhs rhs : Statement) (e : Env) :
  Execute (S fuel) (Or (Some lhs) (Some rhs)) e
  = bind (Execute fuel lhs) (fun l =>
      bind (Execute fuel rhs) (fun r => ret (HBool (IsTrue l || IsTrue r)))) e.
Proof.
  cbn [Execute Execute_ execute_operands]. unfold bind.
  destruct (Execute fuel lhs e) as [[[l|ex] e1]|]; try reflexivity.
  destruct (Execute fuel rhs e1) as [[[r|ex] e2]|]; try reflexivity.
  cbn. by destruct (IsTrue l), (IsTrue r).
Qed.

(** C1, where the code departs from it: in [False and c.bump()] and in
    [True or c.bump()] the call on the right is made all the same; the counter
    ends at 2, where an operator that short-circuits leaves it at 0. *)
Theorem And_Or_execute_rhs_regardless :
  option_map (fun r => output (world r.2))
    (Execute 10 examples.short_circuit_program examples.short_circuit_env)
  = Some ("2 False True" ++ endl).
Proof. vm_compute. reflexivity. Qed.

(** ** New instances *)

(** Whatever the arguments and the constructor do, a [NewInstance] node that
    returns hands out the address of its own member. *)
Lemma NewInstance_Execute_returns_member (fuel : nat) (class_inst_ : loc)
    (args_ : list Statement) (e e' : Env) (obj : ObjectHolder) :
  Execute fuel (NewInstance class_inst_ args_) e = Some (Returns obj, e') ->
  obj = HInstance class_inst_.
Proof.
  destruct fuel as [|fuel]; [done|].
  cbn [Execute Execute_]. unfold bind, in_world, instance_at, ret.
  destruct (execute_args (Execute fuel) args_ e) as [[[actual_args|ex] e1]|]; try done.
  destruct (objects (world e1) !! class_inst_) as [inst|]; [|done].
  destruct (HasMethod inst "__init__" (length args_)).
  - cbn. destruct (Call_ (Execute fuel) class_inst_ "__init__" actual_args (world e1))
      as [[[res|ex] w1]|]; cbn; try done. by intros [= <- _].
  - by intros [= <- _].
Qed.

(** C2, where the code departs from it: both calls of [make] execute the one
    [NewInstance] node and get the one [ClassInstance] it owns, so [y] is [x]
    and still has the field [tag] that was stored through [x]. *)
Theorem NewInstance_shares_its_instance :
  option_map (fun r => (closure r.2 !! "x", closure r.2 !! "y", output (world r.2)))
    (Execute 10 examples.factory_program examples.factory_env)
  = Some (Some (HInstance 1%nat), Some (HInstance 1%nat), "1" ++ endl).
Proof. vm_compute. reflexivity. Qed.

(** ** More on the method table *)

(** Of the class's own methods called alike the last one is resolved, whatever
    the parent has. *)
Lemma GetMethod_own_last_wins (c : Class) (before after : list Method) (m : Method) :
  methods_ c = (before ++ m :: after)%list ->
  Forall (fun m' => name m' <> name m) after ->
  GetMethod c (name m) = Some m.
Proof.
  intros Hown Hafter. unfold GetMethod, name_to_method_. rewrite Hown.
  by apply store_methods_last.
Qed.

(** A name that no method of the class has is resolved among the methods the
    parent declares itself, the last of them first. *)
Lemma GetMethod_parent_own_methods (c parent : Class) (before after : list Method)
    (m : Method) :
  parent_ c = Some parent ->
  Forall (fun m' => name m' <> name m) (methods_ c) ->
  methods_ parent = (before ++ m :: after)%list ->
  Forall (fun m' => name m' <> name m) after ->
  GetMethod c (name m) = Some m.
Proof.
  intros Hparent Hown Hinherited Hafter. unfold GetMethod, name_to_method_.
  rewrite Hparent, store_methods_other, Hinherited by done.
  by apply store_methods_last.
Qed.
(** * Properties of the lexer *)

Module lexer_facts.
Import parse lexer_spec.
Local Open Scope list_scope.

(** ** Inner loops only consume *)

Lemma read_while_suffix (p : ascii -> bool) (buf : list ascii) :
  rdbuf (read_while p buf).2 `suffix_of` buf.
Proof.
  induction buf as [|c rest IH]; simpl; [done|].
  destruct (p c); [|done].
  destruct (read_while p rest) as [text s]. simpl in *. by apply suffix_cons_r.
Qed.

Lemma read_string_suffix (q : ascii) (buf : list ascii) :
  forall (str str' : string) (rest : list ascii),
    read_string q buf str = inr (str', rest) -> rest `suffix_of` buf.
Proof.
  remember (length buf) as n eqn:Hn. revert buf Hn.
  induction n as [n IH] using lt_wf_ind. intros buf -> str str' rest.
  destruct buf as [|c buf]; simpl.
  - by intros [= <- <-].
  - destruct (Ascii.eqb c q).
    { intros [= <- <-]. by apply suffix_cons_r. }
    destruct (Ascii.eqb c backslash).
    { destruct buf as [|e buf]; [done|]. destruct (escaped e); [|done].
      intros H. eapply IH in H; [|simpl|reflexivity]; [|lia].
      by do 2 apply suffix_cons_r. }
    destruct (Ascii.eqb c LF || Ascii.eqb c CR); [done|].
    intros H. eapply IH in H; [|simpl|reflexivity]; [|lia]. by apply suffix_cons_r.
Qed.

Lemma skip_spaces_suffix (buf : list ascii) : rdbuf (skip_spaces buf) `suffix_of` buf.
Proof.
  induction buf as [|c rest IH]; simpl; [done|].
  destruct (Ascii.eqb c space); [by apply suffix_cons_r | done].
Qed.

Lemma after_newline_suffix (buf rest : list ascii) :
  after_newline buf = Some rest -> (LF :: rest) `suffix_of` buf.
Proof.
  induction buf as [|c buf IH]; simpl; [done|].
  destruct (Ascii.eqb_spec c LF) as [->|_].
  - by intros [= ->].
  - intros H. by apply suffix_cons_r, IH.
Qed.

Lemma count_spaces_spec (buf : list ascii) :
  forall (n : Z) (cur : ascii),
    exists cur' s,
      count_spaces buf n cur = ((n + Z.of_nat (leading_spaces buf))%Z, cur', s) /\
      match after_spaces buf with
      | [] => s = mkStream [] true true
      | c :: rest => cur' = c /\ s = mkStream rest false false
      end.
Proof.
  induction buf as [|c buf IH]; intros n cur; simpl.
  - exists cur, (mkStream [] true true). by rewrite Z.add_0_r.
  - destruct (Ascii.eqb c space) eqn:Hc.
    + destruct (IH (n + 1)%Z c) as (cur' & s & -> & Hs).
      exists cur', s. split; [f_equal; f_equal; lia | done].
    + exists c, (mkStream buf false false). by rewrite Z.add_0_r.
Qed.

Lemma after_spaces_suffix (buf : list ascii) : after_spaces buf `suffix_of` buf.
Proof.
  induction buf as [|c buf IH]; simpl; [done|].
  destruct (Ascii.eqb c space); [by apply suffix_cons_r | done].
Qed.


(** ** What every sub-parser does *)

Lemma advances_refl (s : istream) (toks : list Token) : advances s toks s toks.
Proof. split; [done|]. exists []. by rewrite app_nil_r. Qed.

Lemma advances_trans s1 t1 s2 t2 s3 t3 :
  advances s1 t1 s2 t2 -> advances s2 t2 s3 t3 -> advances s1 t1 s3 t3.
Proof.
  intros [Hs1 (e1 & -> & He1)] [Hs2 (e2 & -> & He2)]. split; [by etrans|].
  exists (e1 ++ e2)%list. rewrite app_assoc. split; [done | by apply Forall_app].
Qed.

Lemma advances_emplace (s s' : istream) (toks : list Token) (t : Token) :
  rdbuf s' `suffix_of` rdbuf s -> plain t -> advances s toks s' (emplace_back toks t).
Proof. intros Hs Ht. split; [done|]. exists [t]. split; [done | by apply Forall_singleton]. Qed.

Lemma advances_stream (s s' : istream) (toks : list Token) :
  rdbuf s' `suffix_of` rdbuf s -> advances s toks s' toks.
Proof. intros Hs. split; [done|]. exists []. by rewrite app_nil_r. Qed.

Lemma ParseKeyword_plain (str : string) (k : Token) : ParseKeyword str = Some k -> plain k.
Proof.
  unfold ParseKeyword. repeat case_match; intros [= <-]; by split.
Qed.

Ltac stream_cases s :=
  let buf := fresh "buf" in
  let c := fresh "c" in
  destruct s as [buf [] []]; [| | |destruct buf as [|c buf]];
  cbn [get peek putback getline get_ good ok rdstate_is_eofbit setstate_failbit
       rdbuf eofbit failbit negb andb orb fst snd to_char default].

Ltac adv :=
  intros; simplify_eq/=;
  first [ apply advances_stream; cbn; by eauto using suffix_cons_r
        | apply advances_emplace; cbn; [by eauto using suffix_cons_r | by split] ].

Lemma peek_rdbuf (s : istream) : rdbuf (peek s).2 = rdbuf s.
Proof. by stream_cases s. Qed.

Lemma get_while_suffix (p : ascii -> bool) (s : istream) :
  rdbuf (get_while p s).2 `suffix_of` rdbuf s.
Proof.
  unfold get_while. destruct (good s); [apply read_while_suffix | done].
Qed.

Lemma SkipSpaces_suffix (s : istream) : rdbuf (SkipSpaces s) `suffix_of` rdbuf s.
Proof.
  unfold SkipSpaces. destruct (good s); [apply skip_spaces_suffix | done].
Qed.

Lemma ParseStrings_advances indet s toks s' toks' :
  ParseStrings indet s toks = inr (s', toks') -> advances s toks s' toks'.
Proof.
  unfold ParseStrings. stream_cases s.
  all: repeat case_match; simplify_eq/=; try done.
  all: try (intros; simplify_eq/=; apply advances_emplace; [|by split]; cbn;
            eauto using suffix_cons_r, read_string_suffix).
  all: adv.
Qed.

Lemma ParseId_advances s toks s' toks' :
  ParseId s toks = (s', toks') -> advances s toks s' toks'.
Proof.
  unfold ParseId. pose proof (peek_rdbuf s) as Hpeek.
  destruct (peek s) as [next s1]. cbn in Hpeek.
  case_match; [|intros [= <- <-]; apply advances_stream; by rewrite Hpeek].
  match goal with |- context [get_while ?p s1] =>
    pose proof (get_while_suffix p s1) as Hsuf; destruct (get_while p s1) as [parsed_id s2]
  end.
  cbn in Hsuf. rewrite Hpeek in Hsuf.
  destruct (ParseKeyword parsed_id) as [k|] eqn:Hk; intros [= <- <-];
    apply advances_emplace; eauto using ParseKeyword_plain. by split.
Qed.

Lemma ParseNumbers_advances s toks s' toks' :
  ParseNumbers s toks = inr (s', toks') -> advances s toks s' toks'.
Proof.
  unfold ParseNumbers. pose proof (peek_rdbuf s) as Hpeek.
  destruct (peek s) as [next s1]. cbn in Hpeek.
  case_match; [|intros [= <- <-]; apply advances_stream; by rewrite Hpeek].
  pose proof (get_while_suffix isdigit s1) as Hsuf.
  destruct (get_while isdigit s1) as [parsed_num s2].
  cbn in Hsuf. rewrite Hpeek in Hsuf.
  destruct (stoi parsed_num) as [e|num]; [done|]. intros [= <- <-].
  apply advances_emplace; [done | by split].
Qed.

Lemma ParseDoubleChars_advances indet s toks s' toks' :
  ParseDoubleChars indet s toks = (s', toks') -> advances s toks s' toks'.
Proof.
  unfold ParseDoubleChars. destruct s as [[|c [|c' buf]] [] []]; cbn.
  all: repeat case_match; simplify_eq/=; adv.
Qed.

Lemma SkipComment_suffix indet s : rdbuf (SkipComment indet s) `suffix_of` rdbuf s.
Proof.
  unfold SkipComment. stream_cases s.
  all: repeat case_match; simplify_eq/=; try done.
  all: try (by apply suffix_cons_r).
  all: try (apply suffix_cons_r; by apply after_newline_suffix).
  all: try by apply suffix_nil.
Qed.

Lemma ParseChars_advances indet s toks s' toks' :
  ParseChars indet s toks = (s', toks') -> advances s toks s' toks'.
Proof.
  unfold ParseChars. pose proof (peek_rdbuf s) as Hpeek.
  destruct (peek s) as [next s1] eqn:Hp. cbn in Hpeek.
  case_match; [|intros [= <- <-]; apply advances_stream; by rewrite Hpeek].
  case_match.
  - intros [= <- <-]. apply advances_stream. rewrite <- Hpeek. apply SkipComment_suffix.
  - destruct (get (to_char next) s1) as [c s2] eqn:Hget. intros [= <- <-].
    apply advances_emplace; [|by split]. rewrite <- Hpeek.
    revert Hget. clear. stream_cases s1; repeat case_match; intros; simplify_eq/=; try done.
    by apply suffix_cons_r.
Qed.


(** ** A sub-parser in front of a character *)

(** A stream in good state holding [buf]. *)
Abbreviation holding buf := (mkStream buf false false).

Lemma ParseNewLine_other indet c r toks b :
  Ascii.eqb c LF = false ->
  ParseNewLine indet (mkLexer (holding (c :: r)) toks b) = mkLexer (holding (c :: r)) toks b.
Proof. intros Hc. unfold ParseNewLine. cbn. by rewrite Hc. Qed.

(** [ParseIndent] at the start of a line: the leading spaces are consumed; on
    a blank or comment line nothing else happens, otherwise the new level is
    the number of spaces and the difference to the old one, halved, is emitted
    as [Indent]s or [Dedent]s. *)
Lemma ParseIndent_line indet r toks b :
  exists s',
    rdbuf s' = after_spaces r /\
    ParseIndent indet (mkLexer (holding r) toks b)
    = if blank_or_comment r then mkLexer s' toks b
      else
        let spaces := Z.of_nat (leading_spaces r) in
        let indents_count := Z.quot (spaces - b) 2 in
        mkLexer s'
          (toks ++ replicate (Z.to_nat (Z.abs indents_count))
                     (if (0 <? indents_count)%Z then token_type.Indent
                      else if (indents_count <? 0)%Z then token_type.Dedent
                      else token_type.Number 0))%list
          spaces.
Proof.
  unfold ParseIndent, blank_or_comment. cbn [input good eofbit failbit negb andb rdbuf].
  destruct (count_spaces_spec r 0 indet) as (cur' & s & -> & Hs).
  rewrite Z.add_0_l. destruct (after_spaces r) as [|c rest].
  - subst s. cbn. eexists. split; [|reflexivity]. done.
  - destruct Hs as [-> ->]. cbn.
    destruct (Ascii.eqb c LF || Ascii.eqb c hash); eexists; (split; [|reflexivity]); done.
Qed.

Lemma ParseNewLine_newline indet r toks b :
  ParseNewLine indet (mkLexer (holding (LF :: r)) toks b)
  = ParseIndent indet
      (mkLexer (holding r)
         (if negb (empty toks) && back_ne toks token_type.Newline
          then emplace_back toks token_type.Newline else toks) b).
Proof. reflexivity. Qed.

Lemma ParseStrings_other indet c r toks :
  Ascii.eqb c apostrophe || Ascii.eqb c double_quote = false ->
  ParseStrings indet (holding (c :: r)) toks = inr (holding (c :: r), toks).
Proof. intros Hc. unfold ParseStrings. cbn. by rewrite Hc. Qed.

Lemma ParseStrings_quote indet c r toks s' toks' :
  Ascii.eqb c apostrophe || Ascii.eqb c double_quote = true ->
  ParseStrings indet (holding (c :: r)) toks = inr (s', toks') ->
  rdbuf s' `suffix_of` r.
Proof.
  intros Hc. unfold ParseStrings. cbn. rewrite Hc.
  destruct (read_string c r "") as [|[str rest]] eqn:Hrs; [done|].
  intros [= <- <-]. cbn. by eapply read_string_suffix.
Qed.

Lemma ParseId_other c r toks :
  isalpha c || Ascii.eqb c "_" = false ->
  ParseId (holding (c :: r)) toks = (holding (c :: r), toks).
Proof. intros Hc. unfold ParseId. cbn. by rewrite Hc. Qed.

Lemma isalpha_isalnum c :
  isalpha c || Ascii.eqb c "_" = true -> isalnum c || Ascii.eqb c "_" = true.
Proof.
  unfold isalnum. intros [->| ->]%orb_true_iff; [done | by rewrite orb_true_r].
Qed.

Lemma ParseId_letter c r toks s' toks' :
  isalpha c || Ascii.eqb c "_" = true ->
  ParseId (holding (c :: r)) toks = (s', toks') ->
  rdbuf s' `suffix_of` r.
Proof.
  intros Hc. unfold ParseId. cbn. rewrite Hc, (isalpha_isalnum _ Hc).
  match goal with |- context [read_while ?p r] =>
    pose proof (read_while_suffix p r) as Hsuf; destruct (read_while p r) as [text s2]
  end.
  cbn in Hsuf. case_match; by intros [= <- <-].
Qed.

Lemma ParseDoubleChars_front indet c r toks s' toks' :
  ParseDoubleChars indet (holding (c :: r)) toks = (s', toks') ->
  (s' = holding (c :: r) /\ toks' = toks) \/ rdbuf s' `suffix_of` r.
Proof.
  unfold ParseDoubleChars. destruct r as [|c' r]; cbn.
  all: repeat case_match; intros; simplify_eq/=; auto.
  all: right; by apply suffix_cons_r.
Qed.

Lemma ParseChars_other indet c r toks :
  ispunct c = false -> ParseChars indet (holding (c :: r)) toks = (holding (c :: r), toks).
Proof. intros Hc. unfold ParseChars. cbn. by rewrite Hc. Qed.

Lemma ParseChars_punct indet c r toks s' toks' :
  ispunct c = true ->
  ParseChars indet (holding (c :: r)) toks = (s', toks') ->
  rdbuf s' `suffix_of` r.
Proof.
  intros Hc. unfold ParseChars. cbn. rewrite Hc.
  destruct (Ascii.eqb_spec c hash) as [->|_]; [|by intros [= <- <-]].
  intros [= <- <-]. unfold SkipComment. cbn.
  destruct (after_newline r) as [rest|] eqn:Hrest; cbn.
  - by apply after_newline_suffix.
  - destruct r; cbn; by apply suffix_nil.
Qed.

Lemma ParseNumbers_other c r toks :
  isdigit c = false -> ParseNumbers (holding (c :: r)) toks = inr (holding (c :: r), toks).
Proof. intros Hc. unfold ParseNumbers. cbn. by rewrite Hc. Qed.

Lemma ParseNumbers_digit c r toks s' toks' :
  isdigit c = true ->
  ParseNumbers (holding (c :: r)) toks = inr (s', toks') ->
  rdbuf s' `suffix_of` r.
Proof.
  intros Hc. unfold ParseNumbers. cbn. rewrite !Hc.
  pose proof (read_while_suffix isdigit r) as Hsuf.
  destruct (read_while isdigit r) as [text s2]. cbn in Hsuf.
  case_match; [done|]. by intros [= <- <-].
Qed.

Lemma SkipSpaces_other c r :
  Ascii.eqb c space = false -> SkipSpaces (holding (c :: r)) = holding (c :: r).
Proof. intros Hc. unfold SkipSpaces. cbn. by rewrite Hc. Qed.

Lemma SkipSpaces_space c r :
  Ascii.eqb c space = true -> rdbuf (SkipSpaces (holding (c :: r))) `suffix_of` r.
Proof. intros Hc. unfold SkipSpaces. cbn. rewrite Hc. apply skip_spaces_suffix. Qed.


(** ** One round of the loop *)

(** Names the result of the next sub-parser in the goal. *)
Ltac next_stage :=
  match goal with
  | |- context [ParseStrings ?i ?s ?t] =>
      let E := fresh "Estrings" in
      destruct (ParseStrings i s t) as [?|[? ?]] eqn:E; [done|]
  | |- context [ParseId ?s ?t] =>
      let E := fresh "Eid" in destruct (ParseId s t) as [? ?] eqn:E
  | |- context [ParseDoubleChars ?i ?s ?t] =>
      let E := fresh "Edouble" in destruct (ParseDoubleChars i s t) as [? ?] eqn:E
  | |- context [ParseChars ?i ?s ?t] =>
      let E := fresh "Echars" in destruct (ParseChars i s t) as [? ?] eqn:E
  | |- context [ParseNumbers ?s ?t] =>
      let E := fresh "Enumbers" in
      destruct (ParseNumbers s t) as [?|[? ?]] eqn:E; [done|]
  end.

Ltac chain_suffix :=
  etrans; [apply SkipSpaces_suffix|]; repeat (etrans; [eassumption|]); done.

(** The sub-parsers after [ParseNewLine] only consume input and append plain
    tokens; [begin_spaces_count_] is not theirs to change. *)
Lemma body_after_ParseNewLine indet lx lx' :
  ParseTokens_body indet lx = inr lx' ->
  let lx1 := ParseNewLine indet lx in
  advances (input lx1) (tokens_ lx1) (input lx') (tokens_ lx') /\
  begin_spaces_count_ lx' = begin_spaces_count_ lx1.
Proof.
  unfold ParseTokens_body. cbn zeta.
  repeat next_stage. intros [= <-]. cbn. split; [|done].
  apply ParseStrings_advances in Estrings. apply ParseId_advances in Eid.
  apply ParseDoubleChars_advances in Edouble. apply ParseChars_advances in Echars.
  apply ParseNumbers_advances in Enumbers.
  repeat (eapply advances_trans; [eassumption|]).
  apply advances_stream. apply SkipSpaces_suffix.
Qed.

Lemma lexable_cases c :
  lexable c = true ->
  Ascii.eqb c LF = false ->
  Ascii.eqb c apostrophe || Ascii.eqb c double_quote = false ->
  isalpha c || Ascii.eqb c "_" = false ->
  ispunct c = false ->
  isdigit c = false ->
  Ascii.eqb c space = true.
Proof.
  unfold lexable, isalnum. intros H H1 _ [H3 _]%orb_false_iff H4 H5.
  rewrite H1, H3, H4, H5 in H. by destruct (Ascii.eqb c space).
Qed.

(** A round that starts in front of a lexable character and raises nothing
    consumes that character. *)
Lemma body_progress indet c r toks b lx' :
  lexable c = true ->
  ParseTokens_body indet (mkLexer (holding (c :: r)) toks b) = inr lx' ->
  rdbuf (input lx') `suffix_of` r.
Proof.
  intros Hlex Hbody.
  destruct (Ascii.eqb c LF) eqn:HLF.
  { apply Ascii.eqb_eq in HLF as ->.
    apply body_after_ParseNewLine in Hbody as [[Hsuf _] _].
    rewrite ParseNewLine_newline in Hsuf.
    match type of Hsuf with context [ParseIndent indet (mkLexer _ ?t b)] =>
      destruct (ParseIndent_line indet r t b) as (s1 & Hs1 & Hindent) end.
    rewrite Hindent in Hsuf.
    etrans; [exact Hsuf|]. destruct (blank_or_comment r); cbn; rewrite Hs1;
      apply after_spaces_suffix. }
  revert Hbody. unfold ParseTokens_body. rewrite ParseNewLine_other by done.
  cbn [input tokens_ begin_spaces_count_].
  destruct (Ascii.eqb c apostrophe || Ascii.eqb c double_quote) eqn:Hquote.
  { repeat next_stage. intros [= <-]. cbn.
    eapply ParseStrings_quote in Estrings; [|done].
    apply ParseId_advances in Eid as [? _].
    apply ParseDoubleChars_advances in Edouble as [? _].
    apply ParseChars_advances in Echars as [? _].
    apply ParseNumbers_advances in Enumbers as [? _].
    chain_suffix. }
  rewrite ParseStrings_other by done.
  destruct (isalpha c || Ascii.eqb c "_") eqn:Hletter.
  { repeat next_stage. intros [= <-]. cbn.
    eapply ParseId_letter in Eid; [|done].
    apply ParseDoubleChars_advances in Edouble as [? _].
    apply ParseChars_advances in Echars as [? _].
    apply ParseNumbers_advances in Enumbers as [? _].
    chain_suffix. }
  rewrite ParseId_other by done.
  next_stage. apply ParseDoubleChars_front in Edouble as [[-> ->]|Hdouble].
  2:{ repeat next_stage. intros [= <-]. cbn.
      apply ParseChars_advances in Echars as [? _].
      apply ParseNumbers_advances in Enumbers as [? _].
      chain_suffix. }
  destruct (ispunct c) eqn:Hpunct.
  { repeat next_stage. intros [= <-]. cbn.
    eapply ParseChars_punct in Echars; [|done].
    apply ParseNumbers_advances in Enumbers as [? _].
    chain_suffix. }
  rewrite ParseChars_other by done.
  destruct (isdigit c) eqn:Hdigit.
  { repeat next_stage. intros [= <-]. cbn.
    eapply ParseNumbers_digit in Enumbers; [|done].
    chain_suffix. }
  rewrite ParseNumbers_other by done. intros [= <-]. cbn.
  apply SkipSpaces_space. by apply lexable_cases.
Qed.


(** ** The loop ends *)

Lemma Forall_lexable_suffix (l k : list ascii) :
  l `suffix_of` k -> Forall (fun c => lexable c = true) k -> Forall (fun c => lexable c = true) l.
Proof. intros [pre ->] H. by apply Forall_app in H as [_ H]. Qed.

Lemma ParseTokens_loop_ends indet :
  forall (fuel : nat) (lx : Lexer),
    (length (rdbuf (input lx)) < fuel)%nat ->
    Forall (fun c => lexable c = true) (rdbuf (input lx)) ->
    exists res, ParseTokens_loop fuel indet lx = Some res.
Proof.
  induction fuel as [|fuel IH]; intros [[buf e f] toks b] Hlen Hlex; [cbn in Hlen; lia|].
  cbn [ParseTokens_loop input tokens_ begin_spaces_count_].
  destruct e, f; cbn; eauto. destruct buf as [|c r]; cbn; eauto.
  destruct (ParseTokens_body indet (mkLexer (holding (c :: r)) toks b)) as [e|lx'] eqn:Hbody;
    [eauto|].
  cbn in Hlen, Hlex. apply Forall_cons in Hlex as [Hc Hr].
  apply body_progress in Hbody; [|done].
  apply IH; [|by eapply Forall_lexable_suffix].
  apply suffix_length in Hbody. lia.
Qed.

(** ** The closing tokens *)

Lemma Token_eq_Newline (t : Token) :
  Token_eq t token_type.Newline = true <-> t = token_type.Newline.
Proof. destruct t; cbn; split; done. Qed.

Lemma Token_eq_Dedent (t : Token) :
  Token_eq t token_type.Dedent = true <-> t = token_type.Dedent.
Proof. destruct t; cbn; split; done. Qed.

(** What [close_tokens] appends to the tokens the loop left. *)
Lemma close_tokens_spec (raw : list Token) :
  (exists t, last raw = Some t /\ t <> token_type.Newline /\ t <> token_type.Dedent /\
             close_tokens raw = (raw ++ [token_type.Newline; token_type.Eof])%list) \/
  ((raw = [] \/ last raw = Some token_type.Newline \/ last raw = Some token_type.Dedent) /\
   close_tokens raw = (raw ++ [token_type.Eof])%list).
Proof.
  unfold close_tokens, back_ne, emplace_back, Token_ne.
  destruct raw as [|t0 raw'] using rev_ind; [right; cbn; auto|].
  clear IHraw'. rewrite last_snoc.
  assert (empty (raw' ++ [t0]) = false) as -> by (by destruct raw').
  cbn [negb andb].
  destruct (Token_eq t0 token_type.Newline) eqn:HN.
  { apply Token_eq_Newline in HN as ->. right. cbn. auto. }
  destruct (Token_eq t0 token_type.Dedent) eqn:HD.
  { apply Token_eq_Dedent in HD as ->. right. cbn. auto. }
  left. exists t0. cbn. rewrite <- app_assoc. repeat split; try done.
  - intros ->. by rewrite (proj2 (Token_eq_Newline _)) in HN.
  - intros ->. by rewrite (proj2 (Token_eq_Dedent _)) in HD.
Qed.


(** ** Counting [Indent]s and [Dedent]s *)

Lemma indents_app (l k : list Token) : indents (l ++ k) = (indents l + indents k)%nat.
Proof. induction l as [|t l IH]; cbn; [done|]. rewrite IH. lia. Qed.

Lemma dedents_app (l k : list Token) : dedents (l ++ k) = (dedents l + dedents k)%nat.
Proof. induction l as [|t l IH]; cbn; [done|]. rewrite IH. lia. Qed.

Lemma dedents_le_length (l : list Token) : (dedents l <= length l)%nat.
Proof. induction l as [|t l IH]; cbn; [done|]. destruct (is_dedent t); lia. Qed.

Lemma dedents_none (l : list Token) :
  Forall (fun t => t <> token_type.Dedent) l -> dedents l = O.
Proof. induction 1 as [|t l Ht _ IH]; [done|]. cbn. rewrite IH. by destruct t. Qed.

Lemma indents_none (l : list Token) :
  Forall (fun t => t <> token_type.Indent) l -> indents l = O.
Proof. induction 1 as [|t l Ht _ IH]; [done|]. cbn. rewrite IH. by destruct t. Qed.

Lemma indents_replicate_Indent (n : nat) : indents (replicate n token_type.Indent) = n.
Proof. induction n; [done|]. cbn. by f_equal. Qed.

Lemma dedents_replicate_Dedent (n : nat) : dedents (replicate n token_type.Dedent) = n.
Proof. induction n; [done|]. cbn. by f_equal. Qed.

Lemma prefix_app_cases (p l k : list Token) :
  p `prefix_of` (l ++ k) ->
  p `prefix_of` l \/ exists k', p = (l ++ k')%list /\ k' `prefix_of` k.
Proof.
  intros [t Ht]. apply app_eq_inv in Ht as [(m & -> & ->)|(m & -> & ->)].
  - left. by exists m.
  - right. exists m. split; [done|]. by exists t.
Qed.

(** Tokens other than [Dedent] keep a run balanced. *)
Lemma balanced_app_no_dedent (toks extra : list Token) :
  balanced toks -> Forall (fun t => t <> token_type.Dedent) extra -> balanced (toks ++ extra).
Proof.
  intros Hb Hextra p [Hp|(k' & -> & [t ->])]%prefix_app_cases; [by apply Hb|].
  apply Forall_app in Hextra as [Hk' _].
  rewrite dedents_app, indents_app, (dedents_none k') by done.
  specialize (Hb toks (reflexivity _)). lia.
Qed.

(** So do [Dedent]s that the [Indent]s before them cover. *)
Lemma balanced_app_covered (toks extra : list Token) :
  balanced toks -> (dedents toks + length extra <= indents toks)%nat ->
  balanced (toks ++ extra).
Proof.
  intros Hb Hcover p [Hp|(k' & -> & Hk')]%prefix_app_cases; [by apply Hb|].
  rewrite dedents_app, indents_app.
  pose proof (dedents_le_length k'). apply prefix_length in Hk'. lia.
Qed.

Lemma plain_no_dedent (extra : list Token) :
  Forall plain extra -> Forall (fun t => t <> token_type.Dedent) extra.
Proof. intros H. eapply Forall_impl; [exact H|]. by intros t [_ ?]. Qed.

Lemma plain_no_indent (extra : list Token) :
  Forall plain extra -> Forall (fun t => t <> token_type.Indent) extra.
Proof. intros H. eapply Forall_impl; [exact H|]. by intros t [? _]. Qed.

(** ** The invariant of the loop *)

Lemma even_indentation_suffix (l k : list ascii) :
  l `suffix_of` k -> even_indentation k = true -> even_indentation l = true.
Proof.
  intros [pre ->]. induction pre as [|c pre IH]; [done|].
  cbn. intros [_ H]%andb_true_iff. by apply IH.
Qed.

Lemma level_invariant_advances lx s' toks' :
  level_invariant lx ->
  advances (input lx) (tokens_ lx) s' toks' ->
  level_invariant (mkLexer s' toks' (begin_spaces_count_ lx)).
Proof.
  intros (Hb & Hlevel & Heven) [Hsuf (extra & -> & Hextra)].
  unfold level_invariant. cbn. split_and!.
  - apply balanced_app_no_dedent; [done | by apply plain_no_dedent].
  - rewrite indents_app, dedents_app, (indents_none extra), (dedents_none extra), !Nat.add_0_r;
      auto using plain_no_dedent, plain_no_indent.
  - by eapply even_indentation_suffix.
Qed.

Lemma level_invariant_ParseIndent indet r toks b :
  level_invariant (mkLexer (holding r) toks b) ->
  blank_or_comment r || Nat.even (leading_spaces r) = true ->
  level_invariant (ParseIndent indet (mkLexer (holding r) toks b)).
Proof.
  intros (Hb & Hlevel & Heven) Hline. cbn in Hb, Hlevel, Heven.
  destruct (ParseIndent_line indet r toks b) as (s' & Hs' & ->).
  assert (even_indentation (rdbuf s') = true) as Heven'.
  { rewrite Hs'. eapply even_indentation_suffix; [apply after_spaces_suffix | done]. }
  destruct (blank_or_comment r); [by split_and!|].
  cbn in Hline. apply Nat.even_spec in Hline as [k Hk].
  rewrite Hk, Hlevel. cbn zeta.
  set (net := (Z.of_nat (indents toks) - Z.of_nat (dedents toks))%Z).
  replace (Z.of_nat (2 * k) - 2 * net)%Z with ((Z.of_nat k - net) * 2)%Z by lia.
  rewrite Z.quot_mul by done.
  pose proof (Hb toks (reflexivity _)) as Htoks.
  unfold level_invariant. cbn [tokens_ begin_spaces_count_ input].
  destruct (Z.ltb_spec 0 (Z.of_nat k - net)) as [Hpos|Hnpos].
  - split_and!; [|rewrite indents_app, dedents_app, indents_replicate_Indent,
                    (dedents_none (replicate _ _)) by (by apply Forall_replicate); lia|done].
    apply balanced_app_no_dedent; [done | by apply Forall_replicate].
  - destruct (Z.ltb_spec (Z.of_nat k - net) 0) as [Hneg|Hzero].
    + split_and!; [|rewrite indents_app, dedents_app, dedents_replicate_Dedent,
                      (indents_none (replicate _ _)) by (by apply Forall_replicate); lia|done].
      apply balanced_app_covered; [done|]. rewrite length_replicate. lia.
    + replace (Z.of_nat k - net)%Z with 0%Z by lia. cbn. rewrite app_nil_r.
      split_and!; [done | lia | done].
Qed.

Lemma level_invariant_body indet c r toks b lx' :
  level_invariant (mkLexer (holding (c :: r)) toks b) ->
  ParseTokens_body indet (mkLexer (holding (c :: r)) toks b) = inr lx' ->
  level_invariant lx'.
Proof.
  intros Hinv Hbody. apply body_after_ParseNewLine in Hbody as [Hadv Hbegin].
  cbn zeta in Hadv, Hbegin.
  assert (level_invariant (ParseNewLine indet (mkLexer (holding (c :: r)) toks b))) as Hinv1.
  { destruct (Ascii.eqb_spec c LF) as [->|Hc].
    - rewrite ParseNewLine_newline.
      destruct Hinv as (Hb & Hlevel & Heven). cbn in Hb, Hlevel, Heven.
      apply andb_true_iff in Heven as [Hline Heven].
      apply level_invariant_ParseIndent; [|done].
      apply (level_invariant_advances (mkLexer (holding r) toks b)); [by split_and!|].
      cbn. case_match; [|apply advances_refl].
      apply advances_emplace; [done | by split].
    - rewrite ParseNewLine_other; [done|]. by apply Ascii.eqb_neq. }
  destruct lx' as [s' toks' b']. cbn in Hadv, Hbegin. subst b'.
  by apply level_invariant_advances.
Qed.

Lemma level_invariant_loop indet :
  forall (fuel : nat) (lx lx' : Lexer),
    level_invariant lx ->
    ParseTokens_loop fuel indet lx = Some (inr lx') ->
    balanced (tokens_ lx').
Proof.
  induction fuel as [|fuel IH]; intros [[buf e f] toks b] lx' Hinv; [done|].
  cbn [ParseTokens_loop input tokens_ begin_spaces_count_].
  destruct e, f; cbn; try (intros [= <-]; apply Hinv).
  destruct buf as [|c r]; cbn; [intros [= <-]; apply Hinv|].
  destruct (ParseTokens_body indet (mkLexer (holding (c :: r)) toks b)) as [e|lx1] eqn:Hbody;
    [done|].
  apply IH. by eapply level_invariant_body.
Qed.


(** ** Indentation and the end of the input *)

Lemma close_tokens_balanced (raw : list Token) : balanced raw -> balanced (close_tokens raw).
Proof.
  intros Hb.
  destruct (close_tokens_spec raw) as [(t & _ & _ & _ & ->)|[_ ->]];
    apply balanced_app_no_dedent; try done; by repeat constructor.
Qed.

(** C4, as the code has it: on a line that is neither blank nor a comment
    [ParseIndent] emits [|delta|] copies of [Indent] (for a positive [delta])
    or [Dedent] (for a negative one), [delta] being the spaces of the line
    less the tracked level, halved, and makes the spaces of the line the
    tracked level; and when every such line of the input starts with an even
    number of spaces, no prefix of the tokens the lexer returns has more
    [Dedent]s than [Indent]s. *)
Theorem indent_dedent_balance (fuel : nat) (indet : ascii) (text : list ascii)
    (tokens : list Token) :
  even_indentation text = true ->
  ParseTokens fuel indet text = Some (inr tokens) ->
  (forall before : list Token,
     before `prefix_of` tokens -> (dedents before <= indents before)%nat) /\
  (forall (line : list ascii) (toks : list Token) (tracked : Z),
     blank_or_comment line = false ->
     let delta := Z.quot (Z.of_nat (leading_spaces line) - tracked) 2 in
     exists s',
       ParseIndent indet (mkLexer (holding line) toks tracked)
       = mkLexer s'
           (toks ++ replicate (Z.to_nat (Z.abs delta))
                      (if (0 <? delta)%Z then token_type.Indent
                       else if (delta <? 0)%Z then token_type.Dedent
                       else token_type.Number 0))
           (Z.of_nat (leading_spaces line))).
Proof.
  intros Heven Hlex. split.
  - unfold ParseTokens in Hlex.
    destruct (ParseTokens_loop fuel indet (mkLexer (holding text) [] 0))
      as [[e|lx]|] eqn:Hloop; try done.
    injection Hlex as <-. apply close_tokens_balanced.
    eapply level_invariant_loop; [|exact Hloop].
    split_and!; [|done..]. intros before Hbefore%prefix_nil_inv. by subst.
  - intros line toks tracked Hline delta.
    destruct (ParseIndent_line indet line toks tracked) as (s' & _ & Hindent).
    rewrite Hline in Hindent. by exists s'.
Qed.


(** In front of a tab no sub-parser moves, and the loop goes round for ever. *)
Lemma ParseTokens_loop_tab (indet : ascii) (fuel : nat) :
  forall (toks : list Token) (b : Z),
    ParseTokens_loop fuel indet (mkLexer (holding [TAB]) toks b) = None.
Proof. induction fuel as [|fuel IH]; intros toks b; [done|]. cbn. apply IH. Qed.

(** Lines indented by 0, 1, 2 and 0 spaces: the steps up are halved to
    nothing, the step down is one [Dedent], which no [Indent] precedes. *)
Lemma odd_indentation_unbalanced :
  exists tokens before,
    (forall indet : ascii,
       ParseTokens 20 indet examples.odd_indentation = Some (inr tokens)) /\
    before `prefix_of` tokens /\ dedents before = 1%nat /\ indents before = 0%nat.
Proof.
  exists [token_type.Id "x"; token_type.Newline; token_type.Id "y"; token_type.Newline;
          token_type.Id "z"; token_type.Newline; token_type.Dedent; token_type.Id "w";
          token_type.Newline; token_type.Eof],
         [token_type.Id "x"; token_type.Newline; token_type.Id "y"; token_type.Newline;
          token_type.Id "z"; token_type.Newline; token_type.Dedent].
  split; [|split; [by eexists | done]].
  intros [[] [] [] [] [] [] [] []]; vm_compute; reflexivity.
Qed.

End lexer_facts.

(** * More properties of the lexer *)

Module token_facts.
Import parse lexer_spec token_spec lexer_facts.
Local Open Scope list_scope.

(** ** Equality of tokens *)

(** [operator==] holds of two tokens exactly when they are the same
    alternative with the same value. *)
Lemma Token_eq_spec (lhs rhs : Token) : Token_eq lhs rhs = true <-> lhs = rhs.
Proof.
  unfold Token_eq. split.
  - destruct lhs, rhs; cbn; try done.
    + by intros ->%Z.eqb_eq.
    + by intros ->%String.eqb_eq.
    + by intros ->%Ascii.eqb_eq.
    + by intros ->%String.eqb_eq.
  - intros <-. destruct lhs; cbn; try done.
    + apply Z.eqb_refl.
    + apply String.eqb_refl.
    + apply Ascii.eqb_refl.
    + apply String.eqb_refl.
Qed.

(** ** The tokens of the sub-parsers *)


Lemma emits_refl (toks : list Token) : emits toks toks.
Proof. exists []. by rewrite app_nil_r. Qed.

Lemma emits_trans (t1 t2 t3 : list Token) : emits t1 t2 -> emits t2 t3 -> emits t1 t3.
Proof.
  intros (e1 & -> & H1) (e2 & -> & H2). exists (e1 ++ e2).
  rewrite app_assoc. split; [done | by apply Forall_app].
Qed.

Lemma emits_emplace (toks : list Token) (t : Token) : lexeme t -> emits toks (emplace_back toks t).
Proof. intros Ht. exists [t]. split; [done | by apply Forall_singleton]. Qed.

Lemma ParseKeyword_lexeme (str : string) (k : Token) : ParseKeyword str = Some k -> lexeme k.
Proof. unfold ParseKeyword. repeat case_match; intros [= <-]; by repeat split. Qed.

Lemma read_while_all (p : ascii -> bool) (buf : list ascii) :
  forallb p (list_ascii_of_string (read_while p buf).1) = true.
Proof.
  induction buf as [|c rest IH]; cbn; [done|].
  destruct (p c) eqn:Hc; [|done].
  destruct (read_while p rest) as [text s]. cbn in *. by rewrite Hc, IH.
Qed.

Lemma digit_value_range (d : ascii) : isdigit d = true -> 0 <= digit_value d <= 9.
Proof.
  unfold isdigit, between, digit_value.
  intros [H1%Nat.leb_le H2%Nat.leb_le]%andb_true_iff. lia.
Qed.

Lemma decimal_nonneg (ds : string) :
  forall acc : Z, 0 <= acc -> digits ds = true -> 0 <= decimal acc ds.
Proof.
  unfold digits. induction ds as [|d ds IH]; intros acc Hacc; cbn; [done|].
  intros [Hd Hds]%andb_true_iff. apply IH; [|done].
  pose proof (digit_value_range d Hd). lia.
Qed.

Lemma stoi_range (ds : string) (num : Z) :
  digits ds = true -> stoi ds = inr num -> 0 <= num <= 2147483647.
Proof.
  intros Hds. unfold stoi. destruct ds as [|d ds]; [done|].
  destruct (Z.leb_spec (decimal 0 (String d ds)) 2147483647); [|done].
  intros [= <-]. split; [apply (decimal_nonneg (String d ds) 0); [lia | done] | done].
Qed.

Lemma ParseStrings_emits indet s toks s' toks' :
  ParseStrings indet s toks = inr (s', toks') -> emits toks toks'.
Proof.
  unfold ParseStrings. destruct (get indet s) as [quote_type s1].
  case_match; [|intros [= _ <-]; apply emits_refl].
  destruct (read_string quote_type (rdbuf s1) "") as [|[str rest]]; [done|].
  intros [= _ <-]. apply emits_emplace. by repeat split.
Qed.

Lemma ParseId_emits s toks s' toks' : ParseId s toks = (s', toks') -> emits toks toks'.
Proof.
  unfold ParseId. destruct s as [[|c r] [] []]; cbn; try (intros [= _ <-]; apply emits_refl).
  destruct (isalpha c || Ascii.eqb c "_") eqn:Hc; [|intros [= _ <-]; apply emits_refl].
  rewrite (isalpha_isalnum _ Hc).
  match goal with |- context [read_while ?p r] =>
    pose proof (read_while_all p r) as Hall; destruct (read_while p r) as [text s2]
  end.
  cbn in Hall.
  destruct (ParseKeyword (String c text)) as [k|] eqn:Hk; intros [= _ <-]; apply emits_emplace.
  - by eapply ParseKeyword_lexeme.
  - repeat split; try done. cbn. by rewrite Hc, Hall.
Qed.

Lemma ParseDoubleChars_emits indet s toks s' toks' :
  ParseDoubleChars indet s toks = (s', toks') -> emits toks toks'.
Proof.
  unfold ParseDoubleChars. destruct (get indet s) as [c s1]. destruct (peek s1) as [next s2].
  repeat case_match; intros [= _ <-]; try apply emits_refl; apply emits_emplace; by repeat split.
Qed.

Lemma ParseChars_emits indet s toks s' toks' :
  ParseChars indet s toks = (s', toks') -> emits toks toks'.
Proof.
  unfold ParseChars. destruct s as [[|c r] [] []]; cbn; try (intros [= _ <-]; apply emits_refl).
  destruct (ispunct c) eqn:Hc; [|intros [= _ <-]; apply emits_refl].
  destruct (Ascii.eqb_spec c hash) as [->|Hhash]; intros [= _ <-]; [apply emits_refl|].
  apply emits_emplace. by repeat split.
Qed.

Lemma ParseNumbers_emits s toks s' toks' :
  ParseNumbers s toks = inr (s', toks') -> emits toks toks'.
Proof.
  unfold ParseNumbers. destruct (peek s) as [next s1].
  case_match; [|intros [= _ <-]; apply emits_refl].
  pose proof (read_while_all isdigit (rdbuf s1)) as Hall.
  unfold get_while. destruct (good s1).
  - destruct (read_while isdigit (rdbuf s1)) as [text s2]. cbn in Hall.
    destruct (stoi text) as [e|num] eqn:Hstoi; [done|]. intros [= _ <-].
    apply emits_emplace. repeat split; try done; by eapply stoi_range.
  - cbn. done.
Qed.

(** One round appends, to what [ParseNewLine] left, lexemes only. *)
Lemma body_emits indet lx lx' :
  ParseTokens_body indet lx = inr lx' ->
  emits (tokens_ (ParseNewLine indet lx)) (tokens_ lx').
Proof.
  unfold ParseTokens_body. repeat next_stage. intros [= <-]. cbn.
  apply ParseStrings_emits in Estrings. apply ParseId_emits in Eid.
  apply ParseDoubleChars_emits in Edouble. apply ParseChars_emits in Echars.
  apply ParseNumbers_emits in Enumbers.
  repeat (eapply emits_trans; [eassumption|]). apply emits_refl.
Qed.


(** ** What the loop keeps of its tokens *)


Lemma no_adjacent_newlines_app (l k : list Token) :
  no_adjacent_newlines l -> no_adjacent_newlines k ->
  ~ (last l = Some token_type.Newline /\ head k = Some token_type.Newline) ->
  no_adjacent_newlines (l ++ k).
Proof.
  induction l as [|t1 [|t2 l] IH]; intros Hl Hk Hjoin; [done| |].
  - cbn in *. destruct k as [|t k]; [done|]. split; [|done].
    intros [-> ->]. by apply Hjoin.
  - destruct Hl as [H12 Hl]. split; [done|]. by apply IH.
Qed.

Lemma no_adjacent_newlines_none (k : list Token) :
  Forall (fun t => t <> token_type.Newline) k -> no_adjacent_newlines k.
Proof.
  induction 1 as [|t k Ht Hk IH]; [done|]. destruct k as [|t' k]; [done|].
  split; [by intros [? _] | done].
Qed.

(** Tokens other than [Newline] may follow. *)
Lemma raw_tokens_app (toks extra : list Token) :
  raw_tokens toks ->
  Forall (fun t => (lexeme t \/ structural t) /\ t <> token_type.Newline) extra ->
  raw_tokens (toks ++ extra).
Proof.
  intros (Hall & Hadj & Hhead) Hextra. split_and!.
  - apply Forall_app. split; [done|]. eapply Forall_impl; [exact Hextra|]. by intros t [? _].
  - apply no_adjacent_newlines_app; [done| |].
    + apply no_adjacent_newlines_none. eapply Forall_impl; [exact Hextra|]. by intros t [_ ?].
    + intros [_ Hk]. destruct extra as [|t extra]; [done|].
      apply Forall_cons in Hextra as [[_ Ht] _]. by injection Hk.
  - destruct toks as [|t toks]; [|done]. destruct extra as [|t extra]; [done|].
    apply Forall_cons in Hextra as [[_ Ht] _]. cbn. by intros [= ->].
Qed.

Lemma raw_tokens_emits (toks toks' : list Token) :
  raw_tokens toks -> emits toks toks' -> raw_tokens toks'.
Proof.
  intros Hraw (extra & -> & Hextra). apply raw_tokens_app; [done|].
  eapply Forall_impl; [exact Hextra|]. intros t Ht. split; [by left|]. apply Ht.
Qed.

(** So may a [Newline] after a token that is none. *)
Lemma raw_tokens_Newline (toks : list Token) :
  raw_tokens toks ->
  raw_tokens (if negb (empty toks) && back_ne toks token_type.Newline
              then emplace_back toks token_type.Newline else toks).
Proof.
  intros (Hall & Hadj & Hhead).
  destruct toks as [|t0 toks] using rev_ind; [done|]. clear IHtoks.
  unfold back_ne, emplace_back. rewrite last_snoc.
  assert (empty (toks ++ [t0]) = false) as -> by (by destruct toks). cbn [negb andb].
  unfold Token_ne. destruct (Token_eq t0 token_type.Newline) eqn:Ht0; [done|]. cbn [negb].
  split_and!.
  - apply Forall_app. split; [done|]. apply Forall_singleton. right. by left.
  - apply no_adjacent_newlines_app; [done..|]. rewrite last_snoc. intros [[= ->] _].
    by rewrite (proj2 (Token_eq_Newline _)) in Ht0.
  - by destruct toks.
Qed.

Lemma raw_tokens_ParseIndent indet r toks b :
  raw_tokens toks -> raw_tokens (tokens_ (ParseIndent indet (mkLexer (holding r) toks b))).
Proof.
  intros Hraw. destruct (ParseIndent_line indet r toks b) as (s' & _ & ->).
  destruct (blank_or_comment r); [done|]. cbn.
  apply raw_tokens_app; [done|]. apply Forall_replicate.
  repeat case_match; (split; [|done]); unfold structural; auto.
  left. repeat split; done.
Qed.

Lemma raw_tokens_body indet c r toks b lx' :
  raw_tokens toks ->
  ParseTokens_body indet (mkLexer (holding (c :: r)) toks b) = inr lx' ->
  raw_tokens (tokens_ lx').
Proof.
  intros Hraw Hbody. apply body_emits in Hbody.
  eapply raw_tokens_emits; [|exact Hbody].
  destruct (Ascii.eqb_spec c LF) as [->|Hc].
  - rewrite ParseNewLine_newline. by apply raw_tokens_ParseIndent, raw_tokens_Newline.
  - rewrite ParseNewLine_other; [done|]. by apply Ascii.eqb_neq.
Qed.

Lemma raw_tokens_loop indet :
  forall (fuel : nat) (lx lx' : Lexer),
    raw_tokens (tokens_ lx) ->
    ParseTokens_loop fuel indet lx = Some (inr lx') ->
    raw_tokens (tokens_ lx').
Proof.
  induction fuel as [|fuel IH]; intros [[buf e f] toks b] lx' Hraw; [done|].
  cbn [ParseTokens_loop input tokens_ begin_spaces_count_].
  destruct e, f; cbn; try (intros [= <-]; apply Hraw).
  destruct buf as [|c r]; cbn; [intros [= <-]; apply Hraw|].
  destruct (ParseTokens_body indet (mkLexer (holding (c :: r)) toks b)) as [e|lx1] eqn:Hbody;
    [done|].
  apply IH. by eapply raw_tokens_body.
Qed.

(** The tokens [ParseTokens] returns are raw tokens closed by [Eof], a
    [Newline] before it when the last raw token is no [Newline]. *)
Lemma ParseTokens_raw fuel indet text toks :
  ParseTokens fuel indet text = Some (inr toks) ->
  exists raw,
    raw_tokens raw /\
    (toks = raw ++ [token_type.Eof] \/
     (toks = raw ++ [token_type.Newline; token_type.Eof] /\
      last raw <> Some token_type.Newline /\ raw <> [])).
Proof.
  unfold ParseTokens.
  destruct (ParseTokens_loop fuel indet (mkLexer (holding text) [] 0)) as [[e|lx]|] eqn:Hloop;
    try done.
  intros [= <-]. exists (tokens_ lx). split.
  { eapply raw_tokens_loop; [|exact Hloop]. by split_and!. }
  destruct (close_tokens_spec (tokens_ lx)) as [(t & Ht & HN & _ & ->)|[_ ->]]; [right|by left].
  split; [done|]. split; [by rewrite Ht; intros [= ->] | by intros Hnil; rewrite Hnil in Ht].
Qed.

(** ** The shape of the result *)

(** Every [Number] of the result is a value an [int] holds and is not
    negative, every [Id] is an identifier and none is a keyword, every [Char]
    is a punctuation character and none is [#]. *)
Theorem ParseTokens_well_formed (fuel : nat) (indet : ascii) (text : list ascii)
    (toks : list Token) :
  ParseTokens fuel indet text = Some (inr toks) ->
  (forall n : Z, token_type.Number n ∈ toks -> (0 <= n <= 2147483647)%Z) /\
  (forall s : string,
     token_type.Id s ∈ toks -> identifier s = true /\ ParseKeyword s = None) /\
  (forall c : ascii, token_type.Char c ∈ toks -> ispunct c = true /\ c <> hash).
Proof.
  intros (raw & (Hall & _ & _) & Hshape)%ParseTokens_raw.
  assert (Forall well_formed toks) as Hwf.
  { assert (Forall well_formed raw) as Hraw.
    { eapply Forall_impl; [exact Hall|].
      intros t [[Ht _]|[->|[->| ->]]]; done. }
    destruct Hshape as [->|[-> _]]; apply Forall_app; split; try done;
      by repeat constructor. }
  rewrite Forall_forall in Hwf.
  split_and!; intros x Hx; exact (Hwf _ Hx).
Qed.

(** [Eof] is the last token of the result and stands nowhere else in it. *)
Theorem ParseTokens_Eof_only_last (fuel : nat) (indet : ascii) (text : list ascii)
    (toks : list Token) :
  ParseTokens fuel indet text = Some (inr toks) ->
  exists body, toks = body ++ [token_type.Eof] /\ token_type.Eof ∉ body.
Proof.
  intros (raw & (Hall & _ & _) & Hshape)%ParseTokens_raw.
  assert (token_type.Eof ∉ raw) as Hraw.
  { intros Hin. rewrite Forall_forall in Hall.
    destruct (Hall _ Hin) as [(_ & _ & _ & _ & H)|[H|[H|H]]]; done. }
  destruct Hshape as [->|[-> _]].
  - by exists raw.
  - exists (raw ++ [token_type.Newline]). rewrite <- app_assoc. split; [done|].
    rewrite elem_of_app, list_elem_of_singleton. by intros [?|?].
Qed.

(** The result does not start with a [Newline], and in it no [Newline]
    follows another. *)
Theorem ParseTokens_single_newlines (fuel : nat) (indet : ascii) (text : list ascii)
    (toks : list Token) :
  ParseTokens fuel indet text = Some (inr toks) ->
  head toks <> Some token_type.Newline /\ no_adjacent_newlines toks.
Proof.
  intros (raw & (Hall & Hadj & Hhead) & Hshape)%ParseTokens_raw.
  destruct Hshape as [->|(-> & Hlast & Hnil)].
  - split.
    + destruct raw; [done | exact Hhead].
    + apply no_adjacent_newlines_app; [done..|]. by intros [_ ?].
  - split.
    + destruct raw; [done | exact Hhead].
    + apply no_adjacent_newlines_app; [done| |by intros [? _]].
      split; [by intros [_ ?] | done].
Qed.

End token_facts.

Module lexeme_facts.
Import parse lexer_spec token_spec string_literal lexer_facts token_facts.
Local Open Scope list_scope.

(** ** Classes of characters *)


Ltac by_cases_on_char c :=
  destruct c as [[] [] [] [] [] [] [] []]; vm_compute; try done; intros; repeat split; done.

Lemma not_lexable (c : ascii) :
  lexable c = false ->
  Ascii.eqb c LF = false /\ quote c = false /\ isalpha c || Ascii.eqb c "_" = false /\
  operator_start c = false /\ ispunct c = false /\ isdigit c = false /\
  Ascii.eqb c space = false.
Proof. by_cases_on_char c. Qed.

Lemma letter_class (c : ascii) :
  isalpha c || Ascii.eqb c "_" = true -> Ascii.eqb c LF = false /\ quote c = false.
Proof. by_cases_on_char c. Qed.

Lemma digit_class (c : ascii) :
  isdigit c = true ->
  Ascii.eqb c LF = false /\ quote c = false /\ isalpha c || Ascii.eqb c "_" = false /\
  operator_start c = false /\ ispunct c = false.
Proof. by_cases_on_char c. Qed.

Lemma ParseDoubleChars_other indet c r toks :
  operator_start c = false ->
  ParseDoubleChars indet (holding (c :: r)) toks = (holding (c :: r), toks).
Proof.
  unfold operator_start. intros [[[H1 H2]%orb_false_iff H3]%orb_false_iff H4]%orb_false_iff.
  unfold ParseDoubleChars. destruct r as [|c' r]; cbn; by rewrite H1, H2, H3, H4.
Qed.

(** One round of the loop in front of a character. *)
Lemma ParseTokens_loop_round fuel indet c r toks b :
  ParseTokens_loop (S fuel) indet (mkLexer (holding (c :: r)) toks b)
  = match ParseTokens_body indet (mkLexer (holding (c :: r)) toks b) with
    | inl e => Some (inl e)
    | inr lx => ParseTokens_loop fuel indet lx
    end.
Proof. reflexivity. Qed.

(** ** Characters no sub-parser takes *)

Lemma body_unlexable indet c r toks b :
  lexable c = false ->
  ParseTokens_body indet (mkLexer (holding (c :: r)) toks b)
  = inr (mkLexer (holding (c :: r)) toks b).
Proof.
  intros (HLF & Hquote & Hletter & Hop & Hpunct & Hdigit & Hspace)%not_lexable.
  unfold ParseTokens_body. rewrite ParseNewLine_other by done.
  cbn [input tokens_ begin_spaces_count_].
  rewrite ParseStrings_other by done. rewrite ParseId_other by done.
  rewrite ParseDoubleChars_other by done. rewrite ParseChars_other by done.
  rewrite ParseNumbers_other by done. by rewrite SkipSpaces_other.
Qed.

(** In front of a character that is neither a newline, a space, a letter, a
    digit nor punctuation, no round of the loop changes anything: however
    many rounds are allowed, [ParseTokens] has not returned. *)
Theorem ParseTokens_stuck_on_unlexable (indet : ascii) (c : ascii) (rest : list ascii) :
  lexable c = false ->
  forall fuel : nat, ParseTokens fuel indet (c :: rest) = None.
Proof.
  intros Hc fuel. unfold ParseTokens.
  assert (forall toks b,
            ParseTokens_loop fuel indet (mkLexer (holding (c :: rest)) toks b) = None) as ->;
    [|done].
  induction fuel as [|fuel IH]; intros toks b; [done|].
  rewrite ParseTokens_loop_round.
  rewrite body_unlexable by done. apply IH.
Qed.

(** ** Comments and leading spaces *)

Lemma after_newline_app (comment rest : list ascii) :
  LF ∉ comment -> after_newline (comment ++ LF :: rest) = Some rest.
Proof.
  induction comment as [|c comment IH]; intros Hc; cbn.
  - done.
  - apply not_elem_of_cons in Hc as [Hne Hc].
    destruct (Ascii.eqb_spec c LF); [congruence | by apply IH].
Qed.

Lemma after_newline_none (comment : list ascii) : LF ∉ comment -> after_newline comment = None.
Proof.
  induction comment as [|c comment IH]; intros Hc; cbn; [done|].
  apply not_elem_of_cons in Hc as [Hne Hc].
  destruct (Ascii.eqb_spec c LF); [congruence | by apply IH].
Qed.

(** A round of the loop that starts at a [#] drops the comment, and nothing
    else: the next round starts at the newline that ends the comment, with
    the tokens and the tracked level as they were. *)
Theorem comment_is_dropped (fuel : nat) (indet : ascii) (comment rest : list ascii)
    (toks : list Token) (b : Z) :
  LF ∉ comment ->
  ParseTokens_loop (S fuel) indet (mkLexer (holding (hash :: comment ++ LF :: rest)) toks b)
  = ParseTokens_loop fuel indet (mkLexer (holding (LF :: rest)) toks b).
Proof.
  intros Hcomment.
  rewrite ParseTokens_loop_round.
  assert (ParseTokens_body indet (mkLexer (holding (hash :: comment ++ LF :: rest)) toks b)
          = inr (mkLexer (holding (LF :: rest)) toks b)) as ->; [|done].
  unfold ParseTokens_body. rewrite ParseNewLine_other by done.
  cbn [input tokens_ begin_spaces_count_].
  rewrite ParseStrings_other by done. rewrite ParseId_other by done.
  rewrite ParseDoubleChars_other by done.
  assert (ParseChars indet (holding (hash :: comment ++ LF :: rest)) toks
          = (holding (LF :: rest), toks)) as ->.
  { unfold ParseChars, SkipComment. cbn. unfold getline. cbn.
    by rewrite after_newline_app. }
  rewrite ParseNumbers_other by done. by rewrite SkipSpaces_other.
Qed.

Lemma skip_spaces_run (n : nat) (c : ascii) (r : list ascii) :
  Ascii.eqb c space = false ->
  skip_spaces (replicate n space ++ c :: r) = holding (c :: r).
Proof. intros Hc. induction n as [|n IH]; cbn; [by rewrite Hc | done]. Qed.

(** Spaces at the very start of the text are no indentation: they are dropped
    in one round, which emits nothing and leaves the tracked level at 0. *)
Theorem leading_spaces_are_dropped (fuel : nat) (indet : ascii) (n : nat) (c : ascii)
    (r : list ascii) :
  Ascii.eqb c space = false ->
  ParseTokens (S fuel) indet (replicate (S n) space ++ c :: r)
  = ParseTokens fuel indet (c :: r).
Proof.
  intros Hc. unfold ParseTokens.
  cbn [replicate app]. rewrite ParseTokens_loop_round.
  assert (ParseTokens_body indet (mkLexer (holding (space :: replicate n space ++ c :: r)) [] 0)
          = inr (mkLexer (holding (c :: r)) [] 0)) as ->; [|done].
  unfold ParseTokens_body. rewrite ParseNewLine_other by done.
  cbn [input tokens_ begin_spaces_count_].
  rewrite ParseStrings_other by done. rewrite ParseId_other by done.
  rewrite ParseDoubleChars_other by done. rewrite ParseChars_other by done.
  rewrite ParseNumbers_other by done.
  unfold SkipSpaces. cbn. by rewrite skip_spaces_run.
Qed.


(** ** At the end of the input *)

Lemma ParseId_at_end s toks :
  rdbuf s = [] -> exists s', ParseId s toks = (s', toks) /\ rdbuf s' = [].
Proof. destruct s as [buf [] []]; cbn; intros ->; cbn; eauto. Qed.

Lemma ParseDoubleChars_at_end indet s toks :
  rdbuf s = [] -> exists s', ParseDoubleChars indet s toks = (s', toks) /\ rdbuf s' = [].
Proof.
  unfold ParseDoubleChars. destruct s as [buf [] []]; cbn; intros ->; cbn;
    rewrite !andb_false_r; eauto.
Qed.

Lemma ParseChars_at_end indet s toks :
  rdbuf s = [] -> exists s', ParseChars indet s toks = (s', toks) /\ rdbuf s' = [].
Proof. destruct s as [buf [] []]; cbn; intros ->; cbn; eauto. Qed.

Lemma ParseNumbers_at_end s toks :
  rdbuf s = [] -> exists s', ParseNumbers s toks = inr (s', toks) /\ rdbuf s' = [].
Proof. destruct s as [buf [] []]; cbn; intros ->; cbn; eauto. Qed.

Lemma SkipSpaces_at_end s : rdbuf s = [] -> rdbuf (SkipSpaces s) = [].
Proof. destruct s as [buf [] []]; cbn; by intros ->. Qed.

(** With nothing left to read the loop ends at once. *)
Lemma ParseTokens_loop_at_end (fuel : nat) indet s toks b :
  rdbuf s = [] ->
  exists s', ParseTokens_loop (S fuel) indet (mkLexer s toks b) = Some (inr (mkLexer s' toks b)).
Proof. destruct s as [buf [] []]; cbn; intros ->; cbn; eauto. Qed.

(** The sub-parsers from [ParseDoubleChars] on, the input at its end. *)
Ltac finish_round :=
  repeat match goal with
  | |- context [ParseId ?s ?t] =>
      let H := fresh in
      destruct (ParseId_at_end s t) as (? & -> & H); [done|]
  | |- context [ParseDoubleChars ?i ?s ?t] =>
      let H := fresh in
      destruct (ParseDoubleChars_at_end i s t) as (? & -> & H); [done|]
  | |- context [ParseChars ?i ?s ?t] =>
      let H := fresh in
      destruct (ParseChars_at_end i s t) as (? & -> & H); [done|]
  | |- context [ParseNumbers ?s ?t] =>
      let H := fresh in
      destruct (ParseNumbers_at_end s t) as (? & -> & H); [done|]
  end.

Lemma read_while_to_end (p : ascii -> bool) (buf : list ascii) :
  forallb p buf = true ->
  read_while p buf = (string_of_list_ascii buf, mkStream [] true true).
Proof.
  induction buf as [|c buf IH]; cbn; [done|].
  intros [-> Hbuf]%andb_true_iff. by rewrite IH.
Qed.

(** What [close_tokens] makes of a single lexeme. *)
Lemma close_tokens_lexeme (t : Token) :
  lexeme t -> close_tokens [t] = [t; token_type.Newline; token_type.Eof].
Proof.
  intros (_ & HN & _ & HD & _). unfold close_tokens, back_ne, Token_ne. cbn.
  destruct (Token_eq t token_type.Newline) eqn:H1.
  { by apply Token_eq_Newline in H1. }
  destruct (Token_eq t token_type.Dedent) eqn:H2.
  { by apply Token_eq_Dedent in H2. }
  done.
Qed.

(** ** Texts of one lexeme *)


(** A text that is a run of digits is lexed as the [Number] of its decimal
    value when that is at most 2147483647; beyond that [std::stoi] throws. *)
Theorem ParseTokens_number (fuel : nat) (indet : ascii) (ds : string) :
  ds <> "" -> digits ds = true ->
  ParseTokens (S (S fuel)) indet (list_ascii_of_string ds)
  = if (decimal 0 ds <=? 2147483647)%Z
    then Some (inr [token_type.Number (decimal 0 ds); token_type.Newline; token_type.Eof])
    else Some (inl (out_of_range "stoi")).
Proof.
  destruct ds as [|d ds]; [done|]. intros _ Hds.
  assert (isdigit d = true) as Hd by (by apply andb_true_iff in Hds as [? _]).
  destruct (digit_class d Hd) as (HLF & Hquote & Hletter & Hop & Hpunct).
  unfold ParseTokens.
  cbn [list_ascii_of_string]. rewrite ParseTokens_loop_round.
  unfold ParseTokens_body. rewrite ParseNewLine_other by done.
  cbn [input tokens_ begin_spaces_count_].
  rewrite ParseStrings_other by done. rewrite ParseId_other by done.
  rewrite ParseDoubleChars_other by done. rewrite ParseChars_other by done.
  unfold ParseNumbers at 1.
  cbn [peek good rdbuf eofbit failbit negb andb to_char default from_option id].
  rewrite Hd. unfold get_while. cbn [good rdbuf eofbit failbit negb andb].
  rewrite (read_while_to_end isdigit (d :: list_ascii_of_string ds)) by exact Hds.
  change (string_of_list_ascii (d :: list_ascii_of_string ds))
    with (String d (string_of_list_ascii (list_ascii_of_string ds))).
  rewrite string_of_list_ascii_of_string.
  unfold stoi. destruct (decimal 0 (String d ds) <=? 2147483647)%Z eqn:Hrange; [|done].
  destruct (ParseTokens_loop_at_end fuel indet
              (SkipSpaces (mkStream [] true true))
              (emplace_back [] (token_type.Number (decimal 0 (String d ds)))) 0)
    as (s'' & ->); [done|].
  cbn [tokens_ emplace_back app]. rewrite close_tokens_lexeme; [done|].
  repeat split; try done; apply (stoi_range (String d ds)); try done;
    unfold stoi; by rewrite Hrange.
Qed.

(** ** String literals *)



Lemma quote_cases (q : ascii) : quote q = true -> q = apostrophe \/ q = double_quote.
Proof.
  unfold quote. intros [H|H]%orb_true_iff; apply Ascii.eqb_eq in H; auto.
Qed.

Lemma escape_code_Some (q c e : ascii) :
  quote q = true -> escape_code q c = Some e ->
  Ascii.eqb backslash q = false /\ escaped e = Some c.
Proof.
  intros [-> | ->]%quote_cases; revert e;
    destruct c as [[] [] [] [] [] [] [] []]; vm_compute; intros e [= <-]; done.
Qed.

Lemma escape_code_None (q c : ascii) :
  escape_code q c = None ->
  Ascii.eqb c q = false /\ Ascii.eqb c backslash = false /\
  Ascii.eqb c LF || Ascii.eqb c CR = false.
Proof.
  unfold escape_code. repeat case_match; try done; intros _;
    repeat split; try done; by apply orb_false_iff.
Qed.

(** What the loop of [ParseStrings] makes of an escaped text up to the closing
    quote. *)
Lemma read_string_escape (q : ascii) (content : string) (rest : list ascii) (str : string) :
  quote q = true ->
  read_string q (escape q content ++ q :: rest) str = inr (str ++ content, rest)%string.
Proof.
  intros Hq. revert str.
  induction content as [|c content IH]; intros str; cbn [escape app].
  - cbn. rewrite Ascii.eqb_refl. by rewrite string_app_nil_r.
  - rewrite string_app_snoc. rewrite <- IH. clear IH.
    unfold escape_char.
    destruct (escape_code q c) as [e|] eqn:He.
    + destruct (escape_code_Some q c e Hq He) as [Hb He'].
      cbn [app read_string]. by rewrite Hb, Ascii.eqb_refl, He'.
    + destruct (escape_code_None q c He) as (H1 & H2 & H3).
      cbn [app read_string]. by rewrite H1, H2, H3.
Qed.

(** The same text with the input ending where the closing quote should be. *)
Lemma read_string_unclosed (q : ascii) (content : string) (str : string) :
  quote q = true ->
  read_string q (escape q content) str = inr (str ++ content, [])%string.
Proof.
  intros Hq. revert str.
  induction content as [|c content IH]; intros str; cbn [escape app].
  - cbn. by rewrite string_app_nil_r.
  - rewrite string_app_snoc. rewrite <- IH. clear IH.
    unfold escape_char.
    destruct (escape_code q c) as [e|] eqn:He.
    + destruct (escape_code_Some q c e Hq He) as [Hb He'].
      cbn [app read_string]. by rewrite Hb, Ascii.eqb_refl, He'.
    + destruct (escape_code_None q c He) as (H1 & H2 & H3).
      cbn [app read_string]. by rewrite H1, H2, H3.
Qed.

(** A raw end of line where the literal should go on. *)
Lemma read_string_end_of_line (q : ascii) (content : string) (c : ascii) (rest : list ascii)
    (str : string) :
  quote q = true -> Ascii.eqb c LF || Ascii.eqb c CR = true ->
  read_string q (escape q content ++ c :: rest) str
  = inl (logic_error "Unexpected end of line").
Proof.
  intros Hq Hc. revert str.
  induction content as [|c' content IH]; intros str; cbn [escape app].
  - cbn [read_string]. rewrite Hc.
    assert (Ascii.eqb c q = false /\ Ascii.eqb c backslash = false) as [-> ->]; [|done].
    destruct (quote_cases q Hq) as [-> | ->];
      apply orb_true_iff in Hc as [->%Ascii.eqb_eq| ->%Ascii.eqb_eq]; done.
  - unfold escape_char.
    destruct (escape_code q c') as [e|] eqn:He.
    + destruct (escape_code_Some q c' e Hq He) as [Hb He'].
      cbn [app read_string]. rewrite Hb, Ascii.eqb_refl, He'. apply IH.
    + destruct (escape_code_None q c' He) as (H1 & H2 & H3).
      cbn [app read_string]. rewrite H1, H2, H3. apply IH.
Qed.

Lemma ParseStrings_literal indet (q : ascii) (buf : list ascii) toks :
  quote q = true ->
  ParseStrings indet (holding (q :: buf)) toks
  = match read_string q buf "" with
    | inl e => inl e
    | inr (str, rest) => inr (holding rest, emplace_back toks (token_type.String str))
    end.
Proof. intros Hq. unfold ParseStrings. cbn. unfold quote in Hq. by rewrite Hq. Qed.

(** A literal alone in the text, closed by its quote or not closed at all. *)
Lemma ParseTokens_one_literal (fuel : nat) (indet : ascii) (q : ascii) (content : string)
    (buf : list ascii) :
  quote q = true ->
  read_string q buf "" = inr (content, []) ->
  ParseTokens (S (S fuel)) indet (q :: buf)
  = Some (inr [token_type.String content; token_type.Newline; token_type.Eof]).
Proof.
  intros Hq Hread. unfold ParseTokens. rewrite ParseTokens_loop_round.
  assert (Ascii.eqb q LF = false) as HLF.
  { by destruct (quote_cases q Hq) as [-> | ->]. }
  assert (exists s',
            ParseTokens_body indet (mkLexer (holding (q :: buf)) [] 0)
            = inr (mkLexer s' [token_type.String content] 0) /\ rdbuf s' = [])
    as (s' & -> & Hs').
  { unfold ParseTokens_body. rewrite ParseNewLine_other by done.
    cbn [input tokens_ begin_spaces_count_].
    rewrite ParseStrings_literal, Hread by done.
    finish_round. eexists. split; [reflexivity|]. by apply SkipSpaces_at_end. }
  destruct (ParseTokens_loop_at_end fuel indet s' [token_type.String content] 0 Hs')
    as (s'' & ->).
  cbn [tokens_]. rewrite close_tokens_lexeme; [done|]. by repeat split.
Qed.


(** A literal whose closing quote is missing is accepted all the same: the
    end of the input closes it. *)
Theorem ParseTokens_unclosed_literal (fuel : nat) (indet : ascii) (q : ascii)
    (content : string) :
  quote q = true ->
  ParseTokens (S (S fuel)) indet (q :: escape q content)
  = Some (inr [token_type.String content; token_type.Newline; token_type.Eof]).
Proof.
  intros Hq. apply ParseTokens_one_literal; [done|].
  by rewrite read_string_unclosed.
Qed.

(** A literal cannot go over the end of its line: a raw newline or carriage
    return before the closing quote makes [ParseTokens] throw, whatever
    follows. *)
Theorem ParseTokens_literal_end_of_line (fuel : nat) (indet : ascii) (q c : ascii)
    (content : string) (rest : list ascii) :
  quote q = true -> Ascii.eqb c LF || Ascii.eqb c CR = true ->
  ParseTokens (S fuel) indet (q :: escape q content ++ c :: rest)
  = Some (inl (logic_error "Unexpected end of line")).
Proof.
  intros Hq Hc. unfold ParseTokens. rewrite ParseTokens_loop_round.
  assert (Ascii.eqb q LF = false) as HLF.
  { by destruct (quote_cases q Hq) as [-> | ->]. }
  unfold ParseTokens_body. rewrite ParseNewLine_other by done.
  cbn [input tokens_ begin_spaces_count_].
  by rewrite ParseStrings_literal, read_string_end_of_line.
Qed.

(** ** A run that ends before the input does *)

Lemma read_while_stop (p : ascii -> bool) (buf : list ascii) (c : ascii) (rest : list ascii) :
  forallb p buf = true -> p c = false ->
  read_while p (buf ++ c :: rest) = (string_of_list_ascii buf, holding (c :: rest)).
Proof.
  intros Hbuf Hc. induction buf as [|x buf IH]; cbn.
  - by rewrite Hc.
  - cbn in Hbuf. apply andb_true_iff in Hbuf as [-> Hbuf]. by rewrite IH.
Qed.

End lexeme_facts.

(** * The lexer on a text of lines of lexemes *)

Module line_facts.
Import parse lexer_spec token_spec string_literal line_spec.
Import lexer_facts token_facts lexeme_facts.
Local Open Scope list_scope.

(** ** A sub-parser that has nothing to take *)

Lemma ParseId_gap (after : list ascii) (s : istream) (toks : list Token) :
  gap after -> stands_at after s ->
  exists s', ParseId s toks = (s', toks) /\ stands_at after s'.
Proof.
  intros [->|[(c & r & -> & Hc)|(r & ->)]] Hs.
  - by apply ParseId_at_end.
  - cbn in Hs. subst s. eexists. split; [|done]. by apply ParseId_other.
  - cbn in Hs. subst s. eexists. split; [|done]. by apply ParseId_other.
Qed.

Lemma ParseDoubleChars_gap indet (after : list ascii) (s : istream) (toks : list Token) :
  gap after -> stands_at after s ->
  exists s', ParseDoubleChars indet s toks = (s', toks) /\ stands_at after s'.
Proof.
  intros [->|[(c & r & -> & Hc)|(r & ->)]] Hs.
  - by apply ParseDoubleChars_at_end.
  - cbn in Hs. subst s. eexists. split; [|done]. by apply ParseDoubleChars_other.
  - cbn in Hs. subst s. eexists. split; [|done]. by apply ParseDoubleChars_other.
Qed.

Lemma ParseChars_gap indet (after : list ascii) (s : istream) (toks : list Token) :
  gap after -> stands_at after s ->
  exists s', ParseChars indet s toks = (s', toks) /\ stands_at after s'.
Proof.
  intros [->|[(c & r & -> & Hc)|(r & ->)]] Hs.
  - by apply ParseChars_at_end.
  - cbn in Hs. subst s. eexists. split; [|done]. by apply ParseChars_other.
  - cbn in Hs. subst s. eexists. split; [|done]. by apply ParseChars_other.
Qed.

Lemma ParseNumbers_gap (after : list ascii) (s : istream) (toks : list Token) :
  gap after -> stands_at after s ->
  exists s', ParseNumbers s toks = inr (s', toks) /\ stands_at after s'.
Proof.
  intros [->|[(c & r & -> & Hc)|(r & ->)]] Hs.
  - by apply ParseNumbers_at_end.
  - cbn in Hs. subst s. eexists. split; [|done]. by apply ParseNumbers_other.
  - cbn in Hs. subst s. eexists. split; [|done]. by apply ParseNumbers_other.
Qed.

(** [SkipSpaces] takes the space of the gap. *)
Lemma SkipSpaces_gap (after : list ascii) (s : istream) :
  gap after -> stands_at after s -> stands_at (past_gap after) (SkipSpaces s).
Proof.
  intros [->|[(c & r & -> & Hc)|(r & ->)]] Hs.
  - by apply SkipSpaces_at_end.
  - cbn in Hs. subst s. cbn. unfold SkipSpaces. cbn. by rewrite Hc.
  - cbn in Hs. subst s. by rewrite SkipSpaces_other.
Qed.

(** The sub-parsers after the one that took the lexeme. *)
Ltac pass_gap Hgap :=
  repeat match goal with
  | Hs : stands_at ?after ?s |- context [ParseId ?s ?t] =>
      let s' := fresh "s" in let H := fresh "Hs" in
      destruct (ParseId_gap after s t Hgap Hs) as (s' & -> & H); clear Hs
  | Hs : stands_at ?after ?s |- context [ParseDoubleChars ?i ?s ?t] =>
      let s' := fresh "s" in let H := fresh "Hs" in
      destruct (ParseDoubleChars_gap i after s t Hgap Hs) as (s' & -> & H); clear Hs
  | Hs : stands_at ?after ?s |- context [ParseChars ?i ?s ?t] =>
      let s' := fresh "s" in let H := fresh "Hs" in
      destruct (ParseChars_gap i after s t Hgap Hs) as (s' & -> & H); clear Hs
  | Hs : stands_at ?after ?s |- context [ParseNumbers ?s ?t] =>
      let s' := fresh "s" in let H := fresh "Hs" in
      destruct (ParseNumbers_gap after s t Hgap Hs) as (s' & -> & H); clear Hs
  end.

(** ** The sub-parser that takes the lexeme *)

Lemma read_while_gap (p : ascii -> bool) (buf after : list ascii) :
  forallb p buf = true -> p space = false -> p LF = false -> gap after ->
  exists s',
    read_while p (buf ++ after) = (string_of_list_ascii buf, s') /\ stands_at after s'.
Proof.
  intros Hbuf Hspace HLF [->|[(c & r & -> & Hc)|(r & ->)]].
  - rewrite app_nil_r, read_while_to_end by done. by eexists.
  - rewrite read_while_stop by done. by eexists.
  - rewrite read_while_stop by done. by eexists.
Qed.

Lemma stands_at_holding (after : list ascii) : stands_at after (holding after).
Proof. by destruct after. Qed.

Lemma ParseDoubleChars_alone indet (c : ascii) (after : list ascii) (toks : list Token) :
  gap after ->
  ParseDoubleChars indet (holding (c :: after)) toks = (holding (c :: after), toks).
Proof.
  intros [->|[(c' & r & -> & Hc)|(r & ->)]]; unfold ParseDoubleChars; cbn;
    rewrite ?andb_false_r; done.
Qed.

(** ** One round takes one lexeme *)

Lemma first_char (x : lexeme_text) :
  writable x = true ->
  exists (c : ascii) (r : list ascii),
    source_of x = c :: r /\
    Ascii.eqb c LF = false /\ Ascii.eqb c space = false /\ Ascii.eqb c hash = false.
Proof.
  destruct x as [s|ds|c|c|q content]; cbn [writable source_of].
  - destruct s as [|c s]; [done|]. cbn. intros [Hc _]%andb_true_iff.
    exists c, (list_ascii_of_string s). split; [done|]. revert Hc. by_cases_on_char c.
  - destruct ds as [|d ds]; [done|].
    intros [[_ Hds]%andb_true_iff _]%andb_true_iff.
    assert (isdigit d = true) as Hd by (by apply andb_true_iff in Hds as [? _]).
    exists d, (list_ascii_of_string ds). split; [done|]. revert Hd. by_cases_on_char d.
  - intros Hc. exists c, []. split; [done|]. revert Hc. by_cases_on_char c.
  - intros Hc. exists c, ["="%char]. split; [done|]. revert Hc. by_cases_on_char c.
  - intros Hq. exists q, (escape q content ++ [q]). split; [done|].
    by destruct (quote_cases q Hq) as [-> | ->].
Qed.

Lemma body_takes_a_lexeme indet (x : lexeme_text) (after : list ascii) (toks : list Token)
    (b : Z) :
  writable x = true -> gap after ->
  exists s',
    ParseTokens_body indet (mkLexer (holding (source_of x ++ after)) toks b)
    = inr (mkLexer s' (toks ++ [token_of x]) b) /\
    stands_at (past_gap after) s'.
Proof.
  intros Hx Hgap. unfold ParseTokens_body.
  destruct x as [s|ds|c|c|q content]; cbn [writable source_of token_of] in *.
  - (* a word *)
    destruct s as [|c s]; [done|]. cbn [identifier list_ascii_of_string app] in *.
    apply andb_true_iff in Hx as [Hc Hs]. destruct (letter_class c Hc) as [HLF Hquote].
    rewrite ParseNewLine_other by done. cbn [input tokens_ begin_spaces_count_].
    rewrite ParseStrings_other by done.
    destruct (read_while_gap (fun c => isalnum c || Ascii.eqb c "_")
                (list_ascii_of_string s) after Hs eq_refl eq_refl Hgap) as (s1 & Hread & Hs1).
    assert (ParseId (holding (c :: list_ascii_of_string s ++ after)) toks
            = (s1, toks ++ [default (token_type.Id (String c s)) (ParseKeyword (String c s))]))
      as ->.
    { unfold ParseId. cbn. rewrite Hc, (isalpha_isalnum _ Hc), Hread.
      rewrite string_of_list_ascii_of_string. by destruct (ParseKeyword (String c s)). }
    pass_gap Hgap. eexists. split; [reflexivity|]. by apply SkipSpaces_gap.
  - (* a number *)
    destruct ds as [|d ds]; [done|].
    apply andb_true_iff in Hx as [[_ Hds]%andb_true_iff Hrange].
    assert (isdigit d = true) as Hd by (by apply andb_true_iff in Hds as [? _]).
    destruct (digit_class d Hd) as (HLF & Hquote & Hletter & Hop & Hpunct).
    cbn [list_ascii_of_string app].
    rewrite ParseNewLine_other by done. cbn [input tokens_ begin_spaces_count_].
    rewrite ParseStrings_other by done. rewrite ParseId_other by done.
    rewrite ParseDoubleChars_other by done. rewrite ParseChars_other by done.
    destruct (read_while_gap isdigit (d :: list_ascii_of_string ds) after Hds eq_refl eq_refl
                Hgap) as (s1 & Hread & Hs1).
    assert (ParseNumbers (holding (d :: list_ascii_of_string ds ++ after)) toks
            = inr (s1, toks ++ [token_type.Number (decimal 0 (String d ds))])) as ->.
    { unfold ParseNumbers.
      cbn [peek good rdbuf eofbit failbit negb andb to_char default from_option id].
      rewrite Hd. unfold get_while. cbn [good rdbuf eofbit failbit negb andb].
      change (d :: list_ascii_of_string ds ++ after)
        with ((d :: list_ascii_of_string ds) ++ after).
      rewrite Hread.
      change (string_of_list_ascii (d :: list_ascii_of_string ds))
        with (String d (string_of_list_ascii (list_ascii_of_string ds))).
      rewrite string_of_list_ascii_of_string. unfold stoi. by rewrite Hrange. }
    eexists. split; [reflexivity|]. by apply SkipSpaces_gap.
  - (* a punctuation character *)
    apply andb_true_iff in Hx as [[[Hpunct Hhash]%andb_true_iff Hquote]%andb_true_iff Hu].
    apply negb_true_iff in Hhash, Hquote, Hu.
    assert (Ascii.eqb c LF = false /\ isalpha c = false /\ isdigit c = false) as (HLF & Ha & Hd).
    { revert Hpunct. by_cases_on_char c. }
    cbn [app].
    rewrite ParseNewLine_other by done. cbn [input tokens_ begin_spaces_count_].
    rewrite ParseStrings_other by done.
    rewrite ParseId_other by (by rewrite Ha, Hu).
    rewrite ParseDoubleChars_alone by done.
    assert (ParseChars indet (holding (c :: after)) toks
            = (holding after, toks ++ [token_type.Char c])) as ->.
    { unfold ParseChars. cbn. by rewrite Hpunct, Hhash. }
    pose proof (stands_at_holding after) as Hs1.
    pass_gap Hgap. eexists. split; [reflexivity|]. by apply SkipSpaces_gap.
  - (* an operator *)
    assert (Ascii.eqb c LF = false /\ quote c = false /\ isalpha c || Ascii.eqb c "_" = false)
      as (HLF & Hquote & Ha).
    { revert Hx. by_cases_on_char c. }
    cbn [app].
    rewrite ParseNewLine_other by done. cbn [input tokens_ begin_spaces_count_].
    rewrite ParseStrings_other by done. rewrite ParseId_other by done.
    assert (ParseDoubleChars indet (holding (c :: "="%char :: after)) toks
            = (holding after, toks ++ [operator_token c])) as ->.
    { unfold ParseDoubleChars, operator_token, operator_start in *. cbn.
      rewrite !andb_true_r.
      destruct (Ascii.eqb c "="); [done|]. destruct (Ascii.eqb c "!"); [done|].
      destruct (Ascii.eqb c ">"); [done|]. by destruct (Ascii.eqb c "<"). }
    pose proof (stands_at_holding after) as Hs1.
    pass_gap Hgap. eexists. split; [reflexivity|]. by apply SkipSpaces_gap.
  - (* a string *)
    assert (Ascii.eqb q LF = false) as HLF by (by destruct (quote_cases q Hx) as [-> | ->]).
    cbn [app].
    rewrite ParseNewLine_other by done. cbn [input tokens_ begin_spaces_count_].
    rewrite ParseStrings_literal by done.
    rewrite <- app_assoc. cbn [app]. rewrite read_string_escape by done. cbn [String.append].
    pose proof (stands_at_holding after) as Hs1.
    pass_gap Hgap. eexists. split; [reflexivity|]. by apply SkipSpaces_gap.
Qed.

(** ** The round at the start of a line *)

Lemma count_spaces_run (n : nat) (c : ascii) (r : list ascii) (acc : Z) (cur : ascii) :
  Ascii.eqb c space = false ->
  count_spaces (replicate n space ++ c :: r) acc cur
  = (acc + Z.of_nat n, c, mkStream r false false).
Proof.
  intros Hc. revert acc cur. induction n as [|n IH]; intros acc cur.
  - cbn. by rewrite Hc, Z.add_0_r.
  - cbn [replicate app count_spaces]. rewrite Ascii.eqb_refl, IH. do 2 f_equal. lia.
Qed.

(** [ParseIndent] in front of a lexeme two spaces a level in. *)
Lemma ParseIndent_levels indet (from to : nat) (c : ascii) (r : list ascii)
    (toks : list Token) :
  Ascii.eqb c space = false -> Ascii.eqb c LF = false -> Ascii.eqb c hash = false ->
  ParseIndent indet
    (mkLexer (holding (replicate (2 * to) space ++ c :: r)) toks (2 * Z.of_nat from))
  = mkLexer (holding (c :: r)) (toks ++ step_tokens from to) (2 * Z.of_nat to).
Proof.
  intros Hspace HLF Hhash. unfold ParseIndent.
  cbn [input tokens_ begin_spaces_count_ good rdbuf eofbit failbit negb andb].
  rewrite count_spaces_run by done.
  cbn [rdstate_is_eofbit eofbit failbit andb negb putback peek good rdbuf to_char default
       from_option id].
  rewrite HLF, Hhash. cbn [orb].
  replace (0 + Z.of_nat (2 * to)) with (2 * Z.of_nat to) by lia.
  f_equal. f_equal. unfold INDENT_SPACES_COUNT, step_tokens.
  replace (2 * Z.of_nat to - 2 * Z.of_nat from) with ((Z.of_nat to - Z.of_nat from) * 2) by lia.
  rewrite Z.quot_mul by lia.
  destruct (Nat.ltb_spec from to) as [Hlt|Hge].
  - destruct (Z.ltb_spec 0 (Z.of_nat to - Z.of_nat from)); [|lia]. f_equal. lia.
  - destruct (Z.ltb_spec 0 (Z.of_nat to - Z.of_nat from)); [lia|].
    destruct (Z.ltb_spec (Z.of_nat to - Z.of_nat from) 0).
    + f_equal. lia.
    + by replace (from - to)%nat with 0%nat by lia;
        replace (Z.to_nat (Z.abs (Z.of_nat to - Z.of_nat from))) with 0%nat by lia.
Qed.

(** A round whose [ParseNewLine] stops in front of a character goes on as a
    round that starts there. *)
Lemma body_after_newline indet (lx : Lexer) (c : ascii) (r : list ascii) (toks : list Token)
    (b : Z) :
  ParseNewLine indet lx = mkLexer (holding (c :: r)) toks b -> Ascii.eqb c LF = false ->
  ParseTokens_body indet lx = ParseTokens_body indet (mkLexer (holding (c :: r)) toks b).
Proof. intros Hlx Hc. unfold ParseTokens_body. rewrite Hlx. by rewrite ParseNewLine_other. Qed.

(** The round at a newline takes the newline, the indentation and the first
    lexeme of the line. *)
Lemma body_starts_a_line indet (from to : nat) (x : lexeme_text) (after : list ascii)
    (toks : list Token) (t : Token) :
  last toks = Some t -> lexeme t -> writable x = true -> gap after ->
  exists s',
    ParseTokens_body indet
      (mkLexer (holding (LF :: replicate (2 * to) space ++ source_of x ++ after)) toks
               (2 * Z.of_nat from))
    = inr (mkLexer s'
             (toks ++ token_type.Newline :: step_tokens from to ++ [token_of x])
             (2 * Z.of_nat to)) /\
    stands_at (past_gap after) s'.
Proof.
  intros Hlast Ht Hx Hgap.
  destruct (first_char x Hx) as (c & r & Hsrc & HLF & Hspace & Hhash).
  destruct (body_takes_a_lexeme indet x after
              (toks ++ token_type.Newline :: step_tokens from to) (2 * Z.of_nat to) Hx Hgap)
    as (s' & Hbody & Hs').
  exists s'. split; [|done].
  rewrite <- app_assoc in Hbody. cbn [app] in Hbody.
  rewrite <- Hbody. clear Hbody. rewrite Hsrc. cbn [app].
  apply body_after_newline; [|done].
  rewrite ParseNewLine_newline.
  assert (negb (empty toks) && back_ne toks token_type.Newline = true) as ->.
  { unfold back_ne. rewrite Hlast. destruct toks; [done|]. cbn.
    unfold Token_ne. destruct (Token_eq t token_type.Newline) eqn:Heq; [|done].
    apply Token_eq_Newline in Heq. by destruct Ht as (_ & ? & _). }
  rewrite ParseIndent_levels by done.
  unfold emplace_back. by rewrite <- app_assoc.
Qed.

(** ** The loop over a line, and over the lines *)

Lemma render_cons (x : lexeme_text) (xs : list lexeme_text) :
  render (x :: xs) = source_of x ++ match xs with [] => [] | _ => space :: render xs end.
Proof. destruct xs; [by rewrite app_nil_r | done]. Qed.

Lemma render_first_char (x : lexeme_text) (xs : list lexeme_text) :
  writable x = true ->
  exists (c : ascii) (r : list ascii),
    render (x :: xs) = c :: r /\ Ascii.eqb c LF = false /\ Ascii.eqb c space = false.
Proof.
  intros Hx. destruct (first_char x Hx) as (c & r & Hsrc & HLF & Hsp & _).
  rewrite render_cons, Hsrc. by eexists _, _.
Qed.

Lemma gap_in_line (xs : list lexeme_text) (cont : list ascii) :
  forallb writable xs = true -> line_end cont ->
  gap (match xs with [] => [] | _ => space :: render xs end ++ cont) /\
  past_gap (match xs with [] => [] | _ => space :: render xs end ++ cont) = render xs ++ cont.
Proof.
  intros Hxs Hcont. destruct xs as [|y ys].
  - cbn [app render]. destruct Hcont as [->|(r & ->)]; split; try done.
    + by left.
    + right. right. by eexists.
  - cbn [forallb] in Hxs. apply andb_true_iff in Hxs as [Hy _].
    destruct (render_first_char y ys Hy) as (c & r & Hr & _ & Hsp).
    rewrite Hr. cbn [app past_gap]. split; [|done].
    right. left. by eexists _, _.
Qed.

Lemma loop_over_a_line indet (xs : list lexeme_text) :
  forall (toks : list Token) (b : Z) (fuel : nat) (cont : list ascii) (s : istream),
    forallb writable xs = true -> line_end cont -> stands_at (render xs ++ cont) s ->
    exists s',
      ParseTokens_loop (length xs + fuel) indet (mkLexer s toks b)
      = ParseTokens_loop fuel indet (mkLexer s' (toks ++ map token_of xs) b) /\
      stands_at cont s'.
Proof.
  induction xs as [|x xs IH]; intros toks b fuel cont s Hxs Hcont Hs.
  - exists s. cbn. by rewrite app_nil_r.
  - cbn [forallb] in Hxs. apply andb_true_iff in Hxs as [Hx Hxs].
    destruct (render_first_char x xs Hx) as (c & r & Hr & HLF & Hsp).
    rewrite Hr in Hs. cbn in Hs. subst s.
    cbn [length Nat.add]. rewrite ParseTokens_loop_round.
    change (c :: r ++ cont) with ((c :: r) ++ cont). rewrite <- Hr.
    rewrite render_cons, <- app_assoc.
    destruct (gap_in_line xs cont Hxs Hcont) as [Hgap Hpast].
    destruct (body_takes_a_lexeme indet x _ toks b Hx Hgap) as (s1 & -> & Hs1).
    rewrite Hpast in Hs1.
    destruct (IH (toks ++ [token_of x]) b fuel cont s1 Hxs Hcont Hs1) as (s' & -> & Hs').
    exists s'. split; [|done]. by rewrite <- app_assoc.
Qed.

Lemma token_of_lexeme (x : lexeme_text) : writable x = true -> lexeme (token_of x).
Proof.
  destruct x as [s|ds|c|c|q content]; cbn [writable token_of].
  - intros Hs. destruct (ParseKeyword s) as [k|] eqn:Hk; cbn.
    + by eapply ParseKeyword_lexeme.
    + by repeat split.
  - intros [[Hne Hds]%andb_true_iff Hrange]%andb_true_iff.
    repeat split; try done.
    + by apply (decimal_nonneg ds 0).
    + by apply Z.leb_le.
  - intros [[[Hpunct Hhash]%andb_true_iff _]%andb_true_iff _]%andb_true_iff.
    repeat split; try done. intros ->. done.
  - intros _. unfold operator_token. repeat case_match; by repeat split.
  - intros _. by repeat split.
Qed.

Lemma last_token_of (toks : list Token) (line : list lexeme_text) :
  line <> [] -> forallb writable line = true ->
  exists t, last (toks ++ map token_of line) = Some t /\ lexeme t.
Proof.
  intros Hne Hxs. destruct line as [|y ys _] using rev_ind; [done|].
  rewrite forallb_app in Hxs. apply andb_true_iff in Hxs as [_ Hy].
  cbn in Hy. rewrite andb_true_r in Hy.
  exists (token_of y). rewrite map_app, app_assoc. cbn [map]. rewrite last_snoc.
  split; [done | by apply token_of_lexeme].
Qed.

Lemma written_spec (line : list lexeme_text) :
  written line = true -> line <> [] /\ forallb writable line = true.
Proof. by destruct line. Qed.

Lemma render_lines_end (lines : list (nat * list lexeme_text)) (cont : list ascii) :
  line_end cont -> line_end (render_lines lines ++ cont).
Proof. intros Hcont. destruct lines as [|[k line] rest]; [done|]. right. by eexists. Qed.

Lemma loop_over_the_lines indet (lines : list (nat * list lexeme_text)) :
  forall (from : nat) (toks : list Token) (t : Token) (fuel : nat) (cont : list ascii)
         (s : istream),
    last toks = Some t -> lexeme t ->
    forallb (fun l => written l.2) lines = true ->
    line_end cont -> stands_at (render_lines lines ++ cont) s ->
    exists s' : istream,
      ParseTokens_loop (lexemes lines + fuel) indet (mkLexer s toks (2 * Z.of_nat from))
      = ParseTokens_loop fuel indet
          (mkLexer s' (toks ++ tokens_of_lines from lines)
                   (2 * Z.of_nat (final_level from lines))) /\
      stands_at cont s'.
Proof.
  induction lines as [|[to line] rest IH];
    intros from toks t fuel cont s Hlast Ht Hlines Hcont Hs.
  - exists s. cbn. by rewrite app_nil_r.
  - cbn [forallb snd] in Hlines. apply andb_true_iff in Hlines as [Hline Hrest].
    apply written_spec in Hline as [Hne Hline].
    destruct line as [|x xs]; [done|].
    pose proof Hline as Hline'. cbn [forallb] in Hline'.
    apply andb_true_iff in Hline' as [Hx Hxs].
    cbn [render_lines app stands_at] in Hs. subst s.
    cbn [lexemes length Nat.add]. rewrite ParseTokens_loop_round.
    rewrite render_cons, <- !app_assoc.
    pose proof (render_lines_end rest cont Hcont) as Hend.
    destruct (gap_in_line xs (render_lines rest ++ cont) Hxs Hend) as [Hgap Hpast].
    destruct (body_starts_a_line indet from to x _ toks t Hlast Ht Hx Hgap)
      as (s1 & -> & Hs1).
    rewrite Hpast in Hs1.
    rewrite <- Nat.add_assoc.
    destruct (loop_over_a_line indet xs
                (toks ++ token_type.Newline :: step_tokens from to ++ [token_of x])
                (2 * Z.of_nat to) (lexemes rest + fuel) (render_lines rest ++ cont) s1 Hxs
                Hend Hs1) as (s2 & -> & Hs2).
    destruct (last_token_of (toks ++ token_type.Newline :: step_tokens from to) (x :: xs))
      as (t' & Hlast' & Ht'); [done..|].
    destruct (IH to ((toks ++ token_type.Newline :: step_tokens from to ++ [token_of x])
                     ++ map token_of xs) t' fuel cont s2) as (s' & -> & Hs'); try done.
    { rewrite <- Hlast'. f_equal. cbn [map]. rewrite <- !app_assoc. cbn [app].
      by rewrite <- !app_assoc. }
    exists s'. split; [|done]. f_equal. f_equal.
    cbn [tokens_of_lines map]. rewrite <- !app_assoc. cbn [app]. by rewrite <- !app_assoc.
Qed.

(** The tokens of lines end in the token of a lexeme. *)
Lemma last_token_of_lines (rest : list (nat * list lexeme_text)) :
  forall (toks : list Token) (from : nat) (t : Token),
    last toks = Some t -> lexeme t ->
    forallb (fun l => written l.2) rest = true ->
    exists t', last (toks ++ tokens_of_lines from rest) = Some t' /\ lexeme t'.
Proof.
  induction rest as [|[to line] rest IH]; intros toks from t Hlast Ht Hrest.
  - rewrite app_nil_r. by exists t.
  - cbn [forallb snd] in Hrest. apply andb_true_iff in Hrest as [Hline Hrest].
    apply written_spec in Hline as [Hne Hline].
    destruct (last_token_of (toks ++ token_type.Newline :: step_tokens from to) line Hne
                Hline) as (t' & Hlast' & Ht').
    cbn [tokens_of_lines].
    replace (toks ++ token_type.Newline :: step_tokens from to ++ map token_of line
               ++ tokens_of_lines to rest)
      with (((toks ++ token_type.Newline :: step_tokens from to) ++ map token_of line)
              ++ tokens_of_lines to rest).
    + by apply (IH _ _ t').
    + rewrite <- !app_assoc. cbn [app]. by rewrite <- ?app_assoc.
Qed.

(** The loop over a text of lines, up to what follows the last line. *)
Lemma loop_over_a_text indet (first : list lexeme_text) (rest : list (nat * list lexeme_text))
    (cont : list ascii) (fuel : nat) :
  written first = true -> forallb (fun l => written l.2) rest = true -> line_end cont ->
  exists (s' : istream) (t : Token),
    ParseTokens_loop (length first + lexemes rest + fuel) indet
      (mkLexer (holding (render first ++ render_lines rest ++ cont)) [] 0)
    = ParseTokens_loop fuel indet
        (mkLexer s' (map token_of first ++ tokens_of_lines 0 rest)
                 (2 * Z.of_nat (final_level 0 rest))) /\
    stands_at cont s' /\
    last (map token_of first ++ tokens_of_lines 0 rest) = Some t /\ lexeme t.
Proof.
  intros [Hne Hfirst]%written_spec Hrest Hcont.
  rewrite <- Nat.add_assoc.
  destruct (loop_over_a_line indet first [] 0 (lexemes rest + fuel)
              (render_lines rest ++ cont) (holding (render first ++ render_lines rest ++ cont))
              Hfirst (render_lines_end rest cont Hcont) (stands_at_holding _))
    as (s1 & -> & Hs1).
  destruct (last_token_of [] first Hne Hfirst) as (t & Hlast & Ht).
  destruct (loop_over_the_lines indet rest 0 ([] ++ map token_of first) t fuel cont s1
              Hlast Ht Hrest Hcont Hs1) as (s2 & Hloop & Hs2).
  change (2 * Z.of_nat 0) with 0 in Hloop. rewrite Hloop.
  destruct (last_token_of_lines rest (map token_of first) 0%nat t Hlast Ht Hrest)
    as (t' & Hlast' & Ht').
  by exists s2, t'.
Qed.

(** A text of lines of writable lexemes, one space between each two lexemes
    of a line and two spaces a level in front of each line after the first,
    is lexed, one lexeme a round, as what it stands for: the tokens of the
    lexemes in their order, a [Newline] after each line, and at the start
    of each line as many [Indent]s as it is levels deeper than the line
    before, or as many [Dedent]s as it is levels higher.  The levels still
    open after the last line are not closed. *)
Theorem ParseTokens_lines (fuel : nat) (indet : ascii) (first : list lexeme_text)
    (rest : list (nat * list lexeme_text)) :
  written first = true ->
  forallb (fun l => written l.2) rest = true ->
  ParseTokens (S (length first + lexemes rest) + fuel) indet (render first ++ render_lines rest)
  = Some (inr (map token_of first ++ tokens_of_lines 0 rest
               ++ [token_type.Newline; token_type.Eof])).
Proof.
  intros Hfirst Hrest. unfold ParseTokens.
  replace (S (length first + lexemes rest) + fuel)%nat
    with (length first + lexemes rest + S fuel)%nat by lia.
  destruct (loop_over_a_text indet first rest [] (S fuel) Hfirst Hrest)
    as (s' & t & Hloop & Hs' & Hlast & (_ & HN & _ & HD & _)); [by left|].
  rewrite app_nil_r in Hloop. rewrite Hloop.
  destruct (ParseTokens_loop_at_end fuel indet s'
              (map token_of first ++ tokens_of_lines 0 rest)
              (2 * Z.of_nat (final_level 0 rest)) Hs') as (s'' & ->).
  cbn [tokens_]. do 2 f_equal.
  destruct (close_tokens_spec (map token_of first ++ tokens_of_lines 0 rest))
    as [(t' & _ & _ & _ & Hclose)|[Hend _]].
  { rewrite Hclose. symmetry. apply app_assoc. }
  exfalso. rewrite Hlast in Hend. destruct Hend as [Hnil|[[= H]|[= H]]]; [|done..].
  by rewrite Hnil in Hlast.
Qed.

(** ** A newline at the end of the text *)

(** The round at the newline that ends the text: the levels still open are
    closed, and [ParseStrings], called with nothing left to read, takes what
    its uninitialised [quote_type] holds for the character it read. *)
Lemma body_at_the_last_newline indet (toks : list Token) (t : Token) (from : nat) :
  last toks = Some t -> lexeme t ->
  exists s',
    ParseTokens_body indet (mkLexer (holding [LF]) toks (2 * Z.of_nat from))
    = inr (mkLexer s'
             (toks ++ token_type.Newline :: replicate from token_type.Dedent
                ++ if quote indet then [token_type.String ""] else [])
             0) /\
    rdbuf s' = [].
Proof.
  intros Hlast Ht.
  unfold ParseTokens_body. rewrite ParseNewLine_newline.
  assert (negb (empty toks) && back_ne toks token_type.Newline = true) as ->.
  { unfold back_ne. rewrite Hlast. destruct toks; [done|]. cbn.
    unfold Token_ne. destruct (Token_eq t token_type.Newline) eqn:Heq; [|done].
    apply Token_eq_Newline in Heq. by destruct Ht as (_ & ? & _). }
  unfold ParseIndent.
  cbn [input tokens_ begin_spaces_count_ good rdbuf eofbit failbit negb andb count_spaces
       rdstate_is_eofbit putback peek setstate_failbit to_char default from_option id].
  change (Ascii.eqb "255" LF || Ascii.eqb "255" hash) with false. cbn iota.
  cbn [input tokens_ begin_spaces_count_].
  unfold INDENT_SPACES_COUNT.
  replace (0 - 2 * Z.of_nat from) with ((- Z.of_nat from) * 2) by lia.
  rewrite Z.quot_mul by lia.
  assert (replicate (Z.to_nat (Z.abs (- Z.of_nat from)))
            (if 0 <? - Z.of_nat from then token_type.Indent
             else if - Z.of_nat from <? 0 then token_type.Dedent else token_type.Number 0)
          = replicate from token_type.Dedent) as ->.
  { destruct from as [|from]; [done|].
    destruct (Z.ltb_spec 0 (- Z.of_nat (S from))); [lia|].
    destruct (Z.ltb_spec (- Z.of_nat (S from)) 0); [|lia]. f_equal. lia. }
  unfold ParseStrings.
  cbn [get good rdbuf eofbit failbit negb andb setstate_failbit].
  unfold quote, emplace_back.
  destruct (Ascii.eqb indet apostrophe || Ascii.eqb indet double_quote).
  - cbn [read_string rdbuf eofbit failbit]. finish_round.
    eexists. split; [|by apply SkipSpaces_at_end].
    f_equal. f_equal. rewrite <- !app_assoc. cbn [app]. by rewrite <- ?app_assoc.
  - finish_round. eexists. split; [|by apply SkipSpaces_at_end].
    f_equal. f_equal. rewrite <- !app_assoc. cbn [app]. by rewrite app_nil_r.
Qed.

(** The same text with a newline after its last line: the round at that
    newline closes the levels still open, one [Dedent] each.  In that round
    the lexer reads a variable it has not initialised: [ParseStrings] is
    called at the end of the input, where [get] leaves [quote_type] as it
    was, and should that be a quote the result has an empty [String] token
    that no literal of the text stands for. *)
Theorem ParseTokens_lines_newline (fuel : nat) (indet : ascii) (first : list lexeme_text)
    (rest : list (nat * list lexeme_text)) :
  written first = true ->
  forallb (fun l => written l.2) rest = true ->
  ParseTokens (S (S (length first + lexemes rest)) + fuel) indet
    (render first ++ render_lines rest ++ [LF])
  = Some (inr (map token_of first ++ tokens_of_lines 0 rest
               ++ token_type.Newline :: replicate (final_level 0 rest) token_type.Dedent
               ++ (if quote indet then [token_type.String ""; token_type.Newline] else [])
               ++ [token_type.Eof])).
Proof.
  intros Hfirst Hrest. unfold ParseTokens.
  replace (S (S (length first + lexemes rest)) + fuel)%nat
    with (length first + lexemes rest + S (S fuel))%nat by lia.
  destruct (loop_over_a_text indet first rest [LF] (S (S fuel)) Hfirst Hrest)
    as (s' & t & -> & Hs' & Hlast & Ht); [right; by eexists|].
  cbn in Hs'. subst s'. rewrite ParseTokens_loop_round.
  destruct (body_at_the_last_newline indet _ t (final_level 0 rest) Hlast Ht)
    as (s1 & -> & Hs1).
  match goal with |- context [ParseTokens_loop (S fuel) indet (mkLexer s1 ?toks 0)] =>
    destruct (ParseTokens_loop_at_end fuel indet s1 toks 0 Hs1) as (s2 & ->)
  end.
  cbn [tokens_]. do 2 f_equal.
  set (body := map token_of first ++ tokens_of_lines 0 rest).
  unfold close_tokens, emplace_back, back_ne.
  destruct (quote indet).
  - replace (body ++ token_type.Newline :: replicate (final_level 0 rest) token_type.Dedent
               ++ [token_type.String ""])
      with ((body ++ token_type.Newline :: replicate (final_level 0 rest) token_type.Dedent)
              ++ [token_type.String ""])
      by (rewrite <- !app_assoc; cbn [app]; by rewrite <- ?app_assoc).
    rewrite last_snoc.
    assert (empty ((body ++ token_type.Newline
                      :: replicate (final_level 0 rest) token_type.Dedent)
                   ++ [token_type.String ""]) = false) as ->.
    { by destruct (body ++ _). }
    cbn. subst body. rewrite <- !app_assoc. cbn [app]. by rewrite <- ?app_assoc.
  - rewrite app_nil_r.
    assert (empty (body ++ token_type.Newline
                     :: replicate (final_level 0 rest) token_type.Dedent) = false) as ->.
    { by destruct body. }
    assert (exists t', last (body ++ token_type.Newline
                               :: replicate (final_level 0 rest) token_type.Dedent) = Some t' /\
                       (t' = token_type.Newline \/ t' = token_type.Dedent))
      as (t' & -> & Ht').
    { destruct (final_level 0 rest) as [|n].
      - exists token_type.Newline. cbn [replicate]. by rewrite last_snoc; auto.
      - exists token_type.Dedent. split; [|by right].
        replace (S n) with (n + 1)%nat by lia. rewrite replicate_add. cbn [replicate].
        rewrite app_comm_cons, app_assoc. by rewrite last_snoc. }
    cbn [negb andb]. subst body.
    destruct Ht' as [-> | ->]; cbn; rewrite <- !app_assoc; cbn [app]; by rewrite <- ?app_assoc.
Qed.

End line_facts.

(** * The lexer and the lexical structure of its input *)

Module lexical_facts.
Import parse lexer_spec token_spec string_literal lexical lexer_facts token_facts lexeme_facts.
Local Open Scope list_scope.

(** ** Classes of characters *)








(** ** One character outside a lexeme *)






(** ** Streams between the sub-parsers *)



Lemma steady_end (s : istream) : rdbuf s = [] -> steady s.
Proof. by left. Qed.

(** ** The inner loops *)









(** ** The sub-parsers, one by one *)











(** ** One round, and the loop *)





End lexical_facts.

(** * The cursor over the tokens *)

Module cursor_facts.
Import parse cursor lexer_facts token_facts.
Local Open Scope list_scope.
Local Open Scope nat_scope.

Lemma take_app_replicate {A} (l : list A) (x : A) (n m : nat) :
  n <= m -> take n (l ++ replicate m x) = take n (l ++ replicate n x).
Proof.
  revert l m. induction n as [|n IH]; intros l m Hm; [done|].
  destruct l as [|a l]; cbn [app take].
  - rewrite !take_replicate. f_equal. lia.
  - cbn [firstn]. f_equal. rewrite (IH l m) by lia. by rewrite (IH l (S n)) by lia.
Qed.

Lemma NextTokens_S (n : nat) (lx : Lexer) :
  NextTokens (S n) lx
  = (let '(t, lx1) := NextToken lx in
     let '(ts, lx2) := NextTokens n lx1 in
     (t :: ts, lx2)).
Proof. done. Qed.

(** [n] calls of [NextToken] with the iterator at the token of index [i]. *)
Lemma NextTokens_from (tokens : list Token) (n i : nat) :
  i < length tokens ->
  NextTokens n (mkLexer tokens i)
  = (take n (map Some (drop (S i) tokens) ++ replicate n (Some token_type.Eof)),
     mkLexer tokens (Nat.min (i + n) (length tokens - 1))).
Proof.
  revert i. induction n as [|n IH]; intros i Hi.
  - cbn. do 2 f_equal. lia.
  - cbn [NextTokens]. unfold NextToken. cbn [tokens_ tokens_iterator_].
    destruct (Nat.eqb_spec (S i) (length tokens)) as [Hlast|Hmore].
    + rewrite IH by done. rewrite !drop_ge by lia. cbn. do 2 f_equal. lia.
    + rewrite IH by lia. unfold CurrentToken. cbn [tokens_ tokens_iterator_].
      destruct (lookup_lt_is_Some_2 tokens (S i)) as [t Ht]; [lia|].
      rewrite Ht. rewrite (drop_S _ _ _ Ht).
      rewrite <- (take_app_replicate _ _ n (S n)) by lia.
      f_equal. f_equal. lia.
Qed.

(** Calls of [NextToken] on a lexer just constructed return the tokens after
    the first one in their order and then [Eof] for ever; the iterator goes
    forward one token a call and stays on the last one. *)
Theorem NextToken_walks_the_tokens (tokens : list Token) (n : nat) :
  tokens <> [] ->
  NextTokens n (Lexer_new tokens)
  = (take n (map Some (tail tokens) ++ replicate n (Some token_type.Eof)),
     mkLexer tokens (Nat.min n (length tokens - 1))).
Proof.
  intros Hne. unfold Lexer_new. rewrite NextTokens_from.
  - by destruct tokens.
  - destruct tokens; [done | cbn; lia].
Qed.

(** On the tokens [ParseTokens] returned, the iterator is on a token after
    any number of calls of [NextToken], and each call returns the token the
    iterator is on afterwards: [CurrentToken] never reads past the end. *)
Theorem NextToken_is_CurrentToken (fuel : nat) (indet : ascii) (text : list ascii)
    (toks : list Token) (n : nat) :
  ParseTokens fuel indet text = Some (inr toks) ->
  exists t : Token,
    CurrentToken (NextTokens (S n) (Lexer_new toks)).2 = Some t /\
    last (NextTokens (S n) (Lexer_new toks)).1 = Some (Some t).
Proof.
  intros Htoks.
  assert (exists body, toks = body ++ [token_type.Eof]) as [body ->].
  { apply ParseTokens_raw in Htoks as (raw & _ & [->|[-> _]]); eauto.
    exists (raw ++ [token_type.Newline]). by rewrite <- app_assoc. }
  unfold Lexer_new.
  assert (forall k i, i < length (body ++ [token_type.Eof]) ->
            exists t : Token,
              CurrentToken (NextTokens (S k) (mkLexer (body ++ [token_type.Eof]) i)).2 = Some t /\
              last (NextTokens (S k) (mkLexer (body ++ [token_type.Eof]) i)).1 = Some (Some t))
    as Hgen.
  { induction k as [|k IH]; intros i Hi.
    - cbn [NextTokens]. unfold NextToken. cbn [tokens_ tokens_iterator_].
      destruct (Nat.eqb_spec (S i) (length (body ++ [token_type.Eof]))) as [Hlast|Hmore].
      + exists token_type.Eof. cbn. split; [|done]. unfold CurrentToken. cbn.
        rewrite length_app in Hlast. cbn in Hlast.
        rewrite lookup_app_r by lia. by replace (i - length body) with 0 by lia.
      + destruct (lookup_lt_is_Some_2 (body ++ [token_type.Eof]) (S i)) as [t Ht]; [lia|].
        exists t. unfold CurrentToken. cbn. by rewrite Ht.
    - rewrite NextTokens_S. unfold NextToken. cbn [tokens_ tokens_iterator_].
      destruct (Nat.eqb_spec (S i) (length (body ++ [token_type.Eof]))) as [Hlast|Hmore].
      + destruct (IH i Hi) as (t & H1 & H2). exists t.
        destruct (NextTokens (S k) _) as [ts lx] eqn:Hn. cbn [fst snd] in *.
        split; [done|]. by rewrite last_cons, H2.
      + destruct (IH (S i)) as (t & H1 & H2); [lia|]. exists t.
        destruct (NextTokens (S k) _) as [ts lx] eqn:Hn. cbn [fst snd] in *.
        split; [done|]. by rewrite last_cons, H2. }
  apply Hgen. rewrite length_app. cbn. lia.
Qed.

End cursor_facts.

(** * What execution does to the world *)

Module world_facts.
Import node_spec.


(** ** The output is only written *)

Lemma commutes_ret {S A} (f : S -> S) (a : A) : commutes f (ret a).
Proof. done. Qed.

Lemma commutes_throw {S A} (f : S -> S) (e : Exn) : commutes f (@throw S A e).
Proof. done. Qed.

Lemma commutes_bind {S A B} (f : S -> S) (m : M S A) (k : A -> M S B) :
  commutes f m -> (forall a, commutes f (k a)) -> commutes f (bind m k).
Proof.
  intros Hm Hk s. unfold bind. rewrite Hm.
  destruct (m s) as [[[a|e] s']|]; [apply Hk|done..].
Qed.

Lemma commutes_in_world {A} (before : string) (m : M World A) :
  commutes (shift before) m -> commutes (shift_env before) (in_world m).
Proof.
  intros Hm e. unfold in_world. cbn. rewrite Hm.
  by destruct (m (world e)) as [[r w']|].
Qed.

Lemma commutes_with_closure {A} (before : string) (c : Closure) (m : M Env A) :
  commutes (shift_env before) m -> commutes (shift before) (with_closure c m).
Proof.
  intros Hm w. unfold with_closure.
  change (mkEnv c (shift before w)) with (shift_env before (mkEnv c w)). rewrite Hm.
  by destruct (m (mkEnv c w)) as [[r e']|].
Qed.

Lemma commutes_capture {A} (before : string) (m : M World A) :
  commutes (shift before) (capture m).
Proof.
  intros w. unfold capture. cbn.
  by destruct (m (mkWorld (objects w) "" (holders w))) as [[[a|e] w']|].
Qed.

Lemma commutes_catch_return (before : string) (m : M Env ObjectHolder) :
  commutes (shift_env before) m -> commutes (shift_env before) (catch_return m).
Proof.
  intros Hm e. unfold catch_return. rewrite Hm.
  by destruct (m e) as [[[a|[]] e']|].
Qed.

Lemma commutes_write (before text : string) : commutes (shift before) (write text).
Proof. intros w. unfold write, modify, shift. cbn. by rewrite string_app_assoc. Qed.

Lemma commutes_instance_at (before : string) (l : loc) : commutes (shift before) (instance_at l).
Proof. intros w. unfold instance_at. cbn. by destruct (objects w !! l). Qed.

Lemma commutes_set_field (before : string) (l : loc) (field : string) (value : ObjectHolder) :
  commutes (shift before) (set_field l field value).
Proof. intros w. unfold set_field, bind, instance_at, modify. cbn. by destruct (objects w !! l). Qed.

Lemma commutes_holder_at (before : string) (l : loc) : commutes (shift before) (holder_at l).
Proof. intros w. unfold holder_at. cbn. by destruct (holders w !! l). Qed.

Lemma commutes_move_from (before : string) (l : loc) : commutes (shift before) (move_from l).
Proof. done. Qed.

Lemma commutes_set_var (before : string) (var : string) (value : ObjectHolder) :
  commutes (shift_env before) (set_var var value).
Proof. done. Qed.

Lemma commutes_VariableValue_Execute (before : string) (dotted_ids : list string) :
  commutes (shift_env before) (VariableValue_Execute dotted_ids).
Proof. done. Qed.

Ltac commute :=
  repeat first
    [ assumption
    | apply commutes_ret | apply commutes_throw
    | apply commutes_write | apply commutes_instance_at | apply commutes_set_field
    | apply commutes_holder_at | apply commutes_move_from
    | apply commutes_set_var | apply commutes_VariableValue_Execute
    | apply commutes_capture
    | apply commutes_in_world | apply commutes_with_closure | apply commutes_catch_return
    | apply commutes_bind; [|intros ?]
    | match goal with H : context [commutes] |- _ => apply H end
    | case_match ].

Section Open.
Variable Execute' : Statement -> M Env ObjectHolder.
Variable Print' : ObjectHolder -> M World unit.
Variable before : string.
Hypothesis Execute'_commutes : forall stmt, commutes (shift_env before) (Execute' stmt).
Hypothesis Print'_commutes : forall obj, commutes (shift before) (Print' obj).

Lemma commutes_Call_ (this : loc) (method : string) (actual_args : list ObjectHolder) :
  commutes (shift before) (Call_ Execute' this method actual_args).
Proof. unfold Call_. commute. Qed.

Lemma commutes_Print_ (obj : ObjectHolder) : commutes (shift before) (Print_ Execute' Print' obj).
Proof. unfold Print_. commute. Qed.

Lemma commutes_compare_by_method (method what : string) (lhs rhs : ObjectHolder) :
  commutes (shift before) (compare_by_method Execute' method what lhs rhs).
Proof. unfold compare_by_method. commute. Qed.

Lemma commutes_Equal_ (lhs rhs : ObjectHolder) : commutes (shift before) (Equal_ Execute' lhs rhs).
Proof. unfold Equal_. commute; apply commutes_compare_by_method. Qed.

Lemma commutes_Less_ (lhs rhs : ObjectHolder) : commutes (shift before) (Less_ Execute' lhs rhs).
Proof. unfold Less_. commute; apply commutes_compare_by_method. Qed.

Lemma commutes_apply_comparator (cmp : Comparator) (lhs rhs : ObjectHolder) :
  commutes (shift before) (apply_comparator Execute' cmp lhs rhs).
Proof.
  destruct cmp; cbn [apply_comparator];
    unfold NotEqual_, Greater_, LessOrEqual_, GreaterOrEqual_; commute;
    first [apply commutes_Equal_ | apply commutes_Less_].
Qed.

Lemma commutes_execute_args (args : list Statement) :
  commutes (shift_env before) (execute_args Execute' args).
Proof. induction args as [|arg rest IH]; cbn [execute_args]; commute. Qed.

Lemma commutes_Compound_loop (statements : list Statement) :
  commutes (shift_env before) (Compound_loop Execute' statements).
Proof. induction statements as [|statement rest IH]; cbn [Compound_loop]; commute. Qed.

Lemma commutes_Print_loop (args : list Statement) (is_first : bool) (obj : ObjectHolder) :
  commutes (shift_env before) (Print_loop Execute' Print' is_first obj args).
Proof.
  revert is_first obj. induction args as [|arg rest IH]; intros is_first obj;
    cbn [Print_loop]; commute.
Qed.

Lemma commutes_execute_operands (lhs_ rhs_ : option Statement) :
  commutes (shift_env before) (execute_operands Execute' lhs_ rhs_).
Proof. unfold execute_operands. commute. Qed.

Lemma commutes_Execute_ (stmt : Statement) :
  commutes (shift_env before) (Execute_ Execute' Print' stmt).
Proof.
  pose proof commutes_execute_args. pose proof commutes_Compound_loop.
  pose proof commutes_execute_operands.
  destruct stmt; cbn [Execute_]; unfold arith; commute;
    first [apply commutes_Print_loop | apply commutes_apply_comparator].
Qed.
End Open.

Lemma commutes_Execute (before : string) (fuel : nat) :
  (forall stmt, commutes (shift_env before) (Execute fuel stmt)) /\
  (forall obj, commutes (shift before) (Object_Print fuel obj)).
Proof.
  induction fuel as [|fuel [IHe IHp]]; [done|]. split.
  - intros stmt. by apply commutes_Execute_.
  - intros obj. by apply commutes_Print_.
Qed.

(** What has been written before a node is executed has no part in the
    execution and is not touched by it: with [before] ahead of the output the
    node does what it does without, and [before] is still ahead of what the
    stream holds afterwards. *)
Theorem Execute_only_appends_to_the_output (fuel : nat) (stmt : Statement) (c : Closure)
    (objs : gmap loc ClassInstance) (before out : string) (held : gmap loc ObjectHolder) :
  Execute fuel stmt (mkEnv c (mkWorld objs (before ++ out) held))
  = match Execute fuel stmt (mkEnv c (mkWorld objs out held)) with
    | Some (r, e') =>
        Some (r, mkEnv (closure e')
                       (mkWorld (objects (world e')) (before ++ output (world e'))
                                (holders (world e'))))
    | None => None
    end.
Proof. apply (proj1 (commutes_Execute before fuel) stmt (mkEnv c (mkWorld objs out held))). Qed.

(** ** Instances stay, and stay of their class *)

Lemma same_classes_refl (w : World) : same_classes w w.
Proof. done. Qed.

Lemma same_classes_trans (w1 w2 w3 : World) :
  same_classes w1 w2 -> same_classes w2 w3 -> same_classes w1 w3.
Proof. intros H12 H23 l. by rewrite H23, H12. Qed.

Lemma same_classes_output (w : World) (out : string) (held : gmap loc ObjectHolder) :
  same_classes w (mkWorld (objects w) out held).
Proof. done. Qed.

Section Preserves.
Context {S : Type} (R : S -> S -> Prop).
Hypothesis R_refl : forall s, R s s.
Hypothesis R_trans : forall s1 s2 s3, R s1 s2 -> R s2 s3 -> R s1 s3.

Lemma preserves_ret {A} (a : A) : preserves R (ret a).
Proof. intros s r s' [= <- <-]. apply R_refl. Qed.

Lemma preserves_throw {A} (e : Exn) : preserves R (@throw S A e).
Proof. intros s r s' [= <- <-]. apply R_refl. Qed.

Lemma preserves_bind {A B} (m : M S A) (k : A -> M S B) :
  preserves R m -> (forall a, preserves R (k a)) -> preserves R (bind m k).
Proof.
  intros Hm Hk s r s'. unfold bind.
  destruct (m s) as [[[a|e] s1]|] eqn:Hs; [|intros [= <- <-]; by eapply Hm|done].
  intros Hka. eapply R_trans; [by eapply Hm | by eapply Hk].
Qed.
End Preserves.

Lemma preserves_in_world {A} (m : M World A) :
  preserves same_classes m -> preserves same_classes_env (in_world m).
Proof.
  intros Hm e r e'. unfold in_world.
  destruct (m (world e)) as [[r' w']|] eqn:Hw; [|done].
  intros [= <- <-]. by eapply Hm.
Qed.

Lemma preserves_with_closure {A} (c : Closure) (m : M Env A) :
  preserves same_classes_env m -> preserves same_classes (with_closure c m).
Proof.
  intros Hm w r w'. unfold with_closure.
  destruct (m (mkEnv c w)) as [[r' e']|] eqn:He; [|done].
  intros [= <- <-]. by apply (Hm _ _ _ He).
Qed.

Lemma preserves_capture {A} (m : M World A) :
  preserves same_classes m -> preserves same_classes (capture m).
Proof.
  intros Hm w r w'. unfold capture.
  destruct (m (mkWorld (objects w) "" (holders w))) as [[[a|e] w1]|] eqn:Hw; [| |done];
    intros [= <- <-]; intros l; apply (Hm _ _ _ Hw l).
Qed.

Lemma preserves_catch_return (m : M Env ObjectHolder) :
  preserves same_classes_env m -> preserves same_classes_env (catch_return m).
Proof.
  intros Hm e r e'. unfold catch_return.
  destruct (m e) as [[[a|[]] e1]|] eqn:He; [| | | |done]; intros [= <- <-]; by eapply Hm.
Qed.

Lemma preserves_write (text : string) : preserves same_classes (write text).
Proof. by intros w r w' [= <- <-]. Qed.

Lemma preserves_instance_at (l : loc) : preserves same_classes (instance_at l).
Proof. intros w r w'. unfold instance_at. by destruct (objects w !! l); intros [= <- <-]. Qed.

Lemma preserves_set_field (l : loc) (field : string) (value : ObjectHolder) :
  preserves same_classes (set_field l field value).
Proof.
  intros w r w'. unfold set_field, bind, instance_at, modify.
  destruct (objects w !! l) as [inst|] eqn:Hl; intros [= <- <-]; [|done].
  intros l'. cbn. destruct (decide (l' = l)) as [->|Hne].
  - by rewrite lookup_insert_eq, Hl.
  - by rewrite lookup_insert_ne.
Qed.

Lemma preserves_holder_at (l : loc) : preserves same_classes (holder_at l).
Proof. intros w r w'. unfold holder_at. by destruct (holders w !! l); intros [= <- <-]. Qed.

Lemma preserves_move_from (l : loc) : preserves same_classes (move_from l).
Proof. by intros w r w' [= <- <-]. Qed.

Lemma preserves_set_var (var : string) (value : ObjectHolder) :
  preserves same_classes_env (set_var var value).
Proof. by intros e r e' [= <- <-]. Qed.

Lemma preserves_VariableValue_Execute (dotted_ids : list string) :
  preserves same_classes_env (VariableValue_Execute dotted_ids).
Proof. by intros e r e' [= <- <-]. Qed.

Lemma same_classes_env_refl (e : Env) : same_classes_env e e.
Proof. done. Qed.

Lemma same_classes_env_trans (e1 e2 e3 : Env) :
  same_classes_env e1 e2 -> same_classes_env e2 e3 -> same_classes_env e1 e3.
Proof. apply same_classes_trans. Qed.

Ltac preserve :=
  repeat first
    [ assumption
    | apply (preserves_ret _ same_classes_refl)
    | apply (preserves_ret _ same_classes_env_refl)
    | apply (preserves_throw _ same_classes_refl)
    | apply (preserves_throw _ same_classes_env_refl)
    | apply preserves_write | apply preserves_instance_at | apply preserves_set_field
    | apply preserves_holder_at | apply preserves_move_from
    | apply preserves_set_var | apply preserves_VariableValue_Execute
    | apply preserves_capture
    | apply preserves_in_world | apply preserves_with_closure | apply preserves_catch_return
    | apply (preserves_bind _ same_classes_trans); [|intros ?]
    | apply (preserves_bind _ same_classes_env_trans); [|intros ?]
    | match goal with H : context [preserves] |- _ => apply H end
    | case_match ].

Section Open_preserves.
Variable Execute' : Statement -> M Env ObjectHolder.
Variable Print' : ObjectHolder -> M World unit.
Hypothesis Execute'_preserves : forall stmt, preserves same_classes_env (Execute' stmt).
Hypothesis Print'_preserves : forall obj, preserves same_classes (Print' obj).

Lemma preserves_Call_ (this : loc) (method : string) (actual_args : list ObjectHolder) :
  preserves same_classes (Call_ Execute' this method actual_args).
Proof. unfold Call_. preserve. Qed.

Lemma preserves_Print_ (obj : ObjectHolder) : preserves same_classes (Print_ Execute' Print' obj).
Proof. unfold Print_. preserve. Qed.

Lemma preserves_compare_by_method (method what : string) (lhs rhs : ObjectHolder) :
  preserves same_classes (compare_by_method Execute' method what lhs rhs).
Proof. unfold compare_by_method. preserve. Qed.

Lemma preserves_Equal_ (lhs rhs : ObjectHolder) : preserves same_classes (Equal_ Execute' lhs rhs).
Proof. unfold Equal_. preserve; apply preserves_compare_by_method. Qed.

Lemma preserves_Less_ (lhs rhs : ObjectHolder) : preserves same_classes (Less_ Execute' lhs rhs).
Proof. unfold Less_. preserve; apply preserves_compare_by_method. Qed.

Lemma preserves_apply_comparator (cmp : Comparator) (lhs rhs : ObjectHolder) :
  preserves same_classes (apply_comparator Execute' cmp lhs rhs).
Proof.
  destruct cmp; cbn [apply_comparator];
    unfold NotEqual_, Greater_, LessOrEqual_, GreaterOrEqual_; preserve;
    first [apply preserves_Equal_ | apply preserves_Less_].
Qed.

Lemma preserves_execute_args (args : list Statement) :
  preserves same_classes_env (execute_args Execute' args).
Proof. induction args as [|arg rest IH]; cbn [execute_args]; preserve. Qed.

Lemma preserves_Compound_loop (statements : list Statement) :
  preserves same_classes_env (Compound_loop Execute' statements).
Proof. induction statements as [|statement rest IH]; cbn [Compound_loop]; preserve. Qed.

Lemma preserves_Print_loop (args : list Statement) (is_first : bool) (obj : ObjectHolder) :
  preserves same_classes_env (Print_loop Execute' Print' is_first obj args).
Proof.
  revert is_first obj. induction args as [|arg rest IH]; intros is_first obj;
    cbn [Print_loop]; preserve.
Qed.

Lemma preserves_execute_operands (lhs_ rhs_ : option Statement) :
  preserves same_classes_env (execute_operands Execute' lhs_ rhs_).
Proof. unfold execute_operands. preserve. Qed.

Lemma preserves_Execute_ (stmt : Statement) :
  preserves same_classes_env (Execute_ Execute' Print' stmt).
Proof.
  pose proof preserves_execute_args. pose proof preserves_Compound_loop.
  pose proof preserves_execute_operands.
  destruct stmt; cbn [Execute_]; unfold arith; preserve;
    first [apply preserves_Print_loop | apply preserves_apply_comparator].
Qed.
End Open_preserves.

Lemma preserves_Execute (fuel : nat) :
  (forall stmt, preserves same_classes_env (Execute fuel stmt)) /\
  (forall obj, preserves same_classes (Object_Print fuel obj)).
Proof.
  induction fuel as [|fuel [IHe IHp]]; [done|]. split.
  - intros stmt. by apply preserves_Execute_.
  - intros obj. by apply preserves_Print_.
Qed.

(** No execution makes or loses an instance, or changes the class of one:
    whatever a node does and however it ends, the world afterwards has the
    instances it had before, each of the class it had. *)
Theorem Execute_keeps_the_instances (fuel : nat) (stmt : Statement) (e e' : Env)
    (r : Outcome ObjectHolder) :
  Execute fuel stmt e = Some (r, e') ->
  dom (objects (world e')) = dom (objects (world e)) /\
  forall (l : loc) (inst : ClassInstance),
    objects (world e) !! l = Some inst ->
    exists inst' : ClassInstance,
      objects (world e') !! l = Some inst' /\ cls_ inst' = cls_ inst.
Proof.
  intros Hrun. pose proof (proj1 (preserves_Execute fuel) stmt e r e' Hrun) as Hsame.
  split.
  - apply set_eq. intros l. rewrite !elem_of_dom. specialize (Hsame l).
    destruct (objects (world e') !! l), (objects (world e) !! l); cbn in Hsame;
      try done; split; by eauto.
  - intros l inst Hl. specialize (Hsame l). rewrite Hl in Hsame.
    destruct (objects (world e') !! l) as [inst'|]; [|done].
    exists inst'. split; [done|]. by injection Hsame.
Qed.

End world_facts.

(** * More properties of the nodes *)

Module node_facts.
Import node_spec world_facts.

(** ** Sequences and [return] *)

Lemma Compound_loop_app (Execute' : Statement -> M Env ObjectHolder)
    (pre post : list Statement) (e : Env) :
  Compound_loop Execute' (pre ++ post) e
  = match Compound_loop Execute' pre e with
    | Some (Returns _, e1) => Compound_loop Execute' post e1
    | Some (Throws ex, e1) => Some (Throws ex, e1)
    | None => None
    end.
Proof.
  revert e. induction pre as [|s pre IH]; intros e; [done|].
  cbn [app Compound_loop]. unfold bind.
  destruct (Execute' s e) as [[[v|ex] e1]|]; [|done..].
  apply IH.
Qed.

Lemma Compound_Execute (n : nat) (statements : list Statement) (e : Env) :
  Execute (S n) (Compound statements) e
  = match Compound_loop (Execute n) statements e with
    | Some (Returns _, e1) => Some (Returns HNone, e1)
    | Some (Throws ex, e1) => Some (Throws ex, e1)
    | None => None
    end.
Proof. done. Qed.

(** A [return] ends the method with its value: when the statements before it
    have run and its expression has a value, the body gives that value in
    the environment the expression left, and nothing that follows the
    [return] is executed. *)
Theorem Return_ends_the_method (n : nat) (pre post : list Statement) (s : Statement)
    (e e1 e2 : Env) (u v : ObjectHolder) :
  Execute (S (S n)) (Compound pre) e = Some (Returns u, e1) ->
  Execute n s e1 = Some (Returns v, e2) ->
  Execute (S (S (S n))) (MethodBody (Compound (pre ++ Return s :: post))) e
  = Some (Returns v, e2).
Proof.
  intros Hpre Hs. rewrite Compound_Execute in Hpre.
  change (Execute (S (S (S n))) (MethodBody (Compound (pre ++ Return s :: post))) e)
    with (catch_return (Execute (S (S n)) (Compound (pre ++ Return s :: post))) e).
  unfold catch_return. rewrite Compound_Execute, Compound_loop_app.
  destruct (Compound_loop (Execute (S n)) pre e) as [[[[]|ex] e1']|]; [|done..].
  injection Hpre as _ ->.
  cbn [Compound_loop Execute Execute_]. unfold bind. by rewrite Hs.
Qed.

(** An exception ends the sequence: the statements after the one that throws
    are not executed. *)
Theorem Compound_stops_at_an_exception (n : nat) (pre post : list Statement) (s : Statement)
    (e e1 e2 : Env) (u : ObjectHolder) (ex : Exn) :
  Execute (S n) (Compound pre) e = Some (Returns u, e1) ->
  Execute n s e1 = Some (Throws ex, e2) ->
  Execute (S n) (Compound (pre ++ s :: post)) e = Some (Throws ex, e2).
Proof.
  intros Hpre Hs. rewrite Compound_Execute in Hpre.
  rewrite Compound_Execute, Compound_loop_app.
  destruct (Compound_loop (Execute n) pre e) as [[[[]|ex'] e1']|]; [|done..].
  injection Hpre as _ ->.
  cbn [Compound_loop]. unfold bind at 1. by rewrite Hs.
Qed.

(** ** Fields and aliases *)

(** A value stored in a field through one path is read back through any
    variable that holds the same instance: holders share the instance, they
    do not copy it. *)
Theorem FieldAssignment_is_seen_through_aliases (n : nat) (object_ : list string)
    (field_name : string) (rv : Statement) (x : string) (l : loc) (inst : ClassInstance)
    (v : ObjectHolder) (e e1 : Env) :
  Execute (S n) (VariableValue object_) e = Some (Returns (HInstance l), e) ->
  objects (world e) !! l = Some inst ->
  Execute n rv e = Some (Returns v, e1) ->
  closure e1 !! x = Some (HInstance l) ->
  exists e2 : Env,
    Execute (S n) (FieldAssignment object_ field_name rv) e = Some (Returns v, e2) /\
    closure e2 = closure e1 /\
    forall fuel : nat, Execute (S fuel) (VariableValue [x; field_name]) e2 = Some (Returns v, e2).
Proof.
  intros Hobj Hl Hrv Hx.
  pose proof (proj1 (preserves_Execute n) rv e _ e1 Hrv l) as Hsame.
  rewrite Hl in Hsame. destruct (objects (world e1) !! l) as [inst1|] eqn:Hl1; [|done].
  eexists. split; [|split].
  - cbn [Execute Execute_] in *. unfold bind. rewrite Hobj, Hrv.
    cbn [TryAs_ClassInstance]. unfold in_world, set_field, bind, instance_at, modify.
    rewrite Hl1. reflexivity.
  - done.
  - intros fuel. cbn [Execute Execute_]. unfold VariableValue_Execute.
    cbn [VariableValue_loop deref_closure closure world objects]. rewrite Hx.
    cbn [TryAs_ClassInstance deref_closure]. rewrite lookup_insert_eq.
    cbn [fmap option_fmap option_map fields_]. rewrite lookup_insert_eq.
    by destruct v.
Qed.

(** ** Comparisons *)

Lemma apply_comparator_numbers (Execute' : Statement -> M Env ObjectHolder)
    (cmp : Comparator) (a b : Z) (w : World) :
  apply_comparator Execute' cmp (HNumber a) (HNumber b) w
  = Some (Returns (compare_int cmp a b), w).
Proof.
  destruct cmp; cbn; try done.
  - by destruct (Z.ltb_spec a b), (Z.eqb_spec a b), (Z.ltb_spec b a); cbn; try lia.
  - by destruct (Z.ltb_spec a b), (Z.eqb_spec a b), (Z.leb_spec a b); cbn; try lia.
  - by destruct (Z.ltb_spec a b), (Z.leb_spec b a); cbn; try lia.
Qed.

(** The six comparators on two numbers are the six relations of the
    integers. *)
Theorem Comparison_of_numbers (n : nat) (cmp : Comparator) (lhs rhs : Statement)
    (e e1 e2 : Env) (a b : Z) :
  Execute n lhs e = Some (Returns (HNumber a), e1) ->
  Execute n rhs e1 = Some (Returns (HNumber b), e2) ->
  Execute (S n) (Comparison cmp (Some lhs) (Some rhs)) e
  = Some (Returns (HBool (compare_int cmp a b)), e2).
Proof.
  intros Hlhs Hrhs. cbn [Execute Execute_ execute_operands]. unfold bind.
  rewrite Hlhs, Hrhs. unfold in_world, ret. cbn [fst snd].
  rewrite apply_comparator_numbers. by destruct e2.
Qed.

(** With nothing on the left, only [Equal] and [NotEqual] against nothing
    return; every other comparison raises the error of [Equal], [Less] and
    the comparators built on it included. *)
Lemma comparisons_of_None (fuel : nat) (cmp : Comparator) (rhs : ObjectHolder) (w : World) :
  apply_comparator (Execute fuel) cmp HNone rhs w
  = match cmp, rhs with
    | CmpEqual, HNone => Some (Returns true, w)
    | CmpNotEqual, HNone => Some (Returns false, w)
    | _, _ => Some (Throws (runtime_error "Cannot compare objects for equality"), w)
    end.
Proof. by destruct cmp, rhs. Qed.

(** ** Arithmetic *)

Lemma wrap_int_is_int (z : Z) : is_int z -> wrap_int z = z.
Proof.
  unfold is_int, wrap_int. intros Hz.
  rewrite Z.mod_small by lia. lia.
Qed.

(** On two numbers [Add], [Sub] and [Mult] give the sum, the difference and
    the product whenever an [int] holds it, and [Div] the quotient rounded
    towards zero whenever the divisor is not zero and an [int] holds the
    quotient; a zero divisor raises an error, and the one quotient of two
    [int]s that no [int] holds, [INT_MIN / -1], is a fault: the division
    traps, and nothing is thrown that the program could catch. *)
Theorem arithmetic_of_numbers (n : nat) (lhs rhs : Statement) (e e1 e2 : Env) (a b : Z) :
  Execute n lhs e = Some (Returns (HNumber a), e1) ->
  Execute n rhs e1 = Some (Returns (HNumber b), e2) ->
  (is_int (a + b) ->
   Execute (S n) (Add (Some lhs) (Some rhs)) e = Some (Returns (HNumber (a + b)), e2)) /\
  (is_int (a - b) ->
   Execute (S n) (Sub (Some lhs) (Some rhs)) e = Some (Returns (HNumber (a - b)), e2)) /\
  (is_int (a * b) ->
   Execute (S n) (Mult (Some lhs) (Some rhs)) e = Some (Returns (HNumber (a * b)), e2)) /\
  (b <> 0 -> is_int (Z.quot a b) ->
   Execute (S n) (Div (Some lhs) (Some rhs)) e = Some (Returns (HNumber (Z.quot a b)), e2)) /\
  (b = 0 ->
   Execute (S n) (Div (Some lhs) (Some rhs)) e
   = Some (Throws (runtime_error "division by zero"), e2)) /\
  (a = INT_MIN -> b = -1 ->
   Execute (S n) (Div (Some lhs) (Some rhs)) e
   = Some (Throws (fault "integer division overflow"), e2)).
Proof.
  intros Hlhs Hrhs.
  repeat split; intros; cbn [Execute Execute_ execute_operands arith]; unfold arith, bind;
    cbn [execute_operands]; unfold bind; rewrite Hlhs, Hrhs; unfold ret;
    cbn [fst snd TryAs_Number].
  - by rewrite wrap_int_is_int.
  - by rewrite wrap_int_is_int.
  - by rewrite wrap_int_is_int.
  - destruct (Z.eqb_spec b 0); [done|].
    destruct (Z.eqb_spec a INT_MIN) as [->|_], (Z.eqb_spec b (-1)) as [->|_];
      cbn [andb]; try by rewrite wrap_int_is_int.
    match goal with
    | H : is_int _ |- _ =>
        unfold is_int, INT_MIN in H;
        change (Z.quot (-2147483648) (-1)) with 2147483648 in H; lia
    end.
  - by subst b.
  - by subst a b.
Qed.

(** ** Definitions of classes *)

(** A [ClassDefinition] hands the class its holder holds to the closure,
    under the name of the class, and its holder is empty from then on:
    executed once more, the node finds no class in it, and the name it would
    read is that of no object: a fault. *)
Lemma ClassDefinition_Execute_once (n : nat) (cls_ : loc) (c : Class) (e : Env) :
  holders (world e) !! cls_ = Some (HClass c) ->
  exists e1 : Env,
    Execute (S n) (ClassDefinition cls_) e = Some (Returns HNone, e1) /\
    closure e1 = <[GetName c := HClass c]> (closure e) /\
    objects (world e1) = objects (world e) /\
    output (world e1) = output (world e) /\
    forall e2 : Env,
      holders (world e2) = holders (world e1) ->
      Execute (S n) (ClassDefinition cls_) e2 = Some (Throws (fault "null Class"), e2).
Proof.
  intros Hheld. eexists. split; [|split_and!].
  - cbn [Execute Execute_]. unfold bind, in_world, holder_at. rewrite Hheld.
    cbn [TryAs_Class]. reflexivity.
  - done.
  - done.
  - done.
  - intros [c2 w2] Hw2. cbn [Execute Execute_]. unfold bind, in_world, holder_at.
    cbn [world closure holders] in *. rewrite Hw2, lookup_insert_eq. by destruct w2.
Qed.

(** ** Construction *)

(** A class whose [__init__] does not take the number of arguments given, or
    that has none, is instantiated without a call and without an error: the
    arguments are evaluated and dropped. *)
Theorem NewInstance_without_matching_init (n : nat) (class_inst : loc)
    (args : list Statement) (e e1 : Env) (actual_args : list ObjectHolder)
    (inst : ClassInstance) :
  execute_args (Execute n) args e = Some (Returns actual_args, e1) ->
  objects (world e1) !! class_inst = Some inst ->
  (forall m : Method,
     GetMethod (cls_ inst) "__init__" = Some m -> length (formal_params m) <> length args) ->
  Execute (S n) (NewInstance class_inst args) e = Some (Returns (HInstance class_inst), e1).
Proof.
  intros Hargs Hinst Hinit. cbn [Execute Execute_]. unfold bind at 1. rewrite Hargs.
  unfold bind at 1. unfold in_world at 1, instance_at. rewrite Hinst.
  assert (HasMethod inst "__init__" (length args) = false) as ->.
  { destruct (HasMethod inst "__init__" (length args)) eqn:Hhas; [|done].
    apply HasMethod_spec in Hhas as (m & Hm & Hlen). by destruct (Hinit m Hm). }
  by destruct e1.
Qed.

(** ** The method table *)

Lemma store_methods_None (ms : list Method) (table : gmap string Method) (n : string) :
  store_methods ms table !! n = None <->
  table !! n = None /\ Forall (fun m => name m <> n) ms.
Proof.
  induction ms as [|m ms IH] using rev_ind.
  - cbn. split; [by intros ? | by intros [? _]].
  - rewrite store_methods_snoc, Forall_app, Forall_singleton.
    rewrite lookup_insert_None, IH. tauto.
Qed.

(** A name is resolved by no method exactly when neither the class nor its
    parent declares a method of that name themselves. *)
Theorem GetMethod_None (c : Class) (n : string) :
  GetMethod c n = None <->
  Forall (fun m => name m <> n) (methods_ c) /\
  match parent_ c with
  | Some parent => Forall (fun m => name m <> n) (methods_ parent)
  | None => True
  end.
Proof.
  unfold GetMethod, name_to_method_. rewrite store_methods_None.
  destruct (parent_ c) as [parent|].
  - rewrite store_methods_None, lookup_empty. tauto.
  - rewrite lookup_empty. tauto.
Qed.

(** ** Printing *)


Lemma Object_Print_literal (n : nat) (stmt : Statement) (obj : ObjectHolder) (text : string)
    (w : World) :
  literal stmt = Some (obj, text) ->
  (if holds obj then Object_Print (S n) obj else write "None") w
  = Some (Returns tt, mkWorld (objects w) (output w ++ text) (holders w)).
Proof. destruct stmt; intros [= <- <-]; done. Qed.

Lemma Execute_literal (n : nat) (stmt : Statement) (obj : ObjectHolder) (text : string)
    (e : Env) :
  literal stmt = Some (obj, text) -> Execute (S n) stmt e = Some (Returns obj, e).
Proof. destruct stmt; intros [= <- <-]; done. Qed.

(** The loop of [Print] past its first argument. *)
Lemma Print_loop_literals (n : nat) (args : list Statement) :
  forall (shown : list (ObjectHolder * string)) (obj : ObjectHolder) (c : Closure)
         (objs : gmap loc ClassInstance) (out : string) (held : gmap loc ObjectHolder),
    mapM literal args = Some shown ->
    Print_loop (Execute (S n)) (Object_Print (S n)) false obj args
      (mkEnv c (mkWorld objs out held))
    = Some (Returns (default obj (last shown.*1)),
            mkEnv c (mkWorld objs (out ++ foldr (fun t acc => " " ++ t ++ acc) "" shown.*2)
                             held)).
Proof.
  induction args as [|arg rest IH]; intros shown obj c objs out held Hshown.
  - injection Hshown as <-. cbn. by rewrite string_app_nil_r.
  - cbn [mapM] in Hshown. apply bind_Some in Hshown as ([v text] & Harg & Hshown).
    apply bind_Some in Hshown as (shown' & Hrest & [= <-]).
    cbn [Print_loop]. unfold bind at 1. unfold in_world at 1. cbn [write modify world closure].
    unfold write at 1, modify at 1. cbn [objects output].
    unfold bind at 1. rewrite (Execute_literal _ _ _ _ _ Harg).
    unfold bind at 1. unfold in_world at 1. cbn [world closure].
    rewrite (Object_Print_literal _ _ _ _ _ Harg). cbn [objects output].
    cbn [holders]. rewrite (IH shown' v c objs _ held Hrest). cbn [fmap list_fmap fst snd foldr].
    rewrite last_cons. rewrite !string_app_assoc.
    by destruct (last shown'.*1).
Qed.

Lemma join_cons (text : string) (texts : list string) :
  join (text :: texts) = (text ++ foldr (fun t acc => " " ++ t ++ acc) "" texts)%string.
Proof.
  revert text. induction texts as [|t texts IH]; intros text.
  - cbn. by rewrite string_app_nil_r.
  - change (join (text :: t :: texts)) with (text ++ " " ++ join (t :: texts))%string.
    by rewrite IH.
Qed.

(** [print] of literals writes their texts with one space between each two
    and a newline after the last, [None] for the literal of nothing, and
    returns the value of the last one; with no argument it writes the
    newline alone. *)
Theorem Print_of_literals (n : nat) (args : list Statement)
    (shown : list (ObjectHolder * string)) (e : Env) :
  mapM literal args = Some shown ->
  Execute (S (S n)) (Print args) e
  = Some (Returns (default HNone (last shown.*1)),
          mkEnv (closure e)
                (mkWorld (objects (world e)) (output (world e) ++ join shown.*2 ++ endl)
                         (holders (world e)))).
Proof.
  intros Hshown. destruct e as [c [objs out held]]. cbn [closure world objects output holders].
  change (Execute (S (S n)) (Print args))
    with (Execute_ (Execute (S n)) (Object_Print (S n)) (Print args)).
  cbn [Execute_]. unfold bind at 1.
  assert (Print_loop (Execute (S n)) (Object_Print (S n)) true HNone args
            (mkEnv c (mkWorld objs out held))
          = Some (Returns (default HNone (last shown.*1)),
                  mkEnv c (mkWorld objs (out ++ join shown.*2) held))) as ->.
  { destruct args as [|arg rest].
    - injection Hshown as <-. cbn. by rewrite string_app_nil_r.
    - cbn [mapM] in Hshown. apply bind_Some in Hshown as ([v text] & Harg & Hshown).
      apply bind_Some in Hshown as (shown' & Hrest & [= <-]).
      cbn [Print_loop]. unfold bind at 1. unfold ret at 1.
      unfold bind at 1. rewrite (Execute_literal _ _ _ _ _ Harg).
      unfold bind at 1. unfold in_world at 1. cbn [world closure].
      rewrite (Object_Print_literal _ _ _ _ _ Harg). cbn [objects output holders].
      rewrite (Print_loop_literals n rest shown' v c objs _ held Hrest).
      cbn [fmap list_fmap fst snd]. rewrite last_cons, join_cons, !string_app_assoc.
      by destruct (last shown'.*1). }
  unfold bind, in_world, write, modify. cbn. by rewrite string_app_assoc.
Qed.

(** [str] gives the text [print] writes: when printing the value of the
    argument writes [text], [Stringify] returns [text] and leaves the stream
    as it was. *)
Theorem Stringify_is_the_text_of_Print (n : nat) (argument : Statement) (obj : ObjectHolder)
    (e e1 : Env) (w2 : World) :
  Execute n argument e = Some (Returns obj, e1) ->
  Object_Print n obj (world e1) = Some (Returns tt, w2) ->
  exists text : string,
    output w2 = (output (world e1) ++ text)%string /\
    Execute (S n) (Stringify argument) e
    = Some (Returns (HString text),
            mkEnv (closure e1) (mkWorld (objects w2) (output (world e1)) (holders w2))).
Proof.
  intros Harg Hprint.
  pose proof (proj2 (commutes_Execute (output (world e1)) n) obj
                (mkWorld (objects (world e1)) "" (holders (world e1)))) as Hframe.
  unfold shift in Hframe at 1. cbn [objects output holders] in Hframe.
  rewrite string_app_nil_r in Hframe.
  assert (mkWorld (objects (world e1)) (output (world e1)) (holders (world e1)) = world e1)
    as Heta by (by destruct (world e1)).
  rewrite Heta, Hprint in Hframe.
  destruct (Object_Print n obj (mkWorld (objects (world e1)) "" (holders (world e1))))
    as [[r w']|] eqn:Hrun; [|done].
  injection Hframe as <- ->. exists (output w'). split; [done|].
  cbn [Execute Execute_]. unfold bind at 1. rewrite Harg.
  assert (holds obj = true) as ->.
  { destruct obj; try done. destruct n; done. }
  cbn [negb]. unfold bind, in_world, capture. rewrite Hrun. done.
Qed.

(** ** The kinds of the results *)

Lemma wrap_int_range (z : Z) : is_int (wrap_int z).
Proof.
  unfold is_int, wrap_int.
  pose proof (Z.mod_pos_bound (z + 2147483648) 4294967296). lia.
Qed.

Ltac run_binds H :=
  unfold arith, execute_operands in H;
  unfold bind, ret, throw, in_world, capture, modify, set_var, instance_at in H;
  cbn in H; repeat (case_match; simplify_eq; cbn in * ); simplify_eq.

(** The operators return a value of their kind whatever their operands are
    and whatever the methods they call do: a comparison, [not], [and] and
    [or] return a [Bool], [str] a [String], and [-], [*] and [/] a [Number]
    that an [int] holds. *)
Theorem Execute_result_kind (fuel : nat) (stmt : Statement) (e e' : Env) (v : ObjectHolder) :
  Execute fuel stmt e = Some (Returns v, e') -> result_kind stmt v.
Proof.
  destruct fuel as [|fuel]; [done|].
  destruct stmt; cbn [Execute Execute_ result_kind]; try done; intros H.
  all: run_binds H; eauto using wrap_int_range.
Qed.

End node_facts.

(** * The theorems at work on the examples *)

(** [Counter] resolves [bump], its last method. *)
Lemma GetMethod_own_last_wins_witness :
  GetMethod examples.Counter "bump" = Some examples.bump.
Proof.
  apply (GetMethod_own_last_wins examples.Counter [examples.init] [] examples.bump);
    [reflexivity | constructor].
Defined.

(** [B] resolves the [f] its parent [A] declares. *)
Lemma GetMethod_parent_own_methods_witness :
  GetMethod examples.parent_class "f" = Some examples.f.
Proof.
  apply (GetMethod_parent_own_methods examples.parent_class examples.grandparent_class
           [] [] examples.f); [reflexivity | constructor | reflexivity | constructor].
Defined.

(** The node of [Thing()] returns the instance at its address. *)
Lemma NewInstance_Execute_returns_member_witness :
  Execute 3 examples.new_Thing.1 examples.factory_env
  = Some (Returns (HInstance 1%nat), examples.factory_env) /\
  HInstance 1%nat = HInstance 1%nat.
Proof.
  split; [vm_compute; reflexivity|].
  apply (NewInstance_Execute_returns_member 3 1%nat [] examples.factory_env
           examples.factory_env (HInstance 1%nat)).
  vm_compute; reflexivity.
Defined.

(** The comparisons of [1] with [2] and of [2] with [1]; of nothing with
    nothing, where [Less] raises and [NotEqual] returns all the same; and of
    an instance that has [__lt__] and no [__eq__] with a number, where
    [Equal] raises and the comparisons that do not come to call it return. *)
Lemma derived_comparisons_witness :
  (NotEqual 1 (HNumber 1) (HNumber 2) (mkWorld ∅ "" ∅) = Some (Returns true, mkWorld ∅ "" ∅) /\
   GreaterOrEqual 1 (HNumber 1) (HNumber 2) (mkWorld ∅ "" ∅)
   = Some (Returns false, mkWorld ∅ "" ∅) /\
   Greater 1 (HNumber 1) (HNumber 2) (mkWorld ∅ "" ∅) = Some (Returns false, mkWorld ∅ "" ∅) /\
   LessOrEqual 1 (HNumber 1) (HNumber 2) (mkWorld ∅ "" ∅)
   = Some (Returns true, mkWorld ∅ "" ∅)) /\
  (Greater 1 (HNumber 2) (HNumber 1) (mkWorld ∅ "" ∅) = Some (Returns true, mkWorld ∅ "" ∅) /\
   LessOrEqual 1 (HNumber 2) (HNumber 1) (mkWorld ∅ "" ∅)
   = Some (Returns false, mkWorld ∅ "" ∅)) /\
  (Less 1 HNone HNone (mkWorld ∅ "" ∅)
   = Some (Throws (runtime_error "Cannot compare objects for equality"), mkWorld ∅ "" ∅) /\
   NotEqual 1 HNone HNone (mkWorld ∅ "" ∅) = Some (Returns false, mkWorld ∅ "" ∅)) /\
  (Equal 3 (HInstance 1%nat) (HNumber 0) samples.small_world
   = Some (Throws (runtime_error "Cannot compare objects for equality"), samples.small_world) /\
   GreaterOrEqual 3 (HInstance 1%nat) (HNumber 0) samples.small_world
   = Some (Returns false, samples.small_world) /\
   Greater 3 (HInstance 1%nat) (HNumber 0) samples.small_world
   = Some (Returns false, samples.small_world) /\
   LessOrEqual 3 (HInstance 1%nat) (HNumber 0) samples.small_world
   = Some (Returns true, samples.small_world)).
Proof.
  destruct (derived_comparisons 1 (HNumber 1) (HNumber 2) (mkWorld ∅ "" ∅))
    as (Hne & Hlt & _).
  destruct (Hlt true (mkWorld ∅ "" ∅) eq_refl) as (Hge & Htrue & _).
  destruct (Htrue eq_refl) as [Hgt Hle].
  destruct (derived_comparisons 1 (HNumber 2) (HNumber 1) (mkWorld ∅ "" ∅))
    as (_ & Hlt' & _).
  destruct (Hlt' false (mkWorld ∅ "" ∅) eq_refl) as (_ & _ & Hfalse).
  destruct (Hfalse eq_refl) as [Heq _].
  destruct (derived_comparisons 1 HNone HNone (mkWorld ∅ "" ∅)) as (Hne0 & _).
  destruct (derived_comparisons 3 (HInstance 1%nat) (HNumber 0) samples.small_world)
    as (_ & Hlts & _).
  destruct (Hlts true samples.small_world eq_refl) as (Hges & Htrues & _).
  destruct (Htrues eq_refl) as [Hgts Hles].
  split_and!.
  - exact (Hne false (mkWorld ∅ "" ∅) eq_refl).
  - exact Hge.
  - exact Hgt.
  - exact Hle.
  - exact (proj1 (Heq false (mkWorld ∅ "" ∅) eq_refl)).
  - exact (proj2 (Heq false (mkWorld ∅ "" ∅) eq_refl)).
  - reflexivity.
  - exact (Hne0 true (mkWorld ∅ "" ∅) eq_refl).
  - reflexivity.
  - exact Hges.
  - exact Hgts.
  - exact Hles.
Defined.

(** Calls on a counter: a name it does not have, [bump] with one argument
    too many, and [bump] as declared. *)
Lemma Call_arity_then_scope_witness :
  objects examples.new_Counter.2 !! 1%nat = Some (mkInstance examples.Counter ∅) /\
  ClassInstance_Call 5 1%nat "reset" [] examples.new_Counter.2
  = Some (Throws (runtime_error "Not implemented"), examples.new_Counter.2) /\
  ClassInstance_Call 5 1%nat "bump" [HNumber 1] examples.new_Counter.2
  = Some (Throws (runtime_error "Not implemented"), examples.new_Counter.2) /\
  ClassInstance_Call 5 1%nat "bump" [] examples.new_Counter.2
  = with_closure (call_closure 1%nat examples.bump []) (Execute 5 (body examples.bump))
      examples.new_Counter.2 /\
  call_closure 1%nat examples.bump [] !! "self" = Some (HInstance 1%nat).
Proof.
  split; [reflexivity|]. split; [|split; [|split]].
  - apply (Call_arity_then_scope 5 1%nat "reset" [] examples.new_Counter.2
             (mkInstance examples.Counter ∅)); [reflexivity | left; reflexivity].
  - apply (Call_arity_then_scope 5 1%nat "bump" [HNumber 1] examples.new_Counter.2
             (mkInstance examples.Counter ∅)); [reflexivity|].
    right. eexists. split; [reflexivity | discriminate].
  - apply (Call_arity_then_scope 5 1%nat "bump" [] examples.new_Counter.2
             (mkInstance examples.Counter ∅)); reflexivity.
  - apply (Call_arity_then_scope 5 1%nat "bump" [] examples.new_Counter.2
             (mkInstance examples.Counter ∅)); [reflexivity..|].
    apply NoDup_singleton.
Defined.

(** Printing an instance whose [__str__] takes no argument: the body is run,
    writes what it writes, and the text it returns is written after that;
    and printing one whose [__str__] wants an argument. *)
Lemma ClassInstance_Print_calls_str_witness :
  ClassInstance_Print 5 1%nat samples.named_world
  = Some (Returns tt,
          mkWorld (objects samples.named_world) ("said asked" ++ endl ++ "a name") ∅) /\
  ClassInstance_Print 3 1%nat examples.loud_world
  = Some (Throws (runtime_error "Not implemented"), examples.loud_world).
Proof.
  split.
  - destruct (ClassInstance_Print_calls_str 5 1%nat samples.named_world
                (mkInstance samples.Named ∅) samples.str eq_refl eq_refl) as [_ Hcall].
    destruct (Hcall eq_refl) as (Hreturns & _).
    destruct (Hreturns (HString "a name")
                (mkEnv (<["self" := HInstance 1%nat]> ∅)
                       (mkWorld (objects samples.named_world) ("said asked" ++ endl) ∅))
                eq_refl) as (Htext & _).
    exact (Htext "a name" eq_refl).
  - apply (ClassInstance_Print_calls_str 3 1%nat examples.loud_world
             (mkInstance examples.Loud ∅) examples.str_of);
      [reflexivity | reflexivity | discriminate].
Defined.

(** The tokens of an [if] with a body of one line. *)
Lemma indent_dedent_balance_witness :
  lexer_spec.even_indentation examples.if_block = true /\
  parse.ParseTokens 20 parse.LF examples.if_block
  = Some (inr [ parse.token_type.If; parse.token_type.Id "x"; parse.token_type.Char ":";
                parse.token_type.Newline; parse.token_type.Indent;
                parse.token_type.Id "y"; parse.token_type.Char "=";
                parse.token_type.Number 1; parse.token_type.Newline;
                parse.token_type.Dedent; parse.token_type.Id "z";
                parse.token_type.Char "="; parse.token_type.Number 2;
                parse.token_type.Newline; parse.token_type.Eof ]) /\
  forall before : list parse.Token,
    before `prefix_of`
      [ parse.token_type.If; parse.token_type.Id "x"; parse.token_type.Char ":";
        parse.token_type.Newline; parse.token_type.Indent;
        parse.token_type.Id "y"; parse.token_type.Char "=";
        parse.token_type.Number 1; parse.token_type.Newline;
        parse.token_type.Dedent; parse.token_type.Id "z";
        parse.token_type.Char "="; parse.token_type.Number 2;
        parse.token_type.Newline; parse.token_type.Eof ] ->
    (lexer_spec.dedents before <= lexer_spec.indents before)%nat.
Proof.
  split; [reflexivity|]. split; [reflexivity|].
  apply (lexer_facts.indent_dedent_balance 20 parse.LF examples.if_block); reflexivity.
Defined.


(** ** The lexer on the examples *)

(** The numbers, names and punctuation of the [if] block. *)
Lemma ParseTokens_well_formed_witness :
  parse.ParseTokens 20 parse.LF examples.if_block = Some (inr samples.if_block_tokens) /\
  (forall n : Z,
     parse.token_type.Number n ∈ samples.if_block_tokens -> (0 <= n <= 2147483647)%Z) /\
  (forall s : string,
     parse.token_type.Id s ∈ samples.if_block_tokens ->
     token_spec.identifier s = true /\ parse.ParseKeyword s = None) /\
  (forall c : ascii,
     parse.token_type.Char c ∈ samples.if_block_tokens ->
     parse.ispunct c = true /\ c <> parse.hash).
Proof.
  split; [reflexivity|].
  apply (token_facts.ParseTokens_well_formed 20 parse.LF examples.if_block); reflexivity.
Defined.

(** Its only [Eof] is the last token. *)
Lemma ParseTokens_Eof_only_last_witness :
  parse.ParseTokens 20 parse.LF examples.if_block = Some (inr samples.if_block_tokens) /\
  exists body : list parse.Token,
    samples.if_block_tokens = (body ++ [parse.token_type.Eof])%list /\
    parse.token_type.Eof ∉ body.
Proof.
  split; [reflexivity|].
  apply (token_facts.ParseTokens_Eof_only_last 20 parse.LF examples.if_block); reflexivity.
Defined.

(** Its [Newline]s stand alone. *)
Lemma ParseTokens_single_newlines_witness :
  parse.ParseTokens 20 parse.LF examples.if_block = Some (inr samples.if_block_tokens) /\
  head samples.if_block_tokens <> Some parse.token_type.Newline /\
  token_spec.no_adjacent_newlines samples.if_block_tokens.
Proof.
  split; [reflexivity|].
  apply (token_facts.ParseTokens_single_newlines 20 parse.LF examples.if_block); reflexivity.
Defined.

(** A tab in front of [x]. *)
Lemma ParseTokens_stuck_on_unlexable_witness :
  lexer_spec.lexable parse.TAB = false /\
  forall fuel : nat, parse.ParseTokens fuel parse.LF [parse.TAB; "x"%char] = None.
Proof.
  split; [reflexivity|].
  apply (lexeme_facts.ParseTokens_stuck_on_unlexable parse.LF parse.TAB ["x"%char]).
  reflexivity.
Defined.

(** The comment [# no] in front of a line [x]. *)
Lemma comment_is_dropped_witness :
(parse.LF ∉ list_ascii_of_string " no") /\
  parse.ParseTokens_loop 5 parse.LF
    (parse.mkLexer
       (parse.mkStream (list_ascii_of_string "# no" ++ parse.LF :: ["x"%char]) false false)
       [] 0)
  = parse.ParseTokens_loop 4 parse.LF
      (parse.mkLexer (parse.mkStream (parse.LF :: ["x"%char]) false false) [] 0).
Proof.
  assert (parse.LF ∉ list_ascii_of_string " no") as Hcomment.
  { unfold parse.LF. cbn. rewrite !not_elem_of_cons. repeat split; try done.
    apply not_elem_of_nil. }
  split; [exact Hcomment|].
  exact (lexeme_facts.comment_is_dropped 4 parse.LF (list_ascii_of_string " no") ["x"%char]
           [] 0 Hcomment).
Defined.

(** Three spaces in front of [x]. *)
Lemma leading_spaces_are_dropped_witness :
  Ascii.eqb "x" parse.space = false /\
  parse.ParseTokens 3 parse.LF (list_ascii_of_string "   x")
  = parse.ParseTokens 2 parse.LF (list_ascii_of_string "x").
Proof.
  split; [reflexivity|].
  apply (lexeme_facts.leading_spaces_are_dropped 2 parse.LF 2 "x"%char []). reflexivity.
Defined.


(** The largest [int], and the number after it. *)
Lemma ParseTokens_number_witness :
  token_spec.digits "2147483647" = true /\
  parse.ParseTokens 2 parse.LF (list_ascii_of_string "2147483647")
  = Some (inr [parse.token_type.Number 2147483647; parse.token_type.Newline;
               parse.token_type.Eof]) /\
  token_spec.digits "2147483648" = true /\
  parse.ParseTokens 2 parse.LF (list_ascii_of_string "2147483648")
  = Some (inl (parse.out_of_range "stoi")).
Proof.
  split; [reflexivity|]. split; [|split; [reflexivity|]].
  - apply (lexeme_facts.ParseTokens_number 0 parse.LF "2147483647"); [discriminate | reflexivity].
  - apply (lexeme_facts.ParseTokens_number 0 parse.LF "2147483648"); [discriminate | reflexivity].
Defined.


(** The literal of [it's] without its closing apostrophe. *)
Lemma ParseTokens_unclosed_literal_witness :
  string_literal.quote parse.apostrophe = true /\
  parse.ParseTokens 2 parse.LF
    (parse.apostrophe :: string_literal.escape parse.apostrophe "it's")
  = Some (inr [parse.token_type.String "it's"; parse.token_type.Newline;
               parse.token_type.Eof]).
Proof.
  split; [reflexivity|].
  apply (lexeme_facts.ParseTokens_unclosed_literal 0 parse.LF parse.apostrophe "it's").
  reflexivity.
Defined.

(** A literal that the end of its line cuts. *)
Lemma ParseTokens_literal_end_of_line_witness :
  string_literal.quote parse.double_quote = true /\
  parse.ParseTokens 1 parse.LF
    (parse.double_quote
       :: string_literal.escape parse.double_quote "ab" ++ parse.LF :: ["c"%char])
  = Some (inl (parse.logic_error "Unexpected end of line")).
Proof.
  split; [reflexivity|].
  apply (lexeme_facts.ParseTokens_literal_end_of_line 0 parse.LF parse.double_quote parse.LF
           "ab" ["c"%char]); reflexivity.
Defined.


(** The three lines of [samples.guarded_print]. *)
Lemma ParseTokens_lines_witness :
  (line_spec.render samples.guard ++ line_spec.render_lines samples.guarded)%list
  = examples.text_of_lines ["if x >= 10 :"; "  print 'hi'"; "y = 2"] /\
  parse.ParseTokens 11 parse.LF
    (line_spec.render samples.guard ++ line_spec.render_lines samples.guarded)%list
  = Some (inr [ parse.token_type.If; parse.token_type.Id "x"; parse.token_type.GreaterOrEq;
                parse.token_type.Number 10; parse.token_type.Char ":";
                parse.token_type.Newline; parse.token_type.Indent;
                parse.token_type.Print; parse.token_type.String "hi";
                parse.token_type.Newline; parse.token_type.Dedent;
                parse.token_type.Id "y"; parse.token_type.Char "=";
                parse.token_type.Number 2;
                parse.token_type.Newline; parse.token_type.Eof ]).
Proof.
  split; [reflexivity|].
  apply (line_facts.ParseTokens_lines 0 parse.LF samples.guard samples.guarded); reflexivity.
Defined.

(** An [if] and its body, then a newline: with a newline, and with an
    apostrophe, in the variable that is not initialised. *)
Lemma ParseTokens_lines_newline_witness :
  (line_spec.render samples.guard ++ line_spec.render_lines samples.body ++ [parse.LF])%list
  = (examples.text_of_lines ["if x >= 10 :"; "  print 'hi'"] ++ [parse.LF])%list /\
  parse.ParseTokens 9 parse.LF
    (line_spec.render samples.guard ++ line_spec.render_lines samples.body ++ [parse.LF])%list
  = Some (inr [ parse.token_type.If; parse.token_type.Id "x"; parse.token_type.GreaterOrEq;
                parse.token_type.Number 10; parse.token_type.Char ":";
                parse.token_type.Newline; parse.token_type.Indent;
                parse.token_type.Print; parse.token_type.String "hi";
                parse.token_type.Newline; parse.token_type.Dedent;
                parse.token_type.Eof ]) /\
  parse.ParseTokens 9 parse.apostrophe
    (line_spec.render samples.guard ++ line_spec.render_lines samples.body ++ [parse.LF])%list
  = Some (inr [ parse.token_type.If; parse.token_type.Id "x"; parse.token_type.GreaterOrEq;
                parse.token_type.Number 10; parse.token_type.Char ":";
                parse.token_type.Newline; parse.token_type.Indent;
                parse.token_type.Print; parse.token_type.String "hi";
                parse.token_type.Newline; parse.token_type.Dedent;
                parse.token_type.String ""; parse.token_type.Newline;
                parse.token_type.Eof ]).
Proof.
  split; [reflexivity|]. split.
  - apply (line_facts.ParseTokens_lines_newline 0 parse.LF samples.guard samples.body);
      reflexivity.
  - apply (line_facts.ParseTokens_lines_newline 0 parse.apostrophe samples.guard samples.body);
      reflexivity.
Defined.

(** Four calls of [NextToken] on the tokens of [x]. *)
Lemma NextToken_walks_the_tokens_witness :
  cursor.NextTokens 4
    (cursor.Lexer_new
       [parse.token_type.Id "x"; parse.token_type.Newline; parse.token_type.Eof])
  = ([Some parse.token_type.Newline; Some parse.token_type.Eof; Some parse.token_type.Eof;
      Some parse.token_type.Eof],
     cursor.mkLexer
       [parse.token_type.Id "x"; parse.token_type.Newline; parse.token_type.Eof] 2).
Proof.
  apply (cursor_facts.NextToken_walks_the_tokens
           [parse.token_type.Id "x"; parse.token_type.Newline; parse.token_type.Eof] 4).
  discriminate.
Defined.

(** Twenty calls of [NextToken] on the tokens of the [if] block. *)
Lemma NextToken_is_CurrentToken_witness :
  parse.ParseTokens 20 parse.LF examples.if_block = Some (inr samples.if_block_tokens) /\
  exists t : parse.Token,
    cursor.CurrentToken (cursor.NextTokens 20 (cursor.Lexer_new samples.if_block_tokens)).2
    = Some t /\
    last (cursor.NextTokens 20 (cursor.Lexer_new samples.if_block_tokens)).1 = Some (Some t).
Proof.
  split; [reflexivity|].
  apply (cursor_facts.NextToken_is_CurrentToken 20 parse.LF examples.if_block
           samples.if_block_tokens 19).
  reflexivity.
Defined.

(** ** The nodes on the examples *)

(** The run of the factory program. *)
Lemma Execute_keeps_the_instances_witness :
  exists (r : Outcome ObjectHolder) (e' : Env),
    Execute 10 examples.factory_program examples.factory_env = Some (r, e') /\
    dom (objects (world e')) = dom (objects (world examples.factory_env)) /\
    forall (l : loc) (inst : ClassInstance),
      objects (world examples.factory_env) !! l = Some inst ->
      exists inst' : ClassInstance,
        objects (world e') !! l = Some inst' /\ cls_ inst' = cls_ inst.
Proof.
  destruct (Execute 10 examples.factory_program examples.factory_env) as [[r e']|] eqn:Hrun;
    [|discriminate Hrun].
  exists r, e'. split; [reflexivity|].
  exact (world_facts.Execute_keeps_the_instances 10 examples.factory_program
           examples.factory_env e' r Hrun).
Defined.

(** [x = 1; return x; print 'unreachable']. *)
Lemma Return_ends_the_method_witness :
  Execute 3 (Compound [samples.assign_x]) samples.empty_env
  = Some (Returns HNone, samples.x_is_1) /\
  Execute 1 (VariableValue ["x"]) samples.x_is_1 = Some (Returns (HNumber 1), samples.x_is_1) /\
  Execute 4
    (MethodBody
       (Compound ([samples.assign_x] ++ Return (VariableValue ["x"]) :: [samples.unreachable])))
    samples.empty_env
  = Some (Returns (HNumber 1), samples.x_is_1).
Proof.
  split; [reflexivity|]. split; [reflexivity|].
  apply (node_facts.Return_ends_the_method 1 [samples.assign_x] [samples.unreachable]
           (VariableValue ["x"]) samples.empty_env samples.x_is_1 samples.x_is_1
           HNone (HNumber 1)); reflexivity.
Defined.

(** [x = 1; x / 0; print 'unreachable']. *)
Lemma Compound_stops_at_an_exception_witness :
  Execute 3 (Compound [samples.assign_x]) samples.empty_env
  = Some (Returns HNone, samples.x_is_1) /\
  Execute 2 samples.x_by_zero samples.x_is_1
  = Some (Throws (runtime_error "division by zero"), samples.x_is_1) /\
  Execute 3 (Compound ([samples.assign_x] ++ samples.x_by_zero :: [samples.unreachable]))
    samples.empty_env
  = Some (Throws (runtime_error "division by zero"), samples.x_is_1).
Proof.
  split; [reflexivity|]. split; [reflexivity|].
  apply (node_facts.Compound_stops_at_an_exception 2 [samples.assign_x] [samples.unreachable]
           samples.x_by_zero samples.empty_env samples.x_is_1 samples.x_is_1 HNone
           (runtime_error "division by zero")); reflexivity.
Defined.

(** [y.tag = 7], read as [x.tag]. *)
Lemma FieldAssignment_is_seen_through_aliases_witness :
  objects (world samples.two_names) !! 1%nat = Some (mkInstance examples.Thing ∅) /\
  exists e2 : Env,
    Execute 2 (FieldAssignment ["y"] "tag" (NumericConst 7)) samples.two_names
    = Some (Returns (HNumber 7), e2) /\
    closure e2 = closure samples.two_names /\
    forall fuel : nat,
      Execute (S fuel) (VariableValue ["x"; "tag"]) e2 = Some (Returns (HNumber 7), e2).
Proof.
  split; [reflexivity|].
  apply (node_facts.FieldAssignment_is_seen_through_aliases 1 ["y"] "tag" (NumericConst 7) "x"
           1%nat (mkInstance examples.Thing ∅) (HNumber 7) samples.two_names samples.two_names);
    reflexivity.
Defined.

(** [1 <= 2] and [2 > 2]. *)
Lemma Comparison_of_numbers_witness :
  Execute 2 (Comparison CmpLessOrEqual (Some (NumericConst 1)) (Some (NumericConst 2)))
    samples.empty_env
  = Some (Returns (HBool true), samples.empty_env) /\
  Execute 2 (Comparison CmpGreater (Some (NumericConst 2)) (Some (NumericConst 2)))
    samples.empty_env
  = Some (Returns (HBool false), samples.empty_env).
Proof.
  split.
  - apply (node_facts.Comparison_of_numbers 1 CmpLessOrEqual (NumericConst 1) (NumericConst 2)
             samples.empty_env samples.empty_env samples.empty_env 1 2); reflexivity.
  - apply (node_facts.Comparison_of_numbers 1 CmpGreater (NumericConst 2) (NumericConst 2)
             samples.empty_env samples.empty_env samples.empty_env 2 2); reflexivity.
Defined.

(** [-7 / 2] is [-3], and [-7 - 2] is [-9]; the least [int] divided by [-1]
    is a fault. *)
Lemma arithmetic_of_numbers_witness :
  Execute 2 (Div (Some (NumericConst (-7))) (Some (NumericConst 2))) samples.empty_env
  = Some (Returns (HNumber (-3)), samples.empty_env) /\
  Execute 2 (Sub (Some (NumericConst (-7))) (Some (NumericConst 2))) samples.empty_env
  = Some (Returns (HNumber (-9)), samples.empty_env) /\
  Execute 2 (Div (Some (NumericConst (-2147483648))) (Some (NumericConst (-1))))
    samples.empty_env
  = Some (Throws (fault "integer division overflow"), samples.empty_env).
Proof.
  destruct (node_facts.arithmetic_of_numbers 1 (NumericConst (-7)) (NumericConst 2)
              samples.empty_env samples.empty_env samples.empty_env (-7) 2
              eq_refl eq_refl) as (_ & Hsub & _ & Hdiv & _).
  destruct (node_facts.arithmetic_of_numbers 1 (NumericConst (-2147483648))
              (NumericConst (-1)) samples.empty_env samples.empty_env samples.empty_env
              (-2147483648) (-1) eq_refl eq_refl) as (_ & _ & _ & _ & _ & Htrap).
  split; [|split].
  - apply Hdiv; [discriminate|]. unfold node_spec.is_int.
    change (Z.quot (-7) 2) with (-3). lia.
  - apply Hsub. unfold node_spec.is_int. lia.
  - apply Htrap; reflexivity.
Defined.

(** [Counter(5)]: no call of [__init__], no error. *)
Lemma NewInstance_without_matching_init_witness :
  GetMethod examples.Counter "__init__" = Some examples.init /\
  length (formal_params examples.init) = 0%nat /\
  Execute 2 samples.Counter_of_5 examples.short_circuit_env
  = Some (Returns (HInstance 1%nat), examples.short_circuit_env).
Proof.
  split; [reflexivity|]. split; [reflexivity|].
  apply (node_facts.NewInstance_without_matching_init 1 1%nat [NumericConst 5]
           examples.short_circuit_env examples.short_circuit_env [HNumber 5]
           (mkInstance examples.Counter ∅)); [reflexivity | reflexivity |].
  intros m Hm. vm_compute in Hm. injection Hm as <-. discriminate.
Defined.

(** [print 1, None, 'a', True]. *)
Lemma Print_of_literals_witness :
  Execute 2 (Print samples.four_literals) samples.empty_env
  = Some (Returns (HBool true), mkEnv ∅ (mkWorld ∅ ("1 None a True" ++ endl) ∅)).
Proof.
  apply (node_facts.Print_of_literals 0 samples.four_literals
           [(HNumber 1, "1"); (HNone, "None"); (HString "a", "a"); (HBool true, "True")]
           samples.empty_env).
  reflexivity.
Defined.

(** [str(42)]. *)
Lemma Stringify_is_the_text_of_Print_witness :
  Object_Print 1 (HNumber 42) (mkWorld ∅ "" ∅) = Some (Returns tt, mkWorld ∅ "42" ∅) /\
  exists text : string,
    "42" = ("" ++ text)%string /\
    Execute 2 (Stringify (NumericConst 42)) samples.empty_env
    = Some (Returns (HString text), samples.empty_env).
Proof.
  split; [reflexivity|].
  apply (node_facts.Stringify_is_the_text_of_Print 1 (NumericConst 42) (HNumber 42)
           samples.empty_env samples.empty_env (mkWorld ∅ "42" ∅)); reflexivity.
Defined.

(** [6 * 7] is a number that an [int] holds, [not 0] a [Bool]. *)
Lemma Execute_result_kind_witness :
  Execute 2 (Mult (Some (NumericConst 6)) (Some (NumericConst 7))) samples.empty_env
  = Some (Returns (HNumber 42), samples.empty_env) /\
  (exists n : Z, HNumber 42 = HNumber n /\ node_spec.is_int n) /\
  Execute 2 (Not (Some (NumericConst 0))) samples.empty_env
  = Some (Returns (HBool true), samples.empty_env) /\
  (exists b : bool, HBool true = HBool b).
Proof.
  split; [reflexivity|]. split; [|split; [reflexivity|]].
  - apply (node_facts.Execute_result_kind 2
             (Mult (Some (NumericConst 6)) (Some (NumericConst 7)))
             samples.empty_env samples.empty_env (HNumber 42)).
    reflexivity.
  - apply (node_facts.Execute_result_kind 2 (Not (Some (NumericConst 0)))
             samples.empty_env samples.empty_env (HBool true)).
    reflexivity.
Defined.
